(** * FeatherMaker: the keyed parameter graph, its blend and the sampling loop

    A shallow embedding of [FeatherMaker.py]: the module-level [lerp],
    the classes [LineGraph] and [BarbParameters], the loop of
    [make_barb_curves] with [draw_barb], the graph the window builds,
    [scale_feathers], and the splitting of the edge list in
    [make_feathers].  The answers of the modelling host are parameters.

    Python's [float] is IEEE 754 binary64; it is embedded as Rocq's primitive
    [float], whose operations are the same binary64 operations.  Python's
    [int] is [Z].  Exceptions are an explicit [result]. *)

From Stdlib Require Import Ascii String.
From Stdlib Require Import ZArith List Lia Bool Floats Permutation Sorted.
Import ListNotations.

(* ================================================================== *)
(** * Binary64 comparison                                              *)
(* ================================================================== *)

(** Comparisons of floats as the program writes them; [0.0] and [-0.0]
    are equal, and a NaN compares with nothing, itself included. *)
Module F64.

Open Scope float_scope.

(** [a >= b] as Python (and C) evaluates it. *)
Definition geb (a b : float) : bool := b <=? a.

(** Not a NaN: the value compares equal to itself. *)
Definition ordered (a : float) : bool := a =? a.

Definition cmp (a b : float) : option comparison :=
  SFcompare (Prim2SF a) (Prim2SF b).

End F64.

(* ================================================================== *)
(** * Python values and exceptions                                     *)
(* ================================================================== *)

Open Scope float_scope.

(** The exceptions the modelled code can raise. *)
Inductive exn : Type :=
| KeyError | ValueError | AttributeError | TypeError
| OverflowError | ZeroDivisionError.

(** The outcome of a Python expression: a value or a raised exception. *)
Inductive result (A : Type) : Type :=
| Ok (a : A)
| Raise (e : exn).
Arguments Ok {A} a.
Arguments Raise {A} e.

Definition bind {A B : Type} (r : result A) (k : A -> result B) : result B :=
  match r with
  | Ok a => k a
  | Raise e => Raise e
  end.

Notation "x <- r ;; k" := (bind r (fun x => k))
  (at level 61, r at next level, right associativity).

(** The numbers of Python: [int] and [float] are different types, and
    [isinstance(x, float)] tells them apart. *)
Inductive number : Type :=
| Int (n : Z)
| Float (x : float).

(** The values the program stores and blends: numbers, and instances of
    [BarbParameters] with their four attributes. *)
Inductive value : Type :=
| VInt (n : Z)
| VFloat (x : float)
| VBarb (position length start_angle end_angle : value).

Definition value_of_number (n : number) : value :=
  match n with
  | Int z => VInt z
  | Float x => VFloat x
  end.

(** ** [float(x)] *)

(** An [int] converts to the nearest binary64 value, ties to even;
    Python raises [OverflowError] where that would be an infinity. *)
Definition float_of_Z (n : Z) : float :=
  SF2Prim (binary_normalize prec emax n 0%Z false).

Definition is_inf (x : float) : bool :=
  (x =? infinity) || (x =? neg_infinity).

(** Neither a NaN nor an infinity. *)
Definition is_finite (x : float) : bool := F64.ordered x && negb (is_inf x).

Definition float_of_int (n : Z) : result float :=
  let x := float_of_Z n in
  if is_inf x then Raise OverflowError else Ok x.

Definition py_float (v : value) : result float :=
  match v with
  | VFloat x => Ok x
  | VInt n => float_of_int n
  | VBarb _ _ _ _ => Raise TypeError
  end.

(** ** Comparison of numbers *)

(** Python compares an [int] with a [float] by their exact values. *)
Definition Z_SFcompare (n : Z) (x : spec_float) : option comparison :=
  match x with
  | S754_nan => None
  | S754_infinity s => Some (if s then Gt else Lt)
  | S754_zero _ => Some (n ?= 0)%Z
  | S754_finite s m e =>
      let fm := cond_Zopp s (Zpos m) in
      Some (match e with
            | Zneg p => (n * 2 ^ Zpos p ?= fm)%Z
            | _ => (n ?= fm * 2 ^ e)%Z
            end)
  end.

Definition number_compare (a b : number) : option comparison :=
  match a, b with
  | Int m, Int n => Some (m ?= n)%Z
  | Float x, Float y => F64.cmp x y
  | Int m, Float y => Z_SFcompare m (Prim2SF y)
  | Float x, Int n => option_map CompOpp (Z_SFcompare n (Prim2SF x))
  end.

(** [a < b] *)
Definition number_ltb (a b : number) : bool :=
  match number_compare a b with
  | Some Lt => true
  | _ => false
  end.

(** [a <= b] *)
Definition number_leb (a b : number) : bool :=
  match number_compare a b with
  | Some (Lt | Eq) => true
  | _ => false
  end.

(** [a == b] *)
Definition number_eqb (a b : number) : bool :=
  match number_compare a b with
  | Some Eq => true
  | _ => false
  end.

(** ** [sorted] *)

(** [sorted] is a stable sort that only evaluates [<].  On values that
    [<] orders totally every such sort returns the same list; it is
    written here as the insertion sort that places each element before
    the first later element that is not smaller than it. *)
Section Sorted.
Context {A : Type} (lt : A -> A -> bool).

Fixpoint insert (x : A) (l : list A) : list A :=
  match l with
  | [] => [x]
  | y :: l' => if lt y x then y :: insert x l' else x :: l
  end.

Definition sorted (l : list A) : list A := fold_right insert [] l.
End Sorted.

(** ** [dict] with float keys *)

(** A [dict] keeps its items in insertion order; a key is found by [==]
    (so [0.0] and [-0.0] are one key), and assigning to an existing key
    replaces the value and keeps the key object.  NaN keys are never found:
    lookup of a NaN by object identity is outside the model. *)
Definition dict : Type := list (float * value).

Definition keys (d : dict) : list float := map fst d.

Fixpoint dict_get (d : dict) (k : float) : option value :=
  match d with
  | [] => None
  | (k', v) :: d' => if k' =? k then Some v else dict_get d' k
  end.

(** [k in d] *)
Definition dict_mem (d : dict) (k : float) : bool :=
  match dict_get d k with
  | Some _ => true
  | None => false
  end.

(** [d[k]] *)
Definition dict_getitem (d : dict) (k : float) : result value :=
  match dict_get d k with
  | Some v => Ok v
  | None => Raise KeyError
  end.

(** [d[k] = v] *)
Fixpoint dict_set (d : dict) (k : float) (v : value) : dict :=
  match d with
  | [] => [(k, v)]
  | (k', v') :: d' =>
      if k' =? k then (k', v) :: d' else (k', v') :: dict_set d' k v
  end.

(* ================================================================== *)
(** * The program                                                      *)
(* ================================================================== *)

(** [a / b] on floats raises [ZeroDivisionError] for a zero divisor. *)
Definition truediv (a b : float) : result float :=
  if b =? 0 then Raise ZeroDivisionError else Ok (a / b).

(** ** [BarbParameters] *)

(** [BarbParameters.__init__(position, length, start_angle, end_angle)].
    The position is [sorted([0, float(position), 1])[1]], the middle element
    of a list that holds the ints [0] and [1] beside the float. *)
Definition clamp01 (p : float) : number :=
  nth 1 (sorted number_ltb [Int 0; Float p; Int 1]) (Int 0).

Definition BarbParameters_init
    (position length start_angle end_angle : value) : result value :=
  p <- py_float position;;
  l <- py_float length;;
  Ok (VBarb (value_of_number (clamp01 p)) (VFloat l) start_angle end_angle).

(** Attribute access on an object that need not be a [BarbParameters]. *)
Definition getattr_position (v : value) : result value :=
  match v with VBarb p _ _ _ => Ok p | _ => Raise AttributeError end.
Definition getattr_length (v : value) : result value :=
  match v with VBarb _ l _ _ => Ok l | _ => Raise AttributeError end.
Definition getattr_start_angle (v : value) : result value :=
  match v with VBarb _ _ s _ => Ok s | _ => Raise AttributeError end.
Definition getattr_end_angle (v : value) : result value :=
  match v with VBarb _ _ _ e => Ok e | _ => Raise AttributeError end.

(** The position of a record that was just constructed. *)
Definition getattr_position' (r : result value) : result value :=
  v <- r;; getattr_position v.

(** ** [lerp] and [BarbParameters.lerp] *)

(** The module-level [lerp(a, b, t)] interpolates two floats and otherwise
    calls the method [a.lerp(b, t)]; of the modelled values only a
    [BarbParameters] has that method, whose body calls [lerp] on the
    attributes.  [t] is a float, as the docstrings require. *)
Fixpoint lerp (a b : value) (t : float) {struct a} : result value :=
  match a with
  | VFloat x =>
      match b with
      | VFloat y => Ok (VFloat ((y - x) * t + x))
      | _ => Raise AttributeError
      end
  | VInt _ => Raise AttributeError
  | VBarb position length start_angle end_angle =>
      p' <- getattr_position b;;
      p <- lerp position p' t;;
      l' <- getattr_length b;;
      l <- lerp length l' t;;
      s' <- getattr_start_angle b;;
      s <- lerp start_angle s' t;;
      e' <- getattr_end_angle b;;
      e <- lerp end_angle e' t;;
      BarbParameters_init p l s e
  end.

(** [BarbParameters.lerp(self, other, t)], the method [lerp] dispatches to. *)
Definition BarbParameters_lerp (self other : value) (t : float) : result value :=
  sp <- getattr_position self;;
  op <- getattr_position other;;
  p <- lerp sp op t;;
  sl <- getattr_length self;;
  ol <- getattr_length other;;
  l <- lerp sl ol t;;
  ss <- getattr_start_angle self;;
  os <- getattr_start_angle other;;
  s <- lerp ss os t;;
  se <- getattr_end_angle self;;
  oe <- getattr_end_angle other;;
  e <- lerp se oe t;;
  BarbParameters_init p l s e.

(** ** [LineGraph] *)

(** A [LineGraph] is its private dict [__points]. *)
Definition LineGraph : Type := dict.

(** The dict comprehension [{float(key): value for key, value in items}]. *)
Fixpoint float_keys (items : list (value * value)) (acc : dict) : result dict :=
  match items with
  | [] => Ok acc
  | (key, v) :: items' =>
      k <- py_float key;;
      float_keys items' (dict_set acc k v)
  end.

(** [LineGraph.__init__(points)]; [None] stands for an argument that is
    not a dict, [Some items] for a dict with these items. *)
Definition LineGraph_init (points : option (list (value * value))) : result LineGraph :=
  let items := match points with Some items => items | None => [] end in
  points <- float_keys items [];;
  let points := if dict_mem points 0 then points else dict_set points 0 (VFloat 0) in
  let points := if dict_mem points 1 then points else dict_set points 1 (VFloat 0) in
  Ok points.

(** [LineGraph.point_locations()] *)
Definition point_locations (self : LineGraph) : list float :=
  sorted PrimFloat.ltb (keys self).

(** The loop of [get]: [prev] is [parameters[x - 1]] and the list holds
    [parameters[x:]]. *)
Fixpoint get_loop (self : LineGraph) (parameter prev : float) (rest : list float)
    : result value :=
  match rest with
  | [] => Raise KeyError
  | cur :: rest' =>
      if F64.geb cur parameter then
        let low := prev in
        let high := cur in
        vl <- dict_getitem self low;;
        vh <- dict_getitem self high;;
        t <- truediv (parameter - low) (high - low);;
        lerp vl vh t
      else get_loop self parameter cur rest'
  end.

(** [LineGraph.get(parameter)], also [self[parameter]]. *)
Definition get (self : LineGraph) (parameter : value) : result value :=
  parameter <- py_float parameter;;
  match dict_get self parameter with
  | Some v => Ok v
  | None =>
      match point_locations self with
      | [] => Raise KeyError
      | p0 :: rest => get_loop self parameter p0 rest
      end
  end.

(** [LineGraph.set(parameter, value)], also [self[parameter] = value]. *)
Definition set (self : LineGraph) (parameter : value) (v : value) : result LineGraph :=
  parameter <- py_float parameter;;
  if (0 <=? parameter) && (parameter <=? 1) then Ok (dict_set self parameter v)
  else Raise ValueError.

(** The loop of [LineGraph.lerp] over the points of both graphs. *)
Fixpoint lerp_loop (self other : LineGraph) (t : float)
    (pts : list float) (res : LineGraph) : result LineGraph :=
  match pts with
  | [] => Ok res
  | point :: pts' =>
      a <- get self (VFloat point);;
      b <- get other (VFloat point);;
      v <- lerp a b t;;
      res' <- set res (VFloat point) v;;
      lerp_loop self other t pts' res'
  end.

(** [LineGraph.lerp(other, t)] *)
Definition LineGraph_lerp (self other : LineGraph) (t : float) : result LineGraph :=
  res <- LineGraph_init None;;
  lerp_loop self other t (point_locations self ++ point_locations other) res.

(** ** [math] *)

(** Decimal literals such as [0.1] denote the nearest binary64 value, as
    they do in Python. *)
Set Warnings "-inexact-float".

(** A function of [math] on one float: the C function [f], with
    [ValueError] where it answers a number with a NaN, or a finite number
    with an infinity. *)
Definition math_1 (f : float -> float) (x : float) : result float :=
  let r := f x in
  if negb (F64.ordered r) && F64.ordered x then Raise ValueError
  else if is_inf r && is_finite x then Raise ValueError
  else Ok r.

(** [math.radians(x)]: the product with [pi / 180]. *)
Definition degToRad : float := 3.141592653589793 / 180.

Definition radians (v : value) : result float :=
  x <- py_float v;; Ok (x * degToRad).

(** ** [make_barb_curves] *)

(** [float(i) / max(count - 1, 1)]: the int divisor is converted to float. *)
Definition parameter_position (count i : Z) : result float :=
  x <- float_of_int i;;
  d <- float_of_int (Z.max (count - 1) 1);;
  truediv x d.

(** [range(n)] *)
Definition range (n : nat) : list Z := map Z.of_nat (seq 0 n).

(** Three coordinates, as the host gives and takes them. *)
Definition point : Type := (float * float * float)%type.

Section Barb.

(** [math.sin] and [math.cos] are the C library's functions. *)
Variables sin cos : float -> float.

(** [draw_barb(position, barb_parameters)], up to the host calls: the
    control points handed to [cmd.curve]. *)
Definition draw_barb (position : point) (barb_parameters : value) : result (list point) :=
  let '(x, y, z) := position in
  start_angle <- getattr_start_angle barb_parameters;;
  start_angle <- radians start_angle;;
  end_angle <- getattr_end_angle barb_parameters;;
  end_angle <- radians end_angle;;
  length <- getattr_length barb_parameters;;
  length <- py_float length;;
  let half_length := length / 2 in
  _ <- getattr_position barb_parameters;;
  s1 <- math_1 sin start_angle;;
  c1 <- math_1 cos start_angle;;
  let p1 := (s1 * half_length / 2 + x, 0 + y, c1 * half_length / 2 + z) in
  s2 <- math_1 sin start_angle;;
  c2 <- math_1 cos start_angle;;
  let p2 := (s2 * half_length + x, 0 + y, c2 * half_length + z) in
  s3 <- math_1 sin end_angle;;
  c3 <- math_1 cos start_angle;;
  let p3 := (s3 * half_length + fst (fst p2), 0 + y, c3 * half_length + snd p2) in
  Ok [position; p1; p2; p3].

Context {V : Type}.

(** [cmd.pointPosition(vertex, world=True)] *)
Variable pointPosition : V -> point.

(** The loop of [make_barb_curves]: for each vertex, in order, the
    position the host gives for it, its normalized position along the
    selection, the [barb_info] the graph gives there, and the call of
    [draw_barb] on the two.  The first exception ends the loop.  What is
    kept of each round is the [barb_info] that was handed to [draw_barb]
    and the control points of the curve it drew. *)
Fixpoint barbs (parameters : LineGraph) (count : Z) (items : list (Z * V))
    : result (list (value * list point)) :=
  match items with
  | [] => Ok []
  | (i, vertex) :: items' =>
      let position := pointPosition vertex in
      p <- parameter_position count i;;
      barb_info <- get parameters (VFloat p);;
      barb <- draw_barb position barb_info;;
      rest <- barbs parameters count items';;
      Ok ((barb_info, barb) :: rest)
  end.

(** [make_barb_curves(selection, parameters, mirror)], up to the calls into
    the modelling host that follow the loop (grouping the curves, and
    duplicating the group when [mirror] is set): the loop over the selected
    vertices. *)
Definition make_barb_curves (selection : list V) (parameters : LineGraph)
    : result (list (value * list point)) :=
  let count := List.length selection in
  barbs parameters (Z.of_nat count) (combine (range count) selection).

End Barb.

(* ================================================================== *)
(** * Invariants of a graph                                            *)
(* ================================================================== *)

(** No key is a NaN. *)
Definition ordered_keys (l : list float) : bool := forallb F64.ordered l.

(** No two keys are equal. *)
Fixpoint distinct_keys (l : list float) : bool :=
  match l with
  | [] => true
  | k :: l' => negb (existsb (fun k' => k' =? k) l') && distinct_keys l'
  end.

(** [0 <= k <= 1] *)
Definition in_unit (k : float) : bool := (0 <=? k) && (k <=? 1).

(** The invariant of a [LineGraph]: the points 0 and 1 are defined, and the
    keys are distinct numbers. *)
Definition LineGraph_ok (g : LineGraph) : bool :=
  dict_mem g 0 && dict_mem g 1 && ordered_keys (keys g) && distinct_keys (keys g).

(** The keys of a graph lie in the unit interval, as the docstring of
    [__init__] asks and [set] enforces. *)
Definition unit_keys (g : LineGraph) : bool := forallb in_unit (keys g).

(** The graphs a program can build: with the constructor, by [set], and
    by [lerp]. *)
Inductive graph : LineGraph -> Prop :=
| graph_init points g :
    LineGraph_init points = Ok g -> graph g
| graph_set g parameter v g' :
    graph g -> set g parameter v = Ok g' -> graph g'
| graph_lerp g1 g2 t g :
    graph g1 -> graph g2 -> LineGraph_lerp g1 g2 t = Ok g -> graph g.

(* ================================================================== *)
(** * Notions the statements use                                       *)
(* ================================================================== *)

(** Strictly ascending lists of floats. *)
Definition ascending (l : list float) : Prop :=
  StronglySorted (fun a b => (a <? b) = true) l.

(** The two defaulting steps of the constructor. *)
Definition with_default (k : float) (d : dict) : dict :=
  if dict_mem d k then d else dict_set d k (VFloat 0).

(** The blend the loop stores for a point. *)
Definition blended (self other : LineGraph) (t : float) (k : float) (v : value) : Prop :=
  exists a b,
    get self (VFloat k) = Ok a /\ get other (VFloat k) = Ok b /\ lerp a b t = Ok v.

Definition is_float (v : value) : bool :=
  match v with VFloat _ => true | _ => false end.

(** Every stored value is a float (a Scalar graph). *)
Definition scalar_graph (g : LineGraph) : bool :=
  forallb (fun kv => is_float (snd kv)) g.

(** [i / max(N - 1, 1)] on floats: the normalized position of vertex [i]
    of [N]. *)
Definition sample_position (N i : nat) : float :=
  float_of_Z (Z.of_nat i) / float_of_Z (Z.max (Z.of_nat N - 1) 1).

Section Each.

Variables sin cos : float -> float.
Context {V : Type}.
Variable pointPosition : V -> point.

(** For each vertex with a position on the graph, in order: the value of
    the graph at the position, and the curve drawn from it at the vertex. *)
Fixpoint draw_each (parameters : LineGraph) (items : list (V * float))
    : result (list (value * list point)) :=
  match items with
  | [] => Ok []
  | (vertex, p) :: items' =>
      barb_info <- get parameters (VFloat p);;
      barb <- draw_barb sin cos (pointPosition vertex) barb_info;;
      rest <- draw_each parameters items';;
      Ok ((barb_info, barb) :: rest)
  end.

End Each.

(** The parameters resolved in a run of the loop, without the curves. *)
Definition resolved {A B : Type} (r : result (list (A * B))) : result (list A) :=
  match r with
  | Ok l => Ok (map fst l)
  | Raise e => Raise e
  end.

(** The graph of Scenario B. *)
Definition scenario_B : list (value * value) :=
  [(VFloat 0, VFloat 0); (VFloat 0.5, VFloat 10); (VFloat 1, VFloat 0)].

(* ================================================================== *)
(** * The rest of the module                                           *)
(* ================================================================== *)

(** ** The rest of [LineGraph] *)

(** [LineGraph.to_dict()]: a new dict with the items of the graph. *)
Definition to_dict (self : LineGraph) : list (value * value) :=
  map (fun item => (VFloat (fst item), snd item)) self.

(** [parameter in self]: the lookup of the dict, by hash and [==]; the
    argument is not converted, an int is found at the float it equals. *)
Definition contains (self : LineGraph) (parameter : value) : bool :=
  match parameter with
  | VFloat x => dict_mem self x
  | VInt n => existsb (fun k => number_eqb (Float k) (Int n)) (keys self)
  | VBarb _ _ _ _ => false
  end.

(** ** The graph of the window *)

(** The [LineGraph] the button of [generate_barb_curves] builds from the
    values of its sliders (floats): five records, at [0.0], at the three
    positions [0.1], [0.5] and [0.95], and at [1.0]. *)
Definition window_graph (l0 s0 e0 l1 s1 e1 l2 s2 e2 l3 s3 e3 : float) : result LineGraph :=
  b0 <- BarbParameters_init (VFloat 0) (VFloat l0) (VFloat (s0 + 5)) (VFloat e0);;
  b1 <- BarbParameters_init (VFloat 0.1) (VFloat l1) (VFloat s1) (VFloat e1);;
  b2 <- BarbParameters_init (VFloat 0.5) (VFloat l2) (VFloat s2) (VFloat e2);;
  b3 <- BarbParameters_init (VFloat 0.95) (VFloat l3) (VFloat s3) (VFloat e3);;
  b4 <- BarbParameters_init (VFloat 1) (VFloat 0) (VFloat s3) (VFloat e3);;
  LineGraph_init
    (Some [(VFloat 0, b0); (VFloat 0.1, b1); (VFloat 0.5, b2); (VFloat 0.95, b3);
           (VFloat 1, b4)]).

(** ** [scale_feathers] *)

(** The exceptions of the scene functions: those of the interpolation
    core, [SyntaxError] and [IndexError]. *)
Inductive scene_exn : Type :=
| Core (e : exn)
| SyntaxError
| IndexError.

(** [str.lower()]; only the ASCII letters matter here, the result is
    compared with ['x'], ['y'] and ['z']. *)
Definition lower_ascii (c : ascii) : ascii :=
  let n := nat_of_ascii c in
  if (65 <=? n)%nat && (n <=? 90)%nat then ascii_of_nat (n + 32) else c.

Fixpoint lower (s : string) : string :=
  match s with
  | EmptyString => EmptyString
  | String c s' => String (lower_ascii c) (lower s')
  end.

(** An element of the list [cmd.getAttr] answers with: a number, or a
    tuple of three numbers.  For an attribute of three components the
    repository reads the answer as a list that holds one tuple
    ([old_pivot[0][0]] in [make_feathers]). *)
Inductive attr_item : Type :=
| Number (x : float)
| Triple (t : point).

(** [l[i] = v] on a list that has an index [i]. *)
Fixpoint list_set {A : Type} (l : list A) (i : nat) (v : A) : list A :=
  match l, i with
  | [], _ => []
  | _ :: l', O => v :: l'
  | a :: l', S i' => a :: list_set l' i' v
  end.

(** [scale[i] *= scale_factor] with a float factor: [IndexError] where the
    list has no index [i], [TypeError] where the element is a tuple (a
    sequence is multiplied by an int only). *)
Definition scale_item (scale : list attr_item) (i : nat) (scale_factor : float)
    : list attr_item + scene_exn :=
  match nth_error scale i with
  | None => inr IndexError
  | Some (Number c) => inl (list_set scale i (Number (c * scale_factor)))
  | Some (Triple _) => inr (Core TypeError)
  end.

(** The branch on an axis name: [scale[i] *= scale_factor] for ['x'],
    ['y'], ['z'], and [SyntaxError] otherwise. *)
Definition scale_axis (axis : string) (scale : list attr_item) (scale_factor : float)
    : list attr_item + scene_exn :=
  if (axis =? "x")%string then scale_item scale 0 scale_factor
  else if (axis =? "y")%string then scale_item scale 1 scale_factor
  else if (axis =? "z")%string then scale_item scale 2 scale_factor
  else inr SyntaxError.

Section Scale.

Context {F : Type}.

(** [cmd.getAttr('<feather>.scale')]: the list the host answers with. *)
Variable getAttr_scale : F -> list attr_item.

(** [scale_feathers(feathers, scale_factor, primary_axis, secondary_axis)]
    with a float [scale_factor], as the docstring has it and as the window
    passes it: the calls [cmd.scale(scale[0], scale[1], scale[2], feather)]
    it makes, in order, and the exception that ended it, if any. *)
Fixpoint scale_feathers (feathers : list F) (scale_factor : float)
    (primary_axis secondary_axis : string)
    : list ((attr_item * attr_item * attr_item) * F) * option scene_exn :=
  match feathers with
  | [] => ([], None)
  | feather :: feathers' =>
      let scale := getAttr_scale feather in
      let primary_axis := lower primary_axis in
      match scale_axis primary_axis scale scale_factor with
      | inr e => ([], Some e)
      | inl scale =>
          let secondary_axis := lower secondary_axis in
          match math_1 PrimFloat.sqrt scale_factor with
          | Raise e => ([], Some (Core e))
          | Ok scale_factor =>
              match scale_axis secondary_axis scale scale_factor with
              | inr e => ([], Some e)
              | inl scale =>
                  match nth_error scale 0, nth_error scale 1, nth_error scale 2 with
                  | Some a, Some b, Some c =>
                      let '(calls, e) :=
                        scale_feathers feathers' scale_factor
                          primary_axis secondary_axis in
                      (((a, b, c), feather) :: calls, e)
                  | _, _, _ => ([], Some IndexError)
                  end
              end
          end
      end
  end.

End Scale.

(** ** The edges of [make_feathers] *)

(** [re.split(' +|, *', edges)]: the text is cut at every run of spaces
    and at every comma with the spaces after it; what lies between two
    cuts is kept, also when it is empty.  [sep] tells that the last
    character belonged to a separator, [tok] is the piece being read. *)
Fixpoint re_split_from (sep : bool) (tok : string) (s : string) : list string :=
  match s with
  | EmptyString => [tok]
  | String c s' =>
      if Ascii.eqb c " " then
        if sep then re_split_from true tok s'
        else tok :: re_split_from true EmptyString s'
      else if Ascii.eqb c "," then tok :: re_split_from true EmptyString s'
      else re_split_from false (tok ++ String c EmptyString) s'
  end.

Definition re_split (edges : string) : list string :=
  re_split_from false EmptyString edges.

(* ================================================================== *)
(** * Notions the further properties use                               *)
(* ================================================================== *)

(** A record whose four attributes are floats. *)
Definition is_record (v : value) : bool :=
  match v with
  | VBarb (VFloat _) (VFloat _) (VFloat _) (VFloat _) => true
  | _ => false
  end.

(** Every stored value is such a record. *)
Definition record_graph (g : LineGraph) : bool :=
  forallb (fun kv => is_record (snd kv)) g.

(** A record that [draw_barb] can read: a number as position, floats as
    length and angles. *)
Definition is_barb_info (v : value) : bool :=
  match v with
  | VBarb (VInt _ | VFloat _) (VFloat _) (VFloat _) (VFloat _) => true
  | _ => false
  end.

(** Every stored value is a finite float. *)
Definition finite_graph (g : LineGraph) : bool :=
  forallb (fun kv => match snd kv with VFloat x => is_finite x | _ => false end) g.

(** Every stored value is a float equal to [c]. *)
Definition flat_graph (c : float) (g : LineGraph) : bool :=
  forallb (fun kv => match snd kv with VFloat x => x =? c | _ => false end) g.

(** [- b <= x <= b] *)
Definition within (b x : float) : bool := (- b <=? x) && (x <=? b).

(** A record whose angles are floats between [- b] and [b]. *)
Definition angles_within (b : float) (v : value) : bool :=
  match v with
  | VBarb (VFloat _) (VFloat _) (VFloat s) (VFloat e) => within b s && within b e
  | _ => false
  end.

(** What the loop keeps of a round that went well: a record that
    [draw_barb] can read, and a curve of four points. *)
Definition is_barb (b : value * list point) : bool :=
  is_barb_info (fst b) && (List.length (snd b) =? 4)%nat.


(** The host answers with a list that holds one tuple. *)
Definition one_triple (scale : list attr_item) : bool :=
  match scale with
  | [Triple _] => true
  | _ => false
  end.

(** Componentwise [==]. *)
Definition coords_eqb (a b : point) : bool :=
  let '(x, y, z) := a in
  let '(x', y', z') := b in
  (x =? x') && (y =? y') && (z =? z').

(** An axis name the function accepts. *)
Definition is_axis (axis : string) : bool :=
  ((axis =? "x") || (axis =? "y") || (axis =? "z"))%string.

(** Neither a space nor a comma. *)
Definition plain (c : ascii) : bool := negb (Ascii.eqb c " ") && negb (Ascii.eqb c ",").

Fixpoint all_chars (P : ascii -> bool) (s : string) : bool :=
  match s with
  | EmptyString => true
  | String c s' => P c && all_chars P s'
  end.

(** A piece of text without spaces and commas, not empty. *)
Definition is_token (t : string) : bool :=
  match t with
  | EmptyString => false
  | _ => all_chars plain t
  end.

(** What the pattern [' +|, *'] matches: spaces, or a comma and spaces. *)
Definition is_separator (s : string) : bool :=
  match s with
  | EmptyString => false
  | String c s' =>
      (Ascii.eqb c " " || Ascii.eqb c ",") && all_chars (fun c => Ascii.eqb c " ") s'
  end.

(** Tokens with a separator before each but the first. *)
Fixpoint join (t : string) (rest : list (string * string)) : string :=
  match rest with
  | [] => t
  | (sep, t') :: rest' => (t ++ sep ++ join t' rest')%string
  end.

(** The text without its spaces and commas. *)
Fixpoint strip (s : string) : string :=
  match s with
  | EmptyString => EmptyString
  | String c s' => if plain c then String c (strip s') else strip s'
  end.

(* ================================================================== *)
(** * The order of binary64 values                                     *)
(* ================================================================== *)

(** The comparisons of binary64, read off the specification of the
    primitive operations ([SFcompare]): a total preorder away from NaN. *)
Module F64Facts.

Import F64.
Open Scope float_scope.

Lemma eqb_cmp a b : (a =? b) = match cmp a b with Some Eq => true | _ => false end.
Proof. rewrite eqb_spec. reflexivity. Qed.

Lemma ltb_cmp a b : (a <? b) = match cmp a b with Some Lt => true | _ => false end.
Proof. rewrite ltb_spec. reflexivity. Qed.

Lemma leb_cmp a b :
  (a <=? b) = match cmp a b with Some (Lt | Eq) => true | _ => false end.
Proof. rewrite leb_spec. reflexivity. Qed.

(** ** The specification's comparison is an order *)

Lemma pos_cmp_cont_eq m n : Pos.compare_cont Eq m n = Pos.compare m n.
Proof. reflexivity. Qed.

Ltac fold_pos_cmp :=
  repeat match goal with
  | |- context [Pos.compare_cont Eq ?a ?b] =>
      change (Pos.compare_cont Eq a b) with (Pos.compare a b)
  | H : context [Pos.compare_cont Eq ?a ?b] |- _ =>
      change (Pos.compare_cont Eq a b) with (Pos.compare a b) in H
  end.

Ltac zcases :=
  repeat match goal with
  | |- context [Z.compare ?a ?b] =>
      destruct (Z.compare_spec a b); try subst
  | H : context [Z.compare ?a ?b] |- _ =>
      destruct (Z.compare_spec a b); try subst
  | |- context [Pos.compare ?a ?b] =>
      destruct (Pos.compare_spec a b); try subst
  | H : context [Pos.compare ?a ?b] |- _ =>
      destruct (Pos.compare_spec a b); try subst
  end.

Ltac sf_done :=
  simpl in *; fold_pos_cmp; zcases; simpl in *;
  try congruence; try lia.

Lemma SFcompare_sym x y :
  SFcompare y x = option_map CompOpp (SFcompare x y).
Proof.
  destruct x as [[]|[]| |[] m e], y as [[]|[]| |[] m' e']; try reflexivity;
    sf_done.
Qed.

Lemma SFcompare_lt_trans x y z :
  SFcompare x y = Some Lt -> SFcompare y z = Some Lt -> SFcompare x z = Some Lt.
Proof.
  destruct x as [[]|[]| |[] m e], y as [[]|[]| |[] m' e'], z as [[]|[]| |[] m'' e''];
    intros H1 H2; try discriminate; try reflexivity; sf_done.
Qed.

Lemma SFcompare_eq_l x y z :
  SFcompare x y = Some Eq -> SFcompare x z = SFcompare y z.
Proof.
  destruct x as [[]|[]| |[] m e], y as [[]|[]| |[] m' e'];
    intros H1; try discriminate; try reflexivity;
    destruct z as [[]|[]| |[] m'' e'']; try reflexivity; sf_done.
Qed.

Lemma SFcompare_refl x : SFcompare x x <> None -> SFcompare x x = Some Eq.
Proof.
  destruct x as [[]|[]| |[] m e]; intros H; try reflexivity;
    [ now elim H
    | unfold SFcompare; rewrite Z.compare_refl; fold_pos_cmp;
      rewrite Pos.compare_refl; reflexivity .. ].
Qed.

Lemma SFcompare_some x y c : SFcompare x y = Some c -> SFcompare x x <> None.
Proof. destruct x as [[]|[]| |[] m e], y as [[]|[]| |[] m' e']; simpl; congruence. Qed.

(** ** The same facts on primitive floats *)

Lemma cmp_sym a b : cmp b a = option_map CompOpp (cmp a b).
Proof. apply SFcompare_sym. Qed.

Lemma cmp_eq_l a b c : cmp a b = Some Eq -> cmp a c = cmp b c.
Proof. apply SFcompare_eq_l. Qed.

Lemma cmp_eq_r a b c : cmp a b = Some Eq -> cmp c a = cmp c b.
Proof.
  intros H. rewrite (cmp_sym a c), (cmp_sym b c), (cmp_eq_l _ _ c H). reflexivity.
Qed.

Lemma cmp_lt_trans a b c : cmp a b = Some Lt -> cmp b c = Some Lt -> cmp a c = Some Lt.
Proof. apply SFcompare_lt_trans. Qed.

Lemma ordered_cmp a : ordered a = true <-> cmp a a = Some Eq.
Proof.
  unfold ordered. rewrite eqb_cmp.
  destruct (cmp a a) as [[]|]; split; congruence.
Qed.

Lemma cmp_ordered_l a b c : cmp a b = Some c -> ordered a = true.
Proof.
  intros H. apply ordered_cmp, SFcompare_refl. exact (SFcompare_some _ _ _ H).
Qed.

Lemma cmp_ordered_r a b c : cmp a b = Some c -> ordered b = true.
Proof.
  intros H. apply (cmp_ordered_l b a (CompOpp c)). rewrite cmp_sym, H. reflexivity.
Qed.

Lemma cmp_total a b : ordered a = true -> ordered b = true -> cmp a b <> None.
Proof.
  rewrite !ordered_cmp. unfold cmp.
  destruct (Prim2SF a) as [[]|[]| |[] m e], (Prim2SF b) as [[]|[]| |[] m' e'];
    simpl; congruence.
Qed.

(** Every comparison is decided by [cmp]; the tactic below replaces the
    boolean tests of a goal by the three-way comparison and its laws. *)
Ltac to_cmp :=
  unfold geb in *;
  rewrite ?eqb_cmp, ?ltb_cmp, ?leb_cmp in *.

Lemma eqb_refl a : ordered a = true -> (a =? a) = true.
Proof. trivial. Qed.

Lemma eqb_sym a b : (a =? b) = (b =? a).
Proof. to_cmp. rewrite (cmp_sym a b). destruct (cmp a b) as [[]|]; reflexivity. Qed.

Lemma eqb_trans a b c : (a =? b) = true -> (b =? c) = true -> (a =? c) = true.
Proof.
  to_cmp. intros H1 H2.
  destruct (cmp a b) as [[]|] eqn:E; try discriminate.
  rewrite (cmp_eq_l _ _ c E). exact H2.
Qed.

Lemma eqb_ordered_l a b : (a =? b) = true -> ordered a = true.
Proof.
  to_cmp. destruct (cmp a b) eqn:E; try discriminate. intros _.
  exact (cmp_ordered_l _ _ _ E).
Qed.

Lemma eqb_ordered_r a b : (a =? b) = true -> ordered b = true.
Proof. rewrite eqb_sym. apply eqb_ordered_l. Qed.

Lemma leb_ordered_l a b : (a <=? b) = true -> ordered a = true.
Proof.
  to_cmp. destruct (cmp a b) eqn:E; try discriminate. intros _.
  exact (cmp_ordered_l _ _ _ E).
Qed.

Lemma leb_ordered_r a b : (a <=? b) = true -> ordered b = true.
Proof.
  to_cmp. destruct (cmp a b) eqn:E; try discriminate. intros _.
  exact (cmp_ordered_r _ _ _ E).
Qed.

Lemma ltb_leb a b : (a <? b) = true -> (a <=? b) = true.
Proof. to_cmp. destruct (cmp a b) as [[]|]; congruence. Qed.

Lemma eqb_leb a b : (a =? b) = true -> (a <=? b) = true.
Proof. to_cmp. destruct (cmp a b) as [[]|]; congruence. Qed.

Lemma ltb_neqb a b : (a <? b) = true -> (a =? b) = false.
Proof. to_cmp. destruct (cmp a b) as [[]|]; congruence. Qed.

Lemma ltb_antisym a b : (a <? b) = true -> (b <? a) = false.
Proof.
  to_cmp. rewrite (cmp_sym a b). destruct (cmp a b) as [[]|]; simpl; congruence.
Qed.

Lemma ltb_not_leb a b : (a <? b) = true -> (b <=? a) = false.
Proof.
  to_cmp. rewrite (cmp_sym a b). destruct (cmp a b) as [[]|]; simpl; congruence.
Qed.

Lemma leb_not_ltb a b : (a <=? b) = true -> (b <? a) = false.
Proof.
  to_cmp. rewrite (cmp_sym a b). destruct (cmp a b) as [[]|]; simpl; congruence.
Qed.

Lemma leb_total a b :
  ordered a = true -> ordered b = true -> (a <=? b) = false -> (b <? a) = true.
Proof.
  intros Ha Hb. pose proof (cmp_total a b Ha Hb) as T. to_cmp.
  rewrite (cmp_sym a b). destruct (cmp a b) as [[]|]; simpl; congruence.
Qed.

Lemma ltb_total a b :
  ordered a = true -> ordered b = true -> (a <? b) = false -> (b <=? a) = true.
Proof.
  intros Ha Hb. pose proof (cmp_total a b Ha Hb) as T. to_cmp.
  rewrite (cmp_sym a b). destruct (cmp a b) as [[]|]; simpl; congruence.
Qed.

Lemma leb_antisym a b : (a <=? b) = true -> (b <=? a) = true -> (a =? b) = true.
Proof.
  to_cmp. rewrite (cmp_sym a b). destruct (cmp a b) as [[]|]; simpl; congruence.
Qed.

Lemma leb_lt_or_eq a b : (a <=? b) = ((a <? b) || (a =? b)).
Proof. to_cmp. destruct (cmp a b) as [[]|]; reflexivity. Qed.

(** Equal values are interchangeable in every comparison. *)
Lemma eqb_ltb_l a b c : (a =? b) = true -> (a <? c) = (b <? c).
Proof.
  to_cmp. destruct (cmp a b) as [[]|] eqn:E; try discriminate. intros _.
  rewrite (cmp_eq_l _ _ c E). reflexivity.
Qed.

Lemma eqb_ltb_r a b c : (a =? b) = true -> (c <? a) = (c <? b).
Proof.
  to_cmp. destruct (cmp a b) as [[]|] eqn:E; try discriminate. intros _.
  rewrite (cmp_eq_r _ _ c E). reflexivity.
Qed.

Lemma eqb_leb_l a b c : (a =? b) = true -> (a <=? c) = (b <=? c).
Proof.
  to_cmp. destruct (cmp a b) as [[]|] eqn:E; try discriminate. intros _.
  rewrite (cmp_eq_l _ _ c E). reflexivity.
Qed.

Lemma eqb_leb_r a b c : (a =? b) = true -> (c <=? a) = (c <=? b).
Proof.
  to_cmp. destruct (cmp a b) as [[]|] eqn:E; try discriminate. intros _.
  rewrite (cmp_eq_r _ _ c E). reflexivity.
Qed.

Lemma eqb_eqb_l a b c : (a =? b) = true -> (a =? c) = (b =? c).
Proof.
  to_cmp. destruct (cmp a b) as [[]|] eqn:E; try discriminate. intros _.
  rewrite (cmp_eq_l _ _ c E). reflexivity.
Qed.

Lemma eqb_eqb_r a b c : (a =? b) = true -> (c =? a) = (c =? b).
Proof. intros H. rewrite (eqb_sym c a), (eqb_sym c b). exact (eqb_eqb_l _ _ c H). Qed.

Lemma ltb_trans a b c : (a <? b) = true -> (b <? c) = true -> (a <? c) = true.
Proof.
  to_cmp. destruct (cmp a b) as [[]|] eqn:E1; try discriminate.
  destruct (cmp b c) as [[]|] eqn:E2; try discriminate. intros _ _.
  rewrite (cmp_lt_trans _ _ _ E1 E2). reflexivity.
Qed.

Lemma leb_ltb_trans a b c : (a <=? b) = true -> (b <? c) = true -> (a <? c) = true.
Proof.
  rewrite leb_lt_or_eq. intros H1 H2. apply orb_true_iff in H1 as [H1|H1].
  - exact (ltb_trans _ _ _ H1 H2).
  - rewrite (eqb_ltb_l _ _ c H1). exact H2.
Qed.

Lemma ltb_leb_trans a b c : (a <? b) = true -> (b <=? c) = true -> (a <? c) = true.
Proof.
  rewrite (leb_lt_or_eq b c). intros H1 H2. apply orb_true_iff in H2 as [H2|H2].
  - exact (ltb_trans _ _ _ H1 H2).
  - rewrite <- (eqb_ltb_r _ _ a H2). exact H1.
Qed.

Lemma leb_trans a b c : (a <=? b) = true -> (b <=? c) = true -> (a <=? c) = true.
Proof.
  intros H1 H2. rewrite (leb_lt_or_eq b c) in H2.
  apply orb_true_iff in H2 as [H2|H2].
  - apply ltb_leb. exact (leb_ltb_trans _ _ _ H1 H2).
  - rewrite <- (eqb_leb_r _ _ a H2). exact H1.
Qed.

Lemma ltb_ordered_l a b : (a <? b) = true -> ordered a = true.
Proof. intros H. exact (leb_ordered_l _ _ (ltb_leb _ _ H)). Qed.

Lemma ltb_ordered_r a b : (a <? b) = true -> ordered b = true.
Proof. intros H. exact (leb_ordered_r _ _ (ltb_leb _ _ H)). Qed.

Lemma ltb_irrefl a : (a <? a) = false.
Proof.
  destruct (a <? a) eqn:E; [|reflexivity].
  rewrite (ltb_antisym _ _ E) in E. discriminate.
Qed.

Lemma leb_neq_ltb a b : (a <=? b) = true -> (a =? b) = false -> (a <? b) = true.
Proof. rewrite leb_lt_or_eq. intros H E. rewrite E, orb_false_r in H. exact H. Qed.

Lemma leb_refl a : ordered a = true -> (a <=? a) = true.
Proof. intros H. apply eqb_leb, H. Qed.

(** Equality of floats identifies values up to the sign of zero. *)
Lemma eqb_eq_or_zero a b :
  (a =? b) = true -> a = b \/ ((a =? 0) = true /\ (b =? 0) = true).
Proof.
  intros H. destruct (b =? 0) eqn:Hb.
  - right. split; [|reflexivity]. exact (eqb_trans _ _ _ H Hb).
  - left. apply Prim2SF_inj. revert H Hb. rewrite !eqb_spec.
    change (Prim2SF 0) with (S754_zero false). unfold SFeqb.
    destruct (Prim2SF a) as [[]|[]| |[] m e], (Prim2SF b) as [[]|[]| |[] m' e'];
      simpl; try congruence; fold_pos_cmp;
      destruct (Z.compare_spec e e'); try congruence;
      destruct (Pos.compare_spec m m'); simpl; congruence.
Qed.

End F64Facts.

(* ================================================================== *)
(** * Binary64 rounding                                                *)
(* ================================================================== *)

(** Facts on the arithmetic of binary64, read off its specification
    ([SpecFloat]): what the program's subtractions and divisions return. *)
Module Round.

Local Open Scope Z_scope.

Lemma digits2_size m : digits2_pos m = Pos.size m.
Proof. induction m; simpl; congruence. Qed.

Lemma digits2_bounds m :
  2 ^ (Zpos (digits2_pos m) - 1) <= Zpos m < 2 ^ Zpos (digits2_pos m).
Proof.
  rewrite digits2_size. split.
  - pose proof (Pos.size_le m) as H.
    assert (Zpos (2 ^ Pos.size m) <= Zpos m~0) as H' by exact H.
    rewrite Pos2Z.inj_pow in H'.
    replace (Zpos (Pos.size m)) with (Zpos (Pos.size m) - 1 + 1) in H' by lia.
    rewrite Z.pow_add_r in H' by lia. lia.
  - pose proof (Pos.size_gt m) as H.
    assert (Zpos m < Zpos (2 ^ Pos.size m)) as H' by exact H.
    rewrite Pos2Z.inj_pow in H'. exact H'.
Qed.

Lemma iter_pos_iter {A} (f : A -> A) p x : iter_pos f p x = Pos.iter f x p.
Proof.
  revert x. induction p as [p IH|p IH|]; intros x; simpl.
  - rewrite !IH. rewrite <- !Pos.iter_swap. reflexivity.
  - rewrite !IH. reflexivity.
  - reflexivity.
Qed.

Lemma shr_1_m mrs : 0 <= shr_m mrs -> shr_m (shr_1 mrs) = shr_m mrs / 2.
Proof.
  destruct mrs as [m r s]. simpl. intros H.
  destruct m as [|[p|p|]|p]; cbn [shr_m]; try lia.
  - reflexivity.
  - apply (Z.div_unique _ _ _ 1); lia.
  - apply (Z.div_unique _ _ _ 0); lia.
  - reflexivity.
Qed.

Lemma shr_iter_m p mrs :
  0 <= shr_m mrs -> shr_m (iter_pos shr_1 p mrs) = shr_m mrs / 2 ^ Zpos p.
Proof.
  intros H. rewrite iter_pos_iter.
  pattern p, (Pos.iter shr_1 mrs p). apply Pos.iter_ind.
  - rewrite shr_1_m by exact H. reflexivity.
  - intros q a IH. rewrite shr_1_m.
    + rewrite IH, Pos2Z.inj_succ, Z.pow_succ_r by lia.
      rewrite Z.div_div by lia. f_equal. lia.
    + rewrite IH. apply Z.div_pos; lia.
Qed.

Lemma fexp_eq e : fexp prec emax e = Z.max (e - 53) (-1074).
Proof. reflexivity. Qed.

Lemma shr_record_of_loc_m m l : shr_m (shr_record_of_loc m l) = m.
Proof. destruct l as [|[]]; reflexivity. Qed.

Lemma shr_fexp_pos mx ex lx :
  0 < mx -> -1074 <= ex ->
  0 < shr_m (fst (shr_fexp prec emax mx ex lx)) /\
  -1074 <= snd (shr_fexp prec emax mx ex lx).
Proof.
  intros Hm He. unfold shr_fexp, shr. rewrite fexp_eq.
  destruct (Z.max (Zdigits2 mx + ex - 53) (-1074) - ex) as [|p|p] eqn:E;
    cbn [fst snd]; rewrite ?shr_record_of_loc_m; try (split; lia).
  rewrite shr_iter_m by (rewrite shr_record_of_loc_m; lia).
  rewrite shr_record_of_loc_m. split; [|lia].
  destruct mx as [|m|m]; try lia. cbn [Zdigits2] in E.
  pose proof (digits2_bounds m) as [Hlo _].
  apply Z.div_str_pos. split; [apply Z.pow_pos_nonneg; lia|].
  eapply Z.le_trans; [|exact Hlo].
  apply Z.pow_le_mono_r; lia.
Qed.

Lemma round_nearest_even_ge m l : m <= round_nearest_even m l.
Proof.
  unfold round_nearest_even. destruct l as [|[]]; try lia.
  destruct (Z.even m); lia.
Qed.

Definition SFnonzero (x : spec_float) : Prop :=
  match x with
  | S754_finite _ _ _ | S754_infinity _ => True
  | _ => False
  end.

Lemma binary_round_aux_nonzero s mx ex lx :
  0 < mx -> -1074 <= ex -> SFnonzero (binary_round_aux prec emax s mx ex lx).
Proof.
  intros Hm He. unfold binary_round_aux.
  pose proof (shr_fexp_pos mx ex lx Hm He) as [H1 H2].
  destruct (shr_fexp prec emax mx ex lx) as [mrs' e']. cbn [fst snd] in H1, H2.
  pose proof (round_nearest_even_ge (shr_m mrs') (loc_of_shr_record mrs')) as Hr.
  assert (0 < round_nearest_even (shr_m mrs') (loc_of_shr_record mrs')) as Hpos by lia.
  pose proof (shr_fexp_pos _ e' loc_Exact Hpos H2) as [H3 _].
  destruct (shr_fexp prec emax _ e' loc_Exact) as [mrs'' e'']. cbn [fst] in H3.
  destruct (shr_m mrs''); try lia.
  destruct (e'' <=? emax - prec); exact I.
Qed.

Lemma shl_align_exp m e e' : Z.min e e' <= snd (shl_align m e e').
Proof.
  unfold shl_align. destruct (e' - e) eqn:E; cbn [snd]; lia.
Qed.

Lemma binary_round_nonzero s m e :
  -1074 <= e -> SFnonzero (binary_round prec emax s m e).
Proof.
  intros He. unfold binary_round.
  pose proof (shl_align_exp m e (fexp prec emax (Zpos (digits2_pos m) + e))) as H.
  destruct (shl_align m e _) as [mz ez]. cbn [snd] in H.
  apply binary_round_aux_nonzero; [lia|].
  rewrite fexp_eq in H. lia.
Qed.

Lemma binary_normalize_nonzero z e :
  z <> 0 -> -1074 <= e -> SFnonzero (binary_normalize prec emax z e false).
Proof.
  intros Hz He. destruct z; [congruence| |]; apply binary_round_nonzero; exact He.
Qed.

Lemma valid_finite s m e :
  valid_binary (S754_finite s m e) = true ->
  -1074 <= e <= 971 /\ Zpos (digits2_pos m) <= 53 /\
  (-1074 < e -> Zpos (digits2_pos m) = 53).
Proof.
  unfold FloatAxioms.valid_binary, SpecFloat.valid_binary, bounded, canonical_mantissa.
  rewrite fexp_eq. intros H. apply andb_true_iff in H as [H1 H2].
  apply Z.eqb_eq in H1. apply Z.leb_le in H2.
  change (emax - prec) with 971 in H2. lia.
Qed.

Lemma iter_xO_pow m d : Zpos (Pos.iter xO m d) = Zpos m * 2 ^ Zpos d.
Proof.
  pattern d, (Pos.iter xO m d). apply Pos.iter_ind.
  - rewrite Pos2Z.inj_xO. lia.
  - intros p a IH. rewrite Pos2Z.inj_xO, IH, Pos2Z.inj_succ, Z.pow_succ_r by lia. lia.
Qed.

Lemma shl_align_fst m e ez :
  ez <= e -> Zpos (fst (shl_align m e ez)) = Zpos m * 2 ^ (e - ez).
Proof.
  intros H. unfold shl_align. destruct (ez - e) as [|p|p] eqn:E; cbn [fst]; try lia.
  - replace (e - ez) with 0 by lia. lia.
  - rewrite iter_xO_pow. f_equal. f_equal. lia.
Qed.

(** Of two valid mantissas, the one with the larger exponent is the larger number. *)
Lemma valid_exp_lt s m e s' m' e' :
  valid_binary (S754_finite s m e) = true ->
  valid_binary (S754_finite s' m' e') = true ->
  e < e' -> Zpos m < Zpos m' * 2 ^ (e' - e).
Proof.
  intros V V' Hlt.
  apply valid_finite in V as (He & Hd & _).
  apply valid_finite in V' as (He' & _ & Hd').
  pose proof (digits2_bounds m) as [_ Hm].
  pose proof (digits2_bounds m') as [Hm' _].
  rewrite Hd' in Hm' by lia. change (2 ^ (53 - 1)) with 4503599627370496 in Hm'.
  assert (Zpos m < 2 ^ 53) as Hm53.
  { eapply Z.lt_le_trans; [exact Hm|]. apply Z.pow_le_mono_r; lia. }
  change (2 ^ 53) with 9007199254740992 in Hm53.
  assert (2 ^ 1 <= 2 ^ (e' - e)) as Hp by (apply Z.pow_le_mono_r; lia).
  change (2 ^ 1) with 2 in Hp. nia.
Qed.

Lemma SFsub_lt_nonzero x y :
  valid_binary x = true -> valid_binary y = true ->
  SFcompare x y = Some Lt -> SFnonzero (SF64sub y x).
Proof.
  intros Vx Vy Hlt.
  destruct x as [[]|[]| |sx mx ex], y as [[]|[]| |sy my ey];
    try discriminate; try exact I.
  unfold SF64sub, SFsub.
  pose proof (valid_finite _ _ _ Vx) as ((Hex & _) & _).
  pose proof (valid_finite _ _ _ Vy) as ((Hey & _) & _).
  apply binary_normalize_nonzero; [|lia].
  rewrite !shl_align_fst by lia.
  assert (0 < 2 ^ (ey - Z.min ey ex)) as Py by (apply Z.pow_pos_nonneg; lia).
  assert (0 < 2 ^ (ex - Z.min ey ex)) as Px by (apply Z.pow_pos_nonneg; lia).
  destruct sx, sy; cbn [cond_Zopp]; simpl in Hlt; try discriminate; try nia.
  - (* both negative *)
    destruct (Z.compare_spec ex ey) as [->|H|H]; try discriminate.
    + rewrite Z.min_id, Z.sub_diag in *. 
      change (Pos.compare_cont Eq mx my) with (Pos.compare mx my) in Hlt.
      destruct (Pos.compare_spec mx my); try discriminate. lia.
    + pose proof (valid_exp_lt _ _ _ _ _ _ Vy Vx H) as L.
      rewrite Z.min_l, Z.sub_diag in * by lia. lia.
  - (* both positive *)
    destruct (Z.compare_spec ex ey) as [->|H|H]; try discriminate.
    + rewrite Z.min_id, Z.sub_diag in *. 
      change (Pos.compare_cont Eq mx my) with (Pos.compare mx my) in Hlt.
      destruct (Pos.compare_spec mx my); try discriminate. lia.
    + pose proof (valid_exp_lt _ _ _ _ _ _ Vx Vy H) as L.
      rewrite Z.min_r, Z.sub_diag in * by lia. lia.
Qed.

(** The difference of two distinct numbers is not zero (there is no
    underflow to zero in binary64 subtraction). *)
Lemma sub_lt_nonzero x y : (x <? y)%float = true -> (y - x =? 0)%float = false.
Proof.
  rewrite ltb_spec, eqb_spec, sub_spec. unfold SFltb, SFeqb. intros H.
  destruct (SFcompare (Prim2SF x) (Prim2SF y)) as [[]|] eqn:E; try discriminate.
  pose proof (SFsub_lt_nonzero _ _ (Prim2SF_valid x) (Prim2SF_valid y) E) as N.
  change (Prim2SF 0) with (S754_zero false).
  destruct (SF64sub (Prim2SF y) (Prim2SF x)) as [| [] | |[] m e]; simpl in *;
    try contradiction; reflexivity.
Qed.

(** ** Mantissas of 53 digits *)

(** The number of digits, from bounds. *)
Lemma digits2_unique m d :
  2 ^ (d - 1) <= Zpos m < 2 ^ d -> 0 < d -> Zpos (digits2_pos m) = d.
Proof.
  intros [Hlo Hhi] Hd. pose proof (digits2_bounds m) as [Blo Bhi].
  destruct (Z.lt_trichotomy (Zpos (digits2_pos m)) d) as [L|[E|G]]; [|exact E|].
  - assert (2 ^ Zpos (digits2_pos m) <= 2 ^ (d - 1)) by (apply Z.pow_le_mono_r; lia). lia.
  - assert (2 ^ d <= 2 ^ (Zpos (digits2_pos m) - 1)) by (apply Z.pow_le_mono_r; lia). lia.
Qed.

Lemma digits53 m : 2 ^ 52 <= Zpos m < 2 ^ 53 -> Zpos (digits2_pos m) = 53.
Proof. intros H. apply digits2_unique; [exact H | lia]. Qed.

Lemma digits54 m : 2 ^ 53 <= Zpos m < 2 ^ 54 -> Zpos (digits2_pos m) = 54.
Proof. intros H. apply digits2_unique; [exact H | lia]. Qed.

Lemma loc_of_record_of_loc m l : loc_of_shr_record (shr_record_of_loc m l) = l.
Proof. destruct l as [|[]]; reflexivity. Qed.

(** The last step of rounding: a mantissa of 53 digits, or [2^53]. *)
Lemma round_tail s m e :
  2 ^ 52 <= m <= 2 ^ 53 -> -1074 <= e <= 970 ->
  exists mres eres,
    (let '(mrs, e') := shr_fexp prec emax m e loc_Exact in
     match shr_m mrs with
     | 0 => S754_zero s
     | Zpos m' => if e' <=? emax - prec then S754_finite s m' e' else S754_infinity s
     | Zneg _ => S754_nan
     end) = S754_finite s mres eres /\
    e <= eres /\ Zpos mres * 2 ^ (eres - e) = m /\ (m < 2 ^ 53 -> eres = e).
Proof.
  intros Hm He. destruct m as [|p|p]; try lia.
  destruct (Z.eq_dec (Zpos p) (2 ^ 53)) as [E|N].
  - (* carry *)
    exists (Z.to_pos (2 ^ 52)), (e + 1).
    unfold shr_fexp. rewrite fexp_eq. cbn [Zdigits2].
    rewrite (digits54 p) by lia.
    replace (Z.max (54 + e - 53) (-1074) - e) with 1 by lia.
    cbn [shr iter_pos shr_record_of_loc]. rewrite E. cbn [shr_1 shr_m].
    change (emax - prec) with 971.
    destruct (e + 1 <=? 971) eqn:L; [|apply Z.leb_gt in L; lia].
    split; [reflexivity|]. split; [lia|]. split; [|lia].
    replace (e + 1 - e) with 1 by lia. reflexivity.
  - exists p, e.
    unfold shr_fexp. rewrite fexp_eq. cbn [Zdigits2].
    rewrite (digits53 p) by lia.
    replace (Z.max (53 + e - 53) (-1074) - e) with 0 by lia.
    cbn [shr shr_record_of_loc shr_m].
    change (emax - prec) with 971.
    destruct (e <=? 971) eqn:L; [|apply Z.leb_gt in L; lia].
    split; [reflexivity|]. split; [lia|]. split; [|reflexivity].
    rewrite Z.sub_diag. lia.
Qed.

Lemma rne_range m l : m <= round_nearest_even m l <= m + 1.
Proof.
  unfold round_nearest_even. destruct l as [|[]]; try lia.
  destruct (Z.even m); lia.
Qed.

Lemma round_aux_53 s q l E :
  2 ^ 52 <= q < 2 ^ 53 -> -1074 <= E <= 970 ->
  exists mres eres,
    binary_round_aux prec emax s q E l = S754_finite s mres eres /\
    E <= eres /\ Zpos mres * 2 ^ (eres - E) = round_nearest_even q l /\
    (round_nearest_even q l < 2 ^ 53 -> eres = E).
Proof.
  intros Hq HE. unfold binary_round_aux.
  assert (shr_fexp prec emax q E l = (shr_record_of_loc q l, E)) as ->.
  { unfold shr_fexp. rewrite fexp_eq. destruct q as [|p|p]; try lia.
    cbn [Zdigits2]. rewrite (digits53 p) by lia.
    replace (Z.max (53 + E - 53) (-1074) - E) with 0 by lia. reflexivity. }
  rewrite shr_record_of_loc_m, loc_of_record_of_loc.
  pose proof (rne_range q l) as R.
  apply round_tail; lia.
Qed.

Lemma round_aux_54 s q l E :
  2 ^ 53 <= q < 2 ^ 54 -> -1074 <= E <= 969 ->
  exists mres eres,
    binary_round_aux prec emax s q E l = S754_finite s mres eres /\
    E + 1 <= eres /\
    Zpos mres * 2 ^ (eres - (E + 1)) =
      round_nearest_even (q / 2) (loc_of_shr_record (shr_1 (shr_record_of_loc q l))) /\
    (round_nearest_even (q / 2) (loc_of_shr_record (shr_1 (shr_record_of_loc q l))) < 2 ^ 53 ->
     eres = E + 1).
Proof.
  intros Hq HE. unfold binary_round_aux.
  assert (shr_fexp prec emax q E l = (shr_1 (shr_record_of_loc q l), E + 1)) as ->.
  { unfold shr_fexp. rewrite fexp_eq. destruct q as [|p|p]; try lia.
    cbn [Zdigits2]. rewrite (digits54 p) by lia.
    replace (Z.max (54 + E - 53) (-1074) - E) with 1 by lia. reflexivity. }
  rewrite shr_1_m by (rewrite shr_record_of_loc_m; lia).
  rewrite shr_record_of_loc_m.
  pose proof (rne_range (q / 2) (loc_of_shr_record (shr_1 (shr_record_of_loc q l)))) as R.
  assert (2 ^ 52 <= q / 2 < 2 ^ 53).
  { split.
    - apply Z.div_le_lower_bound; lia.
    - apply Z.div_lt_upper_bound; lia. }
  apply round_tail; lia.
Qed.

Lemma shl_align_snd m e ez : ez <= e -> snd (shl_align m e ez) = ez.
Proof.
  intros H. unfold shl_align. destruct (ez - e) as [|p|p] eqn:E; cbn [snd]; lia.
Qed.

(** An integer below [2^53] converts exactly. *)
Lemma binary_normalize_exact n :
  0 < n < 2 ^ 53 ->
  exists m e,
    binary_normalize prec emax n 0 false = S754_finite false m e /\
    2 ^ 52 <= Zpos m < 2 ^ 53 /\ -52 <= e <= 0 /\ Zpos m = n * 2 ^ (- e).
Proof.
  intros Hn. destruct n as [|p|p]; try lia.
  unfold binary_normalize, binary_round. rewrite fexp_eq.
  pose proof (digits2_bounds p) as [Blo Bhi].
  set (d := Zpos (digits2_pos p)) in *.
  assert (1 <= d <= 53) as Hd.
  { split; [unfold d; lia|].
    destruct (Z_le_gt_dec d 53) as [L|G]; [exact L|].
    assert (2 ^ 53 <= 2 ^ (d - 1)) by (apply Z.pow_le_mono_r; lia). lia. }
  replace (Z.max (d + 0 - 53) (-1074)) with (d - 53) by lia.
  pose proof (shl_align_fst p 0 (d - 53) ltac:(lia)) as F.
  pose proof (shl_align_snd p 0 (d - 53) ltac:(lia)) as S.
  destruct (shl_align p 0 (d - 53)) as [mz ez]. cbn [fst snd] in F, S. subst ez.
  replace (0 - (d - 53)) with (53 - d) in F by lia.
  assert (2 ^ 52 <= Zpos mz < 2 ^ 53) as Hmz.
  { rewrite F. split.
    - replace 52 with ((d - 1) + (53 - d)) by lia. rewrite Z.pow_add_r by lia.
      apply Z.mul_le_mono_nonneg_r; [apply Z.pow_nonneg; lia | exact Blo].
    - replace 53 with (d + (53 - d)) at 2 by lia. rewrite Z.pow_add_r by lia.
      apply Z.mul_lt_mono_pos_r; [apply Z.pow_pos_nonneg; lia | exact Bhi]. }
  destruct (round_aux_53 false (Zpos mz) loc_Exact (d - 53) Hmz ltac:(lia))
    as (mres & eres & -> & _ & V & Eq).
  cbn [round_nearest_even] in V, Eq. specialize (Eq ltac:(lia)). subst eres.
  rewrite Z.sub_diag, Z.mul_1_r in V.
  exists mres, (d - 53). rewrite V.
  split; [reflexivity|]. split; [exact Hmz|]. split; [lia|].
  rewrite F. f_equal. f_equal. lia.
Qed.

Lemma float_of_Z_exact n :
  0 < n < 2 ^ 53 ->
  exists m e,
    Prim2SF (float_of_Z n) = S754_finite false m e /\
    2 ^ 52 <= Zpos m < 2 ^ 53 /\ -52 <= e <= 0 /\ Zpos m = n * 2 ^ (- e).
Proof.
  intros Hn. destruct (binary_normalize_exact n Hn) as (m & e & E & Hm & He & V).
  exists m, e. split; [|auto]. unfold float_of_Z. rewrite E.
  apply Prim2SF_SF2Prim.
  unfold FloatAxioms.valid_binary, SpecFloat.valid_binary, bounded, canonical_mantissa.
  rewrite fexp_eq, (digits53 m Hm). change (emax - prec) with 971.
  apply andb_true_iff. split; [apply Z.eqb_eq | apply Z.leb_le]; lia.
Qed.

(** What a location says about the remainder [r] of a division by [D]. *)
Definition loc_ok (l : location) (r D : Z) : Prop :=
  match l with
  | loc_Exact => r = 0
  | loc_Inexact Lt => 0 < r /\ 2 * r < D
  | loc_Inexact Eq => 2 * r = D
  | loc_Inexact Gt => D < 2 * r
  end.

Lemma new_location_ok D r : 0 <= r < D -> loc_ok (new_location D r) r D.
Proof.
  intros Hr. unfold new_location, new_location_even, new_location_odd.
  destruct (Z.even D) eqn:Ev.
  - destruct (Z.eqb_spec r 0) as [->|N]; [reflexivity|].
    destruct (Z.compare_spec (2 * r) D); unfold loc_ok; lia.
  - assert (Z.odd D = true) as Od by (rewrite <- Z.negb_even, Ev; reflexivity).
    apply Z.odd_spec in Od as [k Hk].
    destruct (Z.eqb_spec r 0) as [->|N]; [reflexivity|].
    destruct (Z.compare_spec (2 * r + 1) D); unfold loc_ok; lia.
Qed.

(** Rounding to nearest is within half a unit. *)
Lemma rne_error q l r D :
  0 <= r < D -> loc_ok l r D ->
  - D <= 2 * (round_nearest_even q l * D - (q * D + r)) <= D.
Proof.
  intros Hr Hl. unfold round_nearest_even.
  destruct l as [|[]]; unfold loc_ok in Hl; try lia.
  destruct (Z.even q); lia.
Qed.

(** The same after one more binary digit has been shifted out. *)
Lemma rne_error_shift q l r D :
  0 < q -> 0 <= r < D -> loc_ok l r D ->
  - (2 * D) <=
    2 * (2 * round_nearest_even (q / 2) (loc_of_shr_record (shr_1 (shr_record_of_loc q l))) * D
         - (q * D + r)) <= 2 * D.
Proof.
  intros Hq Hr Hl. destruct q as [|p|p]; try lia.
  destruct p as [p|p|].
  - (* odd *)
    replace (Zpos p~1 / 2) with (Zpos p) by (apply (Z.div_unique _ _ _ 1); lia).
    destruct l as [|[]]; unfold loc_ok in Hl;
      cbn [shr_record_of_loc shr_1 loc_of_shr_record round_nearest_even orb];
      rewrite Pos2Z.inj_xI;
      try (destruct (Z.even (Zpos p))); lia.
  - replace (Zpos p~0 / 2) with (Zpos p) by (apply (Z.div_unique _ _ _ 0); lia).
    destruct l as [|[]]; unfold loc_ok in Hl;
      cbn [shr_record_of_loc shr_1 loc_of_shr_record round_nearest_even orb];
      rewrite Pos2Z.inj_xO;
      try (destruct (Z.even (Zpos p))); lia.
  - change (1 / 2) with 0.
    destruct l as [|[]]; unfold loc_ok in Hl;
      cbn [shr_record_of_loc shr_1 loc_of_shr_record round_nearest_even orb Z.even]; lia.
Qed.

Lemma div_eucl_spec a b :
  0 < b -> exists q r, Z.div_eucl a b = (q, r) /\ a = b * q + r /\ 0 <= r < b /\ q = a / b.
Proof.
  intros Hb. pose proof (Z_div_mod a b ltac:(lia)) as H.
  unfold Z.div. destruct (Z.div_eucl a b) as [q r].
  exists q, r. repeat split; lia.
Qed.

(** The quotient of two positive floats with full mantissas, in units of
    [2 ^ (e1 - e2 - 53)]: the result is within half a unit in the last place
    of [m1 * 2^53 / m2]. *)
Lemma SFdiv_53 m1 e1 m2 e2 :
  2 ^ 52 <= Zpos m1 < 2 ^ 53 -> 2 ^ 52 <= Zpos m2 < 2 ^ 53 ->
  -1074 <= e1 - e2 - 53 <= 969 ->
  exists mres eres,
    SF64div (S754_finite false m1 e1) (S754_finite false m2 e2) =
      S754_finite false mres eres /\
    e1 - e2 - 53 <= eres /\
    (Zpos m1 < Zpos m2 ->
     - Zpos m2 <=
       2 * (Zpos mres * 2 ^ (eres - (e1 - e2 - 53)) * Zpos m2 - Zpos m1 * 2 ^ 53)
     <= Zpos m2) /\
    (- (2 * Zpos m2) <=
       2 * (Zpos mres * 2 ^ (eres - (e1 - e2 - 53)) * Zpos m2 - Zpos m1 * 2 ^ 53)
     <= 2 * Zpos m2) /\
    (m1 = m2 -> Zpos mres * 2 ^ (eres - (e1 - e2 - 53)) = 2 ^ 53).
Proof.
  intros H1 H2 HE. set (E := e1 - e2 - 53) in *.
  unfold SF64div, SFdiv, SFdiv_core_binary. cbn [Zdigits2 xorb].
  rewrite (digits53 m1 H1), (digits53 m2 H2), fexp_eq.
  replace (Z.min (Z.max (53 + e1 - (53 + e2) - 53) (-1074)) (e1 - e2)) with E by lia.
  replace (e1 - e2 - E) with 53 by lia.
  cbv iota beta. rewrite Z.shiftl_mul_pow2 by lia.
  destruct (div_eucl_spec (Zpos m1 * 2 ^ 53) (Zpos m2) ltac:(lia))
    as (q & r & -> & Hqr & Hr & Hq).
  pose proof (new_location_ok (Zpos m2) r Hr) as Hloc.
  assert (2 ^ 52 <= q < 2 ^ 54) as Bq.
  { rewrite Hq. split.
    - apply Z.div_le_lower_bound; lia.
    - apply Z.div_lt_upper_bound; lia. }
  destruct (Z_lt_ge_dec q (2 ^ 53)) as [Lq|Gq].
  - (* 53 digits *)
    destruct (round_aux_53 false q (new_location (Zpos m2) r) E ltac:(lia) ltac:(lia))
      as (mres & eres & -> & Ee & V & _).
    exists mres, eres. split; [reflexivity|]. split; [exact Ee|].
    pose proof (rne_error q _ r (Zpos m2) Hr Hloc) as Err.
    rewrite V. repeat split; try lia.
    intros ->. nia.
  - (* 54 digits *)
    destruct (round_aux_54 false q (new_location (Zpos m2) r) E ltac:(lia) ltac:(lia))
      as (mres & eres & -> & Ee & V & _).
    exists mres, eres. split; [reflexivity|]. split; [lia|].
    pose proof (rne_error_shift q _ r (Zpos m2) ltac:(lia) Hr Hloc) as Err.
    replace (eres - E) with (1 + (eres - (E + 1))) by lia.
    rewrite Z.pow_add_r by lia. change (2 ^ 1) with 2.
    replace (Zpos mres * (2 * 2 ^ (eres - (E + 1)))) with
      (2 * (Zpos mres * 2 ^ (eres - (E + 1)))) by lia.
    rewrite V. split; [|split].
    + intros L. exfalso. nia.
    + lia.
    + intros ->. assert (q = 2 ^ 53) as -> by nia. assert (r = 0) as -> by lia.
      assert (new_location (Zpos m2) 0 = loc_Exact) as ->.
      { unfold new_location, new_location_even, new_location_odd.
        destruct (Z.even (Zpos m2)); reflexivity. }
      reflexivity.
Qed.

(** The order of two positive valid floats is the order of their values. *)
Lemma SFcompare_pos_lt m1 e1 m2 e2 c :
  valid_binary (S754_finite false m1 e1) = true ->
  valid_binary (S754_finite false m2 e2) = true ->
  0 <= e1 + c -> 0 <= e2 + c ->
  Zpos m1 * 2 ^ (e1 + c) < Zpos m2 * 2 ^ (e2 + c) ->
  SFcompare (S754_finite false m1 e1) (S754_finite false m2 e2) = Some Lt.
Proof.
  intros V1 V2 C1 C2 H. cbn [SFcompare]. f_equal.
  change (Pos.compare_cont Eq m1 m2) with (Pos.compare m1 m2).
  destruct (Z.compare_spec e1 e2) as [->|L|G].
  - apply Pos.compare_lt_iff.
    assert (0 < 2 ^ (e2 + c)) as P by (apply Z.pow_pos_nonneg; lia).
    apply (Z.mul_lt_mono_pos_r _ _ _ P) in H. exact H.
  - reflexivity.
  - exfalso. pose proof (valid_exp_lt _ _ _ _ _ _ V2 V1 G) as X.
    replace (e1 + c) with ((e1 - e2) + (e2 + c)) in H by lia.
    rewrite Z.pow_add_r in H by lia.
    assert (0 < 2 ^ (e2 + c)) as P by (apply Z.pow_pos_nonneg; lia).
    apply (Z.mul_lt_mono_pos_r _ _ _ P) in X. lia.
Qed.

Lemma mul_le_bound x y u v : 0 <= x <= u -> y <= v -> 0 <= v -> x * y <= u * v.
Proof.
  intros Hx Hy Hv. destruct (Z_le_gt_dec 0 y) as [P|N].
  - apply Z.mul_le_mono_nonneg; lia.
  - assert (x * y <= 0) by (apply Z.mul_nonneg_nonpos; lia).
    assert (0 <= u * v) by (apply Z.mul_nonneg_nonneg; lia). lia.
Qed.

(** The arithmetic behind the strict growth of [i / M] after rounding
    ([T] stands for [2^52]).  An error of half a unit in the last place,
    scaled to the binade of the divisor. *)
Lemma scaled_error T a c m mM V :
  0 < a -> 0 < c -> 0 < mM ->
  (a = c -> m <= mM) ->
  (a = c \/ 2 * a <= c) ->
  (m < mM -> 2 * (V * mM - m * (2 * T)) <= mM) ->
  2 * (V * mM - m * (2 * T)) <= 2 * mM ->
  (m = mM -> V = 2 * T) ->
  2 * (a * (V * mM - m * (2 * T))) <= c * mM.
Proof.
  intros Pa Pc PM Hle Hac I1 I2 I3.
  assert (0 <= c * mM) as Pcm by (apply Z.mul_nonneg_nonneg; lia).
  destruct Hac as [E|Hac].
  - specialize (Hle E). subst c.
    destruct (Z.eq_dec m mM) as [Emm|N].
    + rewrite (I3 Emm), Emm.
      replace (2 * T * mM - mM * (2 * T)) with 0 by ring. lia.
    + specialize (I1 ltac:(lia)).
      replace (2 * (a * (V * mM - m * (2 * T)))) with (a * (2 * (V * mM - m * (2 * T)))) by ring.
      apply mul_le_bound; lia.
  - replace (2 * (a * (V * mM - m * (2 * T)))) with ((2 * a) * (V * mM - m * (2 * T))) by ring.
    apply mul_le_bound; lia.
Qed.

Lemma scaled_error_low T a c m mM V :
  0 < a -> 0 < c -> 0 < mM ->
  (a = c -> m <= mM) ->
  (a = c \/ 2 * a <= c) ->
  (m < mM -> - mM <= 2 * (V * mM - m * (2 * T))) ->
  - (2 * mM) <= 2 * (V * mM - m * (2 * T)) ->
  (m = mM -> V = 2 * T) ->
  - (c * mM) <= 2 * (a * (V * mM - m * (2 * T))).
Proof.
  intros Pa Pc PM Hle Hac I1 I2 I3.
  assert (0 <= c * mM) as Pcm by (apply Z.mul_nonneg_nonneg; lia).
  assert (2 * (a * (m * (2 * T) - V * mM)) <= c * mM) as X.
  { destruct Hac as [E|Hac].
    - specialize (Hle E). subst c.
      destruct (Z.eq_dec m mM) as [Emm|N].
      + rewrite (I3 Emm), Emm.
        replace (mM * (2 * T) - 2 * T * mM) with 0 by ring. lia.
      + specialize (I1 ltac:(lia)).
        replace (2 * (a * (m * (2 * T) - V * mM)))
          with (a * (2 * (m * (2 * T) - V * mM))) by ring.
        apply mul_le_bound; lia.
    - replace (2 * (a * (m * (2 * T) - V * mM)))
        with ((2 * a) * (m * (2 * T) - V * mM)) by ring.
      apply mul_le_bound; lia. }
  replace (a * (m * (2 * T) - V * mM)) with (- (a * (V * mM - m * (2 * T)))) in X by ring.
  lia.
Qed.

Lemma quotients_apart T i j M a A b B c C mi mj mM Vi Vj :
  0 < T -> 0 < i -> i < j -> j <= M -> M < 2 * T ->
  0 < a -> 0 < b -> 0 < c ->
  a * A = T -> b * B = T -> c * C = T ->
  mi = i * A -> mj = j * B -> mM = M * C ->
  (a = c \/ 2 * a <= c) -> (b = c \/ 2 * b <= c) ->
  (mi < mM -> 2 * (Vi * mM - mi * (2 * T)) <= mM) ->
  2 * (Vi * mM - mi * (2 * T)) <= 2 * mM ->
  (mi = mM -> Vi = 2 * T) ->
  (mj < mM -> - mM <= 2 * (Vj * mM - mj * (2 * T))) ->
  - (2 * mM) <= 2 * (Vj * mM - mj * (2 * T)) ->
  (mj = mM -> Vj = 2 * T) ->
  Vi * a < Vj * b.
Proof.
  intros PT Hi Hij HjM HM Ha Hb Hc HaA HbB HcC Emi Emj EmM Hac Hbc I1 I2 I3 J1 J2 J3.
  assert (0 < C) as PC.
  { destruct (Z_le_gt_dec C 0) as [N|P]; [|lia].
    assert (c * C <= 0) by (apply Z.mul_nonneg_nonpos; lia). lia. }
  assert (0 < mM) as PM by (subst mM; apply Z.mul_pos_pos; lia).
  assert (forall x A' a', a' = c -> a' * A' = T -> x <= M -> x * A' <= mM) as Same.
  { intros x A' a' E HA Hx. subst a'.
    assert (A' = C) as -> by (apply (Z.mul_reg_l _ _ c); lia).
    subst mM. apply Z.mul_le_mono_nonneg_r; lia. }
  assert (2 * (a * (Vi * mM - mi * (2 * T))) <= c * mM) as EI.
  { apply scaled_error; auto.
    intros E. rewrite Emi. apply (Same i A a); auto; lia. }
  assert (- (c * mM) <= 2 * (b * (Vj * mM - mj * (2 * T)))) as EJ.
  { apply scaled_error_low; auto.
    intros E. rewrite Emj. apply (Same j B b); auto; lia. }
  assert (a * (mi * (2 * T)) = 2 * (i * (T * T))) as Xi.
  { rewrite Emi. rewrite <- HaA at 2. ring. }
  assert (b * (mj * (2 * T)) = 2 * (j * (T * T))) as Xj.
  { rewrite Emj. rewrite <- HbB at 2. ring. }
  assert (c * mM = M * T) as Xc.
  { rewrite EmM. rewrite <- HcC. ring. }
  assert (M * T < 2 * (T * T)) as XM.
  { replace (2 * (T * T)) with ((2 * T) * T) by ring.
    apply Z.mul_lt_mono_pos_r; lia. }
  assert (i * (T * T) + T * T <= j * (T * T)) as Xij.
  { replace (i * (T * T) + T * T) with ((i + 1) * (T * T)) by ring.
    apply Z.mul_le_mono_nonneg_r; [apply Z.mul_nonneg_nonneg; lia | lia]. }
  apply (Z.mul_lt_mono_pos_r mM); [exact PM|].
  replace (a * (Vi * mM - mi * (2 * T))) with (Vi * a * mM - a * (mi * (2 * T))) in EI by ring.
  replace (b * (Vj * mM - mj * (2 * T))) with (Vj * b * mM - b * (mj * (2 * T))) in EJ by ring.
  lia.
Qed.

Lemma SFdiv_self m e :
  2 ^ 52 <= Zpos m < 2 ^ 53 ->
  SF64div (S754_finite false m e) (S754_finite false m e) = Prim2SF 1.
Proof.
  intros Hm. unfold SF64div, SFdiv, SFdiv_core_binary. cbn [Zdigits2 xorb].
  rewrite (digits53 m Hm), fexp_eq.
  replace (Z.min (Z.max (53 + e - (53 + e) - 53) (-1074)) (e - e)) with (-53) by lia.
  replace (e - e - -53) with 53 by lia.
  cbv iota beta. rewrite Z.shiftl_mul_pow2 by lia.
  destruct (div_eucl_spec (Zpos m * 2 ^ 53) (Zpos m) ltac:(lia))
    as (q & r & -> & Hqr & Hr & Hq).
  rewrite Z.mul_comm, Z.div_mul in Hq by lia. subst q.
  assert (r = 0) as -> by lia.
  assert (new_location (Zpos m) 0 = loc_Exact) as ->.
  { unfold new_location, new_location_even, new_location_odd.
    destruct (Z.even (Zpos m)); reflexivity. }
  reflexivity.
Qed.

Lemma exact_exp_mono n1 n2 m1 e1 m2 e2 :
  0 < n1 <= n2 ->
  2 ^ 52 <= m1 -> m2 < 2 ^ 53 ->
  e1 <= 0 -> e2 <= 0 ->
  m1 = n1 * 2 ^ (- e1) -> m2 = n2 * 2 ^ (- e2) ->
  e1 <= e2.
Proof.
  intros Hn H1 H2 He1 He2 E1 E2.
  destruct (Z_le_gt_dec e1 e2) as [L|G]; [exact L|exfalso].
  assert (2 ^ (- e2) = 2 ^ (- e1) * 2 ^ (e1 - e2)) as P.
  { rewrite <- Z.pow_add_r by lia. f_equal. lia. }
  assert (2 ^ 1 <= 2 ^ (e1 - e2)) as Q by (apply Z.pow_le_mono_r; lia).
  change (2 ^ 1) with 2 in Q.
  assert (0 < 2 ^ (- e1)) as R by (apply Z.pow_pos_nonneg; lia).
  assert (2 ^ (- e1) * 2 <= 2 ^ (- e2)) as S.
  { rewrite P. apply Z.mul_le_mono_nonneg_l; lia. }
  assert (n1 * (2 ^ (- e1) * 2) <= n2 * 2 ^ (- e2)) as U.
  { apply Z.mul_le_mono_nonneg; lia. }
  replace (n1 * (2 ^ (- e1) * 2)) with (2 * (n1 * 2 ^ (- e1))) in U by ring.
  lia.
Qed.

(** ** No overflow *)

(** What [shr_fexp] returns: the exponent, and the mantissa shifted to it. *)
Lemma shr_fexp_spec m e l :
  0 <= m ->
  snd (shr_fexp prec emax m e l) = Z.max e (fexp prec emax (Zdigits2 m + e)) /\
  shr_m (fst (shr_fexp prec emax m e l)) =
    m / 2 ^ (Z.max e (fexp prec emax (Zdigits2 m + e)) - e).
Proof.
  intros Hm. unfold shr_fexp, shr.
  destruct (fexp prec emax (Zdigits2 m + e) - e) as [|p|p] eqn:E; cbn [fst snd].
  - rewrite Z.max_l by lia. rewrite Z.sub_diag, Z.div_1_r, shr_record_of_loc_m. auto.
  - rewrite Z.max_r by lia. split; [lia|].
    rewrite shr_iter_m by (rewrite shr_record_of_loc_m; lia).
    rewrite shr_record_of_loc_m, E. reflexivity.
  - rewrite Z.max_l by lia. rewrite Z.sub_diag, Z.div_1_r, shr_record_of_loc_m. auto.
Qed.

Lemma Zdigits2_le m k : 0 < m -> 0 <= k -> m <= 2 ^ k -> Zdigits2 m <= k + 1.
Proof.
  intros Hm Hk H. destruct m as [|p|p]; try lia. cbn [Zdigits2].
  pose proof (digits2_bounds p) as [Hlo _].
  destruct (Z_le_gt_dec (Zpos (digits2_pos p)) (k + 1)) as [L|G]; [exact L|].
  assert (2 ^ (k + 1) <= 2 ^ (Zpos (digits2_pos p) - 1)) by (apply Z.pow_le_mono_r; lia).
  rewrite Z.pow_add_r in H0 by lia. change (2 ^ 1) with 2 in H0.
  assert (0 < 2 ^ k) by (apply Z.pow_pos_nonneg; lia). lia.
Qed.

Lemma Zdigits2_lt m k : 0 < m -> 0 <= k -> m < 2 ^ k -> Zdigits2 m <= k.
Proof.
  intros Hm Hk H. destruct m as [|p|p]; try lia. cbn [Zdigits2].
  pose proof (digits2_bounds p) as [Hlo _].
  destruct (Z_le_gt_dec (Zpos (digits2_pos p)) k) as [L|G]; [exact L|].
  assert (2 ^ k <= 2 ^ (Zpos (digits2_pos p) - 1)) by (apply Z.pow_le_mono_r; lia).
  lia.
Qed.

Definition SFfinite (s : bool) (x : spec_float) : Prop :=
  match x with
  | S754_zero s' | S754_finite s' _ _ => s' = s
  | _ => False
  end.

(** Rounding a number below [2^1023] does not overflow. *)
Lemma binary_round_aux_finite s mx ex lx :
  0 < mx -> ex <= 971 -> Zdigits2 mx + ex <= 1023 ->
  SFfinite s (binary_round_aux prec emax s mx ex lx).
Proof.
  intros Hm He Hd. unfold binary_round_aux.
  pose proof (shr_fexp_spec mx ex lx ltac:(lia)) as [E1 M1].
  destruct (shr_fexp prec emax mx ex lx) as [mrs' e']. cbn [fst snd] in E1, M1.
  set (m1 := shr_m mrs') in *.
  set (m2 := round_nearest_even m1 (loc_of_shr_record mrs')).
  pose proof (rne_range m1 (loc_of_shr_record mrs')) as R. fold m2 in R.
  rewrite fexp_eq in E1, M1.
  assert (0 <= e' - ex) as Hs by lia.
  assert (0 < 2 ^ (e' - ex)) as P by (apply Z.pow_pos_nonneg; lia).
  assert (0 <= m1) as Hm1 by (rewrite M1, <- E1; apply Z.div_pos; lia).
  assert (e' <= 971) as He' by lia.
  (* the rounded mantissa times its unit is at most 2 ^ (digits + ex) *)
  assert (m2 <= 2 ^ (Z.max 0 (Zdigits2 mx + ex - e'))) as B2.
  { destruct mx as [|p|p]; try lia. cbn [Zdigits2] in *.
    pose proof (digits2_bounds p) as [_ Hhi].
    set (d := Zpos (digits2_pos p)) in *.
    destruct (Z_le_gt_dec (e' - ex) d) as [L|G].
    - rewrite Z.max_r by lia.
      assert (m1 < 2 ^ (d + ex - e')).
      { rewrite M1, <- E1. apply Z.div_lt_upper_bound; [lia|].
        rewrite <- Z.pow_add_r by lia. replace (e' - ex + (d + ex - e')) with d by lia.
        exact Hhi. }
      lia.
    - rewrite Z.max_l by lia. change (2 ^ 0) with 1.
      assert (m1 = 0).
      { rewrite M1, <- E1. apply Z.div_small. split; [lia|].
        eapply Z.lt_le_trans; [exact Hhi|]. apply Z.pow_le_mono_r; lia. }
      lia. }
  pose proof (shr_fexp_spec m2 e' loc_Exact ltac:(lia)) as [E2 M2].
  destruct (shr_fexp prec emax m2 e' loc_Exact) as [mrs'' e'']. cbn [fst snd] in E2, M2.
  rewrite fexp_eq in E2, M2.
  assert (e'' <= 971) as He''.
  { destruct (Z.eq_dec m2 0) as [Z0|NZ].
    - rewrite Z0 in E2. cbn [Zdigits2] in E2. clear - E2 He'. lia.
    - pose proof (Zdigits2_le m2 (Z.max 0 (Zdigits2 mx + ex - e')) ltac:(lia) ltac:(lia) B2) as D2.
      clear - D2 E2 He' Hd. lia. }
  assert (0 <= shr_m mrs'') as Hm''.
  { rewrite M2. apply Z.div_pos; [lia|]. apply Z.pow_pos_nonneg; lia. }
  destruct (shr_m mrs'') as [|p|p]; try lia; cbn [SFfinite]; [reflexivity|].
  change (emax - prec) with 971.
  destruct (e'' <=? 971) eqn:L; [reflexivity|]. apply Z.leb_gt in L. lia.
Qed.



(** The product with a number below one half does not overflow. *)
Lemma SFmul_finite sx mx ex sc mc ec :
  valid_binary (S754_finite sx mx ex) = true ->
  Zpos (digits2_pos mc) + ec <= -1 -> ec <= 0 ->
  SFfinite (xorb sx sc) (SFmul prec emax (S754_finite sx mx ex) (S754_finite sc mc ec)).
Proof.
  intros V Hc Hec. apply valid_finite in V as (He & Hd & _).
  cbn [SFmul]. apply binary_round_aux_finite; [lia | lia |].
  pose proof (digits2_bounds mx) as [_ Hx].
  pose proof (digits2_bounds mc) as [_ Hy].
  assert (Zpos (mx * mc) < 2 ^ (Zpos (digits2_pos mx) + Zpos (digits2_pos mc))) as B.
  { rewrite Pos2Z.inj_mul, Z.pow_add_r by lia.
    apply Z.mul_lt_mono_nonneg; lia. }
  pose proof (Zdigits2_lt (Zpos (mx * mc)) (Zpos (digits2_pos mx) + Zpos (digits2_pos mc))
                ltac:(lia) ltac:(lia) B) as D.
  clear - D Hd He Hc. lia.
Qed.

(** ** Rounding to nearest, ties to even *)

(** [M] is the integer nearest to [n / D], the even one of two. *)
Definition nearest (M n D : Z) : Prop :=
  - D <= 2 * (M * D - n) <= D /\
  (2 * (M * D - n) = D \/ 2 * (M * D - n) = - D -> Z.even M = true).

Lemma rne_nearest m l R D :
  0 <= R < D -> loc_ok l R D -> nearest (round_nearest_even m l) (m * D + R) D.
Proof.
  intros HR Hl. unfold nearest, round_nearest_even.
  destruct l as [|[]]; unfold loc_ok in Hl.
  - subst R. split; [lia|]. intros [H|H]; lia.
  - (* exactly one half *)
    destruct (Z.even m) eqn:Ev.
    + split; [lia|]. intros _. exact Ev.
    + split; [lia|]. intros _. rewrite Z.even_add, Ev. reflexivity.
  - split; [lia|]. intros [H|H]; lia.
  - split; [lia|]. intros [H|H]; lia.
Qed.

Lemma nearest_mono M1 n1 M2 n2 D :
  0 < D -> nearest M1 n1 D -> nearest M2 n2 D -> n1 <= n2 -> M1 <= M2.
Proof.
  intros HD [B1 T1] [B2 T2] Hn.
  destruct (Z_le_gt_dec M1 M2) as [L|G]; [exact L|exfalso].
  assert ((M2 + 1) * D <= M1 * D) as P by (apply Z.mul_le_mono_nonneg_r; lia).
  assert (M1 * D = (M2 + 1) * D) as E by lia.
  apply Z.mul_cancel_r in E; [|lia]. subst M1.
  assert (Z.even (M2 + 1) = true) as E1 by (apply T1; lia).
  assert (Z.even M2 = true) as E2 by (apply T2; lia).
  rewrite Z.even_add, E2 in E1. discriminate.
Qed.

Lemma nearest_exact M D : 0 < D -> nearest M (M * D) D.
Proof. intros HD. split; [lia|]. intros [H|H]; lia. Qed.

Lemma nearest_scale M n D c : 0 < c -> nearest M n D -> nearest M (n * c) (D * c).
Proof.
  intros Hc [B T]. unfold nearest.
  replace (2 * (M * (D * c) - n * c)) with ((2 * (M * D - n)) * c) by ring.
  split.
  - split.
    + replace (- (D * c)) with ((- D) * c) by ring.
      apply Z.mul_le_mono_nonneg_r; lia.
    + apply Z.mul_le_mono_nonneg_r; lia.
  - intros [H|H]; apply T.
    + left. apply Z.mul_cancel_r in H; lia.
    + right. replace (- (D * c)) with ((- D) * c) in H by ring.
      apply Z.mul_cancel_r in H; lia.
Qed.

Lemma nearest_le M n D T : 0 < D -> nearest M n D -> n <= T * D -> M <= T.
Proof.
  intros HD H Hn. exact (nearest_mono M n T (T * D) D HD H (nearest_exact T D HD) Hn).
Qed.

Lemma nearest_ge M n D T : 0 < D -> nearest M n D -> T * D <= n -> T <= M.
Proof.
  intros HD H Hn. exact (nearest_mono T (T * D) M n D HD (nearest_exact T D HD) H Hn).
Qed.

(** ** What the shifts leave of a number *)

Lemma shr_1_loc mrs R D :
  0 <= shr_m mrs -> 0 <= R < D -> loc_ok (loc_of_shr_record mrs) R D ->
  exists b,
    0 <= b <= 1 /\ shr_m mrs = 2 * shr_m (shr_1 mrs) + b /\
    0 <= shr_m (shr_1 mrs) /\
    loc_ok (loc_of_shr_record (shr_1 mrs)) (b * D + R) (2 * D).
Proof.
  destruct mrs as [m r s]. cbn [shr_m]. intros Hm HR Hl.
  destruct m as [|[p|p|]|p]; try lia.
  - exists 0.
    destruct r, s; cbn [shr_1 shr_m loc_of_shr_record orb loc_ok] in *; repeat split; lia.
  - exists 1.
    destruct r, s; cbn [shr_1 shr_m loc_of_shr_record orb loc_ok] in *;
      rewrite Pos2Z.inj_xI; repeat split; lia.
  - exists 0.
    destruct r, s; cbn [shr_1 shr_m loc_of_shr_record orb loc_ok] in *;
      rewrite Pos2Z.inj_xO; repeat split; lia.
  - exists 1.
    destruct r, s; cbn [shr_1 shr_m loc_of_shr_record orb loc_ok] in *; repeat split; lia.
Qed.

Lemma shr_iter_loc p mrs R0 D0 :
  0 <= shr_m mrs -> 0 <= R0 < D0 -> loc_ok (loc_of_shr_record mrs) R0 D0 ->
  exists rho,
    0 <= rho < 2 ^ Zpos p /\
    shr_m mrs = shr_m (iter_pos shr_1 p mrs) * 2 ^ Zpos p + rho /\
    0 <= shr_m (iter_pos shr_1 p mrs) /\
    loc_ok (loc_of_shr_record (iter_pos shr_1 p mrs)) (rho * D0 + R0) (2 ^ Zpos p * D0).
Proof.
  intros Hm HR Hl. rewrite iter_pos_iter.
  pattern p, (Pos.iter shr_1 mrs p). apply Pos.iter_ind.
  - destruct (shr_1_loc mrs R0 D0 Hm HR Hl) as (b & Hb & E & Hpos & L).
    exists b. change (2 ^ 1) with 2. repeat split; try lia. exact L.
  - intros q a (rho & Hrho & E & Hpos & L).
    assert (0 < 2 ^ Zpos q) as P by (apply Z.pow_pos_nonneg; lia).
    assert (0 <= rho * D0 + R0 < 2 ^ Zpos q * D0) as HR'.
    { split; [apply Z.add_nonneg_nonneg; [apply Z.mul_nonneg_nonneg|]; lia|].
      assert ((rho + 1) * D0 <= 2 ^ Zpos q * D0)
        by (apply Z.mul_le_mono_nonneg_r; lia).
      lia. }
    destruct (shr_1_loc a _ _ Hpos HR' L) as (b & Hb & E' & Hpos' & L').
    exists (b * 2 ^ Zpos q + rho).
    rewrite Pos2Z.inj_succ, Z.pow_succ_r by lia.
    split; [|split; [|split]].
    + split; [apply Z.add_nonneg_nonneg; [apply Z.mul_nonneg_nonneg|]; lia|].
      assert (b * 2 ^ Zpos q <= 1 * 2 ^ Zpos q)
        by (apply Z.mul_le_mono_nonneg_r; lia).
      lia.
    + rewrite E, E'. ring.
    + exact Hpos'.
    + replace ((b * 2 ^ Zpos q + rho) * D0 + R0)
        with (b * (2 ^ Zpos q * D0) + (rho * D0 + R0)) by ring.
      replace (2 * 2 ^ Zpos q * D0) with (2 * (2 ^ Zpos q * D0)) by ring.
      exact L'.
Qed.

(** The first shift of a rounding: the mantissa at the exponent of the
    result, and the nearest integer. *)
Lemma shr_fexp_nearest q e l R0 D0 :
  0 <= q -> 0 <= R0 < D0 -> loc_ok l R0 D0 ->
  forall mrs e',
    shr_fexp prec emax q e l = (mrs, e') ->
    e' = Z.max e (Z.max (Zdigits2 q + e - 53) (-1074)) /\
    nearest (round_nearest_even (shr_m mrs) (loc_of_shr_record mrs))
      (q * D0 + R0) (2 ^ (e' - e) * D0).
Proof.
  intros Hq HR Hl mrs e' H. unfold shr_fexp, shr in H. rewrite fexp_eq in H.
  destruct (Z.max (Zdigits2 q + e - 53) (-1074) - e) as [|p|p] eqn:E.
  - inversion H; subst. split; [lia|].
    rewrite Z.sub_diag. change (2 ^ 0) with 1. rewrite Z.mul_1_l.
    rewrite shr_record_of_loc_m, loc_of_record_of_loc. now apply rne_nearest.
  - inversion H; subst. split; [lia|].
    replace (e + Zpos p - e) with (Zpos p) by lia.
    destruct (shr_iter_loc p (shr_record_of_loc q l) R0 D0)
      as (rho & Hrho & Eq & Hpos & L).
    + rewrite shr_record_of_loc_m. exact Hq.
    + exact HR.
    + rewrite loc_of_record_of_loc. exact Hl.
    + rewrite shr_record_of_loc_m in Eq.
      set (m := shr_m (iter_pos shr_1 p (shr_record_of_loc q l))) in *.
      replace (q * D0 + R0) with (m * (2 ^ Zpos p * D0) + (rho * D0 + R0))
        by (rewrite Eq; ring).
      apply rne_nearest; [|exact L].
      assert (0 < 2 ^ Zpos p) as P by (apply Z.pow_pos_nonneg; lia).
      split; [apply Z.add_nonneg_nonneg; [apply Z.mul_nonneg_nonneg|]; lia|].
      assert ((rho + 1) * D0 <= 2 ^ Zpos p * D0)
        by (apply Z.mul_le_mono_nonneg_r; lia).
      lia.
  - inversion H; subst. split; [lia|].
    rewrite Z.sub_diag. change (2 ^ 0) with 1. rewrite Z.mul_1_l.
    rewrite shr_record_of_loc_m, loc_of_record_of_loc. now apply rne_nearest.
Qed.

(** ** What a rounding returns *)

Lemma Zdigits2_bound q : 0 <= q -> q < 2 ^ Zdigits2 q.
Proof.
  intros Hq. destruct q as [|p|p]; try lia.
  - reflexivity.
  - cbn [Zdigits2]. apply digits2_bounds.
Qed.

Lemma Zdigits2_nonneg q : 0 <= Zdigits2 q.
Proof. destruct q; cbn [Zdigits2]; lia. Qed.

(** What a rounding returns: the nearest mantissa at the exponent of
    the result, as long as that exponent is in range. *)
Lemma round_aux_value s q e l R0 D0 :
  0 <= q -> 0 <= R0 < D0 -> loc_ok l R0 D0 ->
  Z.max e (Z.max (Zdigits2 q + e - 53) (-1074)) <= 970 ->
  exists M,
    nearest M (q * D0 + R0)
      (2 ^ (Z.max e (Z.max (Zdigits2 q + e - 53) (-1074)) - e) * D0) /\
    ((M = 0 /\ binary_round_aux prec emax s q e l = S754_zero s) \/
     (0 < M /\
      exists m2 e2,
        binary_round_aux prec emax s q e l = S754_finite s m2 e2 /\
        Z.max e (Z.max (Zdigits2 q + e - 53) (-1074)) <= e2 /\
        Zpos m2 * 2 ^ (e2 - Z.max e (Z.max (Zdigits2 q + e - 53) (-1074))) = M)).
Proof.
  intros Hq HR Hl HF. set (F := Z.max e (Z.max (Zdigits2 q + e - 53) (-1074))) in *.
  unfold binary_round_aux.
  destruct (shr_fexp prec emax q e l) as [mrs' e'] eqn:E1.
  destruct (shr_fexp_nearest q e l R0 D0 Hq HR Hl mrs' e' E1) as [Ee' Hn].
  fold F in Ee'. subst e'.
  set (M := round_nearest_even (shr_m mrs') (loc_of_shr_record mrs')) in *.
  assert (0 < 2 ^ (F - e)) as P by (apply Z.pow_pos_nonneg; unfold F; lia).
  assert (0 < 2 ^ (F - e) * D0) as PD by (apply Z.mul_pos_pos; lia).
  assert (0 <= M) as HM0.
  { apply (nearest_ge M (q * D0 + R0) (2 ^ (F - e) * D0) 0 PD Hn).
    rewrite Z.mul_0_l. apply Z.add_nonneg_nonneg; [apply Z.mul_nonneg_nonneg|]; lia. }
  assert (M <= 2 ^ 53) as HM1.
  { apply (nearest_le M (q * D0 + R0) (2 ^ (F - e) * D0) (2 ^ 53) PD Hn).
    pose proof (Zdigits2_bound q Hq) as B. pose proof (Zdigits2_nonneg q) as Dn.
    assert (2 ^ Zdigits2 q <= 2 ^ (53 + (F - e))) as B2
        by (apply Z.pow_le_mono_r; unfold F; lia).
    rewrite Z.pow_add_r in B2 by (unfold F; lia).
    assert ((q + 1) * D0 <= (2 ^ 53 * 2 ^ (F - e)) * D0)
      by (apply Z.mul_le_mono_nonneg_r; lia).
    replace (2 ^ 53 * (2 ^ (F - e) * D0)) with ((2 ^ 53 * 2 ^ (F - e)) * D0) by ring.
    lia. }
  exists M. split; [exact Hn|].
  pose proof (shr_fexp_spec M F loc_Exact HM0) as [S2 M2].
  destruct (shr_fexp prec emax M F loc_Exact) as [mrs'' e''].
  cbn [fst snd] in S2, M2. rewrite fexp_eq in S2, M2.
  assert (-1074 <= F) as HFm by (unfold F; lia).
  destruct (Z.eq_dec M 0) as [Z0|NZ].
  - left. split; [exact Z0|]. rewrite Z0 in M2. rewrite Z.div_0_l in M2.
    + rewrite M2. reflexivity.
    + apply Z.pow_nonzero; lia.
  - right. split; [lia|].
    destruct (Z.eq_dec M (2 ^ 53)) as [E53|N53].
    + (* the mantissa overflows into the next binade *)
      rewrite E53 in S2, M2. change (Zdigits2 (2 ^ 53)) with 54 in S2, M2.
      replace (Z.max F (Z.max (54 + F - 53) (-1074))) with (F + 1) in S2, M2 by lia.
      replace (F + 1 - F) with 1 in M2 by lia.
      change (2 ^ 53 / 2 ^ 1) with (Zpos 4503599627370496) in M2.
      rewrite M2, S2. change (emax - prec) with 971.
      destruct (F + 1 <=? 971) eqn:L; [|apply Z.leb_gt in L; lia].
      exists 4503599627370496%positive, (F + 1). split; [reflexivity|]. split; [lia|].
      replace (F + 1 - F) with 1 by lia. rewrite E53. reflexivity.
    + assert (Zdigits2 M <= 53) as D53
          by (apply Zdigits2_lt; lia).
      replace (Z.max F (Z.max (Zdigits2 M + F - 53) (-1074))) with F in S2, M2 by lia.
      rewrite Z.sub_diag in M2. change (2 ^ 0) with 1 in M2. rewrite Z.div_1_r in M2.
      rewrite M2, S2. change (emax - prec) with 971.
      destruct M as [|m|m]; try lia.
      destruct (F <=? 971) eqn:L; [|apply Z.leb_gt in L; lia].
      exists m, F. split; [reflexivity|]. split; [lia|].
      rewrite Z.sub_diag. change (2 ^ 0) with 1. lia.
Qed.

(** ** Values in units of the smallest number *)

(** A number of the unit interval, in units of [2 ^ -1074]. *)
Definition SFval (x : spec_float) : Z :=
  match x with
  | S754_finite false m e => Zpos m * 2 ^ (e + 1074)
  | _ => 0
  end.

(** [R] is [V], rounded to 53 digits. *)
Definition rounds (V R : Z) : Prop :=
  exists M,
    nearest M V (2 ^ Z.max (Zdigits2 V - 53) 0) /\
    R = M * 2 ^ Z.max (Zdigits2 V - 53) 0.

Lemma Zdigits2_mono a b : 0 < a <= b -> Zdigits2 a <= Zdigits2 b.
Proof.
  intros H. destruct a as [|p|p], b as [|q|q]; try lia. cbn [Zdigits2].
  pose proof (digits2_bounds p) as [Hlo _]. pose proof (digits2_bounds q) as [_ Hhi].
  destruct (Z_le_gt_dec (Zpos (digits2_pos p)) (Zpos (digits2_pos q))) as [L|G]; [exact L|].
  assert (2 ^ Zpos (digits2_pos q) <= 2 ^ (Zpos (digits2_pos p) - 1))
    by (apply Z.pow_le_mono_r; lia).
  lia.
Qed.

Lemma Zdigits2_low a : 0 < a -> 2 ^ (Zdigits2 a - 1) <= a.
Proof. intros H. destruct a as [|p|p]; try lia. cbn [Zdigits2]. apply digits2_bounds. Qed.

Lemma rounds_mono V1 R1 V2 R2 :
  0 < V1 <= V2 -> rounds V1 R1 -> rounds V2 R2 -> R1 <= R2.
Proof.
  intros HV (M1 & N1 & ->) (M2 & N2 & ->).
  pose proof (Zdigits2_mono V1 V2 HV) as Dm.
  set (d1 := Zdigits2 V1) in *. set (d2 := Zdigits2 V2) in *.
  assert (1 <= d1) as Hd1.
  { unfold d1. destruct V1 as [|p|p]; try lia. cbn [Zdigits2]. lia. }
  set (K1 := Z.max (d1 - 53) 0) in *. set (K2 := Z.max (d2 - 53) 0) in *.
  assert (0 < 2 ^ K1) as P1 by (apply Z.pow_pos_nonneg; unfold K1; lia).
  assert (0 < 2 ^ K2) as P2 by (apply Z.pow_pos_nonneg; unfold K2; lia).
  destruct (Z.eq_dec K1 K2) as [E|NE].
  - rewrite <- E in *.
    pose proof (nearest_mono M1 V1 M2 V2 (2 ^ K1) P1 N1 N2 ltac:(lia)) as L.
    apply Z.mul_le_mono_nonneg_r; lia.
  - assert (K1 < K2) as LK by (unfold K1, K2 in *; lia).
    assert (K2 = d2 - 53) as EK2 by (unfold K1, K2 in *; lia).
    assert (d1 < d2) as Ld by (unfold K1, K2 in *; lia).
    (* the smaller number rounds to at most 2 ^ d1 *)
    assert (M1 <= 2 ^ (d1 - K1)) as U1.
    { apply (nearest_le M1 V1 (2 ^ K1) _ P1 N1).
      rewrite <- Z.pow_add_r by (unfold K1; lia).
      replace (d1 - K1 + K1) with d1 by lia.
      pose proof (Zdigits2_bound V1 ltac:(lia)). fold d1 in H. lia. }
    (* the larger one to at least 2 ^ (d2 - 1) *)
    assert (2 ^ 52 <= M2) as L2.
    { apply (nearest_ge M2 V2 (2 ^ K2) _ P2 N2).
      rewrite <- Z.pow_add_r by lia.
      replace (52 + K2) with (d2 - 1) by lia.
      apply Zdigits2_low. lia. }
    apply Z.le_trans with (2 ^ d1).
    + assert (2 ^ d1 = 2 ^ (d1 - K1) * 2 ^ K1) as ->.
      { rewrite <- Z.pow_add_r by (unfold K1; lia). f_equal. lia. }
      apply Z.mul_le_mono_nonneg_r; lia.
    + apply Z.le_trans with (2 ^ 52 * 2 ^ K2).
      * rewrite <- Z.pow_add_r by lia. apply Z.pow_le_mono_r; lia.
      * apply Z.mul_le_mono_nonneg_r; lia.
Qed.

(** ** Sums and differences of numbers of the unit interval *)

Lemma Zdigits2_shift x j : 0 < x -> 0 <= j -> Zdigits2 (x * 2 ^ j) = Zdigits2 x + j.
Proof.
  intros Hx Hj. assert (0 < 2 ^ j) as P by (apply Z.pow_pos_nonneg; lia).
  assert (0 < x * 2 ^ j) as Hp by (apply Z.mul_pos_pos; lia).
  destruct x as [|p|p]; try lia. destruct (Zpos p * 2 ^ j) as [|q|q] eqn:E; try lia.
  cbn [Zdigits2]. pose proof (digits2_bounds p) as [Hlo Hhi].
  apply digits2_unique; [|lia]. rewrite <- E. split.
  - replace (Zpos (digits2_pos p) + j - 1) with (Zpos (digits2_pos p) - 1 + j) by lia.
    rewrite Z.pow_add_r by lia. apply Z.mul_le_mono_nonneg_r; lia.
  - rewrite Z.pow_add_r by lia. apply Z.mul_lt_mono_pos_r; lia.
Qed.

Lemma shl_align_id m e ez : e <= ez -> shl_align m e ez = (m, e).
Proof.
  intros H. unfold shl_align. destruct (ez - e) as [|p|p] eqn:E; try reflexivity. lia.
Qed.

Lemma nearest_one M n : nearest M n 1 -> M = n.
Proof. intros [B _]. lia. Qed.

(** A rounded integer: the result is the number, rounded to 53 digits. *)
Lemma binary_round_rounds s x z :
  -1074 <= z -> Zpos (digits2_pos x) + z <= 1023 ->
  exists m e,
    binary_round prec emax s x z = S754_finite s m e /\
    -1074 <= e /\
    rounds (Zpos x * 2 ^ (z + 1074)) (Zpos m * 2 ^ (e + 1074)).
Proof.
  intros Hz Hd. unfold binary_round. rewrite fexp_eq.
  set (d := Zpos (digits2_pos x)) in *.
  assert (1 <= d) as Hd1 by (unfold d; lia).
  set (F0 := Z.max (d + z - 53) (-1074)).
  pose proof (digits2_bounds x) as [Hlo Hhi]. fold d in Hlo, Hhi.
  assert (Zdigits2 (Zpos x * 2 ^ (z + 1074)) = d + z + 1074) as DV.
  { rewrite Zdigits2_shift by lia. cbn [Zdigits2]. fold d. lia. }
  assert (Z.max (d + z + 1074 - 53) 0 = F0 + 1074) as EK by (unfold F0; lia).
  destruct (Z_le_gt_dec F0 z) as [L|G].
  - (* no digit is lost *)
    pose proof (shl_align_fst x z F0 L) as Ef.
    pose proof (shl_align_snd x z F0 L) as Es.
    destruct (shl_align x z F0) as [mz ez]. cbn [fst snd] in Ef, Es. subst ez.
    assert (Zdigits2 (Zpos mz) = d + (z - F0)) as Dz.
    { rewrite Ef, Zdigits2_shift by lia. reflexivity. }
    assert (loc_ok loc_Exact 0 1) as LE by reflexivity.
    assert (Z.max F0 (Z.max (Zdigits2 (Zpos mz) + F0 - 53) (-1074)) <= 970) as B970
        by (rewrite Dz; unfold F0; lia).
    destruct (round_aux_value s (Zpos mz) F0 loc_Exact 0 1
                ltac:(lia) ltac:(lia) LE B970)
      as (M & Hn & [[M0 _]|(Mp & m2 & e2 & -> & He2 & Em)]).
    + exfalso. rewrite Dz in Hn.
      replace (Z.max F0 (Z.max (d + (z - F0) + F0 - 53) (-1074))) with F0 in Hn
        by (unfold F0; lia).
      rewrite Z.sub_diag, Z.mul_1_r, Z.add_0_r in Hn. change (2 ^ 0 * 1) with 1 in Hn.
      apply nearest_one in Hn. lia.
    + rewrite Dz in Hn, He2, Em.
      replace (Z.max F0 (Z.max (d + (z - F0) + F0 - 53) (-1074))) with F0 in Hn, He2, Em
        by (unfold F0; lia).
      rewrite Z.sub_diag, Z.mul_1_r, Z.add_0_r in Hn. change (2 ^ 0 * 1) with 1 in Hn.
      apply nearest_one in Hn.
      exists m2, e2. split; [reflexivity|]. split; [unfold F0 in He2; lia|].
      exists M. rewrite DV, EK.
      assert (Zpos x * 2 ^ (z + 1074) = M * 2 ^ (F0 + 1074)) as EV.
      { rewrite Hn, Ef, <- Z.mul_assoc, <- Z.pow_add_r by (unfold F0; lia).
        do 2 f_equal. lia. }
      split.
      * rewrite EV. apply nearest_exact. apply Z.pow_pos_nonneg; unfold F0; lia.
      * rewrite <- Em, <- Z.mul_assoc, <- Z.pow_add_r by (unfold F0 in *; lia).
        do 2 f_equal. lia.
  - (* digits are shifted out *)
    rewrite (shl_align_id x z F0) by lia.
    assert (Z.max z (Z.max (Zdigits2 (Zpos x) + z - 53) (-1074)) = F0) as EF
        by (cbn [Zdigits2]; fold d; unfold F0; lia).
    assert (loc_ok loc_Exact 0 1) as LE by reflexivity.
    assert (Z.max z (Z.max (Zdigits2 (Zpos x) + z - 53) (-1074)) <= 970) as B970
        by (rewrite EF; unfold F0; lia).
    destruct (round_aux_value s (Zpos x) z loc_Exact 0 1
                ltac:(lia) ltac:(lia) LE B970)
      as (M & Hn & HM).
    + rewrite EF in Hn, HM. rewrite Z.mul_1_r, Z.add_0_r in Hn.
      assert (0 < 2 ^ (F0 - z)) as P by (apply Z.pow_pos_nonneg; lia).
      assert (1 <= M) as M1.
      { apply (nearest_ge M (Zpos x) (2 ^ (F0 - z) * 1) 1 ltac:(lia) Hn).
        rewrite Z.mul_1_l, Z.mul_1_r.
        apply Z.le_trans with (2 ^ (d - 1)); [|exact Hlo].
        apply Z.pow_le_mono_r; unfold F0; lia. }
      destruct HM as [[M0 _]|(Mp & m2 & e2 & -> & He2 & Em)]; [lia|].
      exists m2, e2. split; [reflexivity|]. split; [unfold F0 in He2; lia|].
      exists M. rewrite DV, EK. split.
      * replace (2 ^ (F0 + 1074)) with (2 ^ (F0 - z) * 1 * 2 ^ (z + 1074)).
        -- apply nearest_scale; [apply Z.pow_pos_nonneg; lia | exact Hn].
        -- rewrite Z.mul_1_r, <- Z.pow_add_r by lia. f_equal. lia.
      * rewrite <- Em, <- Z.mul_assoc, <- Z.pow_add_r by (unfold F0 in *; lia).
        do 2 f_equal. lia.
Qed.

(** A number that has 53 digits rounds to itself. *)
Lemma rounds_valid m e :
  valid_binary (S754_finite false m e) = true ->
  rounds (Zpos m * 2 ^ (e + 1074)) (Zpos m * 2 ^ (e + 1074)).
Proof.
  intros V. apply valid_finite in V as (He & Hd & Hn).
  exists (Zpos m). rewrite Zdigits2_shift by lia. cbn [Zdigits2].
  assert (Z.max (Zpos (digits2_pos m) + (e + 1074) - 53) 0 = e + 1074) as ->.
  { destruct (Z.eq_dec e (-1074)) as [->|N]; [lia|]. rewrite Hn by lia. lia. }
  split; [|reflexivity]. apply nearest_exact. apply Z.pow_pos_nonneg; lia.
Qed.

(** The difference of two numbers is the exact difference, rounded. *)
Lemma SFsub_rounds x y :
  valid_binary x = true -> valid_binary y = true ->
  (exists m e, x = S754_finite false m e /\ e <= 0) ->
  ((exists s, y = S754_zero s) \/ (exists m e, y = S754_finite false m e /\ e <= 0)) ->
  SFval y < SFval x ->
  exists m e,
    SFsub prec emax x y = S754_finite false m e /\ -1074 <= e /\
    rounds (SFval x - SFval y) (Zpos m * 2 ^ (e + 1074)).
Proof.
  intros Vx Vy (mx & ex & -> & Hex) Hy Hlt.
  destruct Hy as [[s ->]|(my & ey & -> & Hey)].
  - exists mx, ex. cbn [SFsub SFval]. rewrite Z.sub_0_r.
    split; [reflexivity|]. split; [|now apply rounds_valid].
    apply valid_finite in Vx. lia.
  - pose proof (valid_finite _ _ _ Vx) as (Hx1 & Hx2 & _).
    pose proof (valid_finite _ _ _ Vy) as (Hy1 & Hy2 & _).
    cbn [SFval] in *. cbn [SFsub cond_Zopp].
    set (z := Z.min ex ey).
    rewrite !shl_align_fst by (unfold z; lia).
    set (X := Zpos mx * 2 ^ (ex - z) - Zpos my * 2 ^ (ey - z)).
    assert (X * 2 ^ (z + 1074) = Zpos mx * 2 ^ (ex + 1074) - Zpos my * 2 ^ (ey + 1074)) as EX.
    { unfold X. rewrite Z.mul_sub_distr_r, <- !Z.mul_assoc, <- !Z.pow_add_r
        by (unfold z; lia).
      do 2 f_equal; f_equal; lia. }
    assert (0 < 2 ^ (z + 1074)) as P by (apply Z.pow_pos_nonneg; unfold z; lia).
    assert (0 < X) as HX.
    { destruct (Z_lt_le_dec 0 X) as [L|G]; [exact L|exfalso].
      assert (X * 2 ^ (z + 1074) <= 0 * 2 ^ (z + 1074))
        by (apply Z.mul_le_mono_nonneg_r; lia).
      lia. }
    destruct X as [|xx|xx] eqn:EXX; try lia.
    cbn [binary_normalize].
    assert (Zpos xx < 2 ^ (53 + (ex - z))) as BX.
    { pose proof (digits2_bounds mx) as [_ Hhi].
      assert (Zpos mx < 2 ^ 53).
      { eapply Z.lt_le_trans; [exact Hhi|]. apply Z.pow_le_mono_r; lia. }
      rewrite Z.pow_add_r by (unfold z; lia).
      assert (0 < 2 ^ (ex - z)) by (apply Z.pow_pos_nonneg; unfold z; lia).
      assert (0 < 2 ^ (ey - z)) by (apply Z.pow_pos_nonneg; unfold z; lia).
      assert (Zpos mx * 2 ^ (ex - z) < 2 ^ 53 * 2 ^ (ex - z))
        by (apply Z.mul_lt_mono_pos_r; lia).
      assert (0 < Zpos my * 2 ^ (ey - z)) by (apply Z.mul_pos_pos; lia).
      rewrite <- EXX. unfold X. lia. }
    pose proof (Zdigits2_lt (Zpos xx) (53 + (ex - z)) ltac:(lia)
                  ltac:(unfold z; lia) BX) as DX.
    cbn [Zdigits2] in DX.
    destruct (binary_round_rounds false xx z) as (m & e & -> & He & Hr).
    + unfold z. lia.
    + unfold z in *. lia.
    + exists m, e. split; [reflexivity|]. split; [exact He|].
      rewrite <- EX. exact Hr.
Qed.

(** ** The order of the values *)

Lemma SFval_lt x y mx ex my ey :
  x = S754_finite false mx ex -> y = S754_finite false my ey ->
  valid_binary x = true -> valid_binary y = true ->
  SFval x < SFval y -> SFcompare x y = Some Lt.
Proof.
  intros -> -> Vx Vy H. cbn [SFval] in H.
  pose proof (valid_finite _ _ _ Vx) as (Hx1 & _).
  pose proof (valid_finite _ _ _ Vy) as (Hy1 & _).
  apply (SFcompare_pos_lt mx ex my ey 1074 Vx Vy); lia.
Qed.

Lemma SFval_eq mx ex my ey :
  valid_binary (S754_finite false mx ex) = true ->
  valid_binary (S754_finite false my ey) = true ->
  Zpos mx * 2 ^ (ex + 1074) = Zpos my * 2 ^ (ey + 1074) ->
  mx = my /\ ex = ey.
Proof.
  intros Vx Vy H.
  pose proof (valid_finite _ _ _ Vx) as (Hx1 & _).
  pose proof (valid_finite _ _ _ Vy) as (Hy1 & _).
  assert (forall m e m' e',
            valid_binary (S754_finite false m e) = true ->
            valid_binary (S754_finite false m' e') = true ->
            -1074 <= e -> e < e' ->
            Zpos m * 2 ^ (e + 1074) < Zpos m' * 2 ^ (e' + 1074)) as Lt.
  { intros m e m' e' V V' He Hlt.
    pose proof (valid_exp_lt _ _ _ _ _ _ V V' Hlt) as L.
    assert (0 < 2 ^ (e + 1074)) as P by (apply Z.pow_pos_nonneg; lia).
    replace (e' + 1074) with ((e' - e) + (e + 1074)) by lia.
    rewrite (Z.pow_add_r 2 (e' - e) (e + 1074)), Z.mul_assoc by lia.
    apply Z.mul_lt_mono_pos_r; assumption. }
  destruct (Z.lt_trichotomy ex ey) as [L|[E|G]].
  - pose proof (Lt _ _ _ _ Vx Vy ltac:(lia) L). lia.
  - subst ey. split; [|reflexivity].
    assert (0 < 2 ^ (ex + 1074)) as P by (apply Z.pow_pos_nonneg; lia).
    apply Z.mul_cancel_r in H; [|lia]. now inversion H.
  - pose proof (Lt _ _ _ _ Vy Vx ltac:(lia) G). lia.
Qed.

Lemma SFval_le_compare mx ex my ey :
  valid_binary (S754_finite false mx ex) = true ->
  valid_binary (S754_finite false my ey) = true ->
  Zpos mx * 2 ^ (ex + 1074) <= Zpos my * 2 ^ (ey + 1074) ->
  SFcompare (S754_finite false mx ex) (S754_finite false my ey) = Some Lt \/
  SFcompare (S754_finite false mx ex) (S754_finite false my ey) = Some Eq.
Proof.
  intros Vx Vy H.
  destruct (Z_lt_le_dec (Zpos mx * 2 ^ (ex + 1074)) (Zpos my * 2 ^ (ey + 1074))) as [L|G].
  - left. now apply (SFval_lt _ _ mx ex my ey).
  - right. destruct (SFval_eq mx ex my ey Vx Vy ltac:(lia)) as [-> ->].
    apply F64Facts.SFcompare_refl. cbn. destruct (ey ?= ey); discriminate.
Qed.

Lemma SFcompare_val_le mx ex my ey :
  valid_binary (S754_finite false mx ex) = true ->
  valid_binary (S754_finite false my ey) = true ->
  SFcompare (S754_finite false mx ex) (S754_finite false my ey) <> Some Gt ->
  Zpos mx * 2 ^ (ex + 1074) <= Zpos my * 2 ^ (ey + 1074).
Proof.
  intros Vx Vy H.
  destruct (Z_lt_le_dec (Zpos my * 2 ^ (ey + 1074)) (Zpos mx * 2 ^ (ex + 1074)))
    as [L|G]; [exfalso|exact G].
  pose proof (SFval_lt _ _ my ey mx ex eq_refl eq_refl Vy Vx L) as C.
  rewrite (F64Facts.SFcompare_sym (S754_finite false my ey)), C in H. now apply H.
Qed.

Lemma SFcompare_val_lt mx ex my ey :
  valid_binary (S754_finite false mx ex) = true ->
  valid_binary (S754_finite false my ey) = true ->
  SFcompare (S754_finite false mx ex) (S754_finite false my ey) = Some Lt ->
  Zpos mx * 2 ^ (ex + 1074) < Zpos my * 2 ^ (ey + 1074).
Proof.
  intros Vx Vy H.
  destruct (Z_lt_le_dec (Zpos mx * 2 ^ (ex + 1074)) (Zpos my * 2 ^ (ey + 1074)))
    as [L|G]; [exact L|exfalso].
  destruct (SFval_le_compare my ey mx ex Vy Vx G) as [C|C];
    rewrite (F64Facts.SFcompare_sym (S754_finite false my ey)), C in H; discriminate.
Qed.

(** ** Quotients *)

(** The quotient of a number by one that is not smaller is at most 1. *)
Lemma SFdiv_le_one mN eN mD eD :
  valid_binary (S754_finite false mN eN) = true ->
  valid_binary (S754_finite false mD eD) = true ->
  Zpos mN * 2 ^ (eN + 1074) <= Zpos mD * 2 ^ (eD + 1074) ->
  SF64div (S754_finite false mN eN) (S754_finite false mD eD) = S754_zero false \/
  exists m e,
    SF64div (S754_finite false mN eN) (S754_finite false mD eD) = S754_finite false m e /\
    -1074 <= e /\ Zpos m * 2 ^ (e + 1074) <= 2 ^ 1074.
Proof.
  intros VN VD Hle.
  pose proof (valid_finite _ _ _ VN) as (HN1 & HN2 & _).
  pose proof (valid_finite _ _ _ VD) as (HD1 & HD2 & _).
  unfold SF64div, SFdiv, SFdiv_core_binary. cbn [Zdigits2 xorb]. rewrite fexp_eq.
  set (d1 := Zpos (digits2_pos mN)). set (d2 := Zpos (digits2_pos mD)).
  assert (d1 + eN <= d2 + eD) as Hd.
  { assert (0 < Zpos mN * 2 ^ (eN + 1074)) as P0.
    { apply Z.mul_pos_pos; [lia|]. apply Z.pow_pos_nonneg; lia. }
    pose proof (Zdigits2_mono _ _ (conj P0 Hle)) as Dm.
    rewrite !Zdigits2_shift in Dm by lia. cbn [Zdigits2] in Dm. fold d1 d2 in Dm. lia. }
  set (e' := Z.min (Z.max (d1 + eN - (d2 + eD) - 53) (-1074)) (eN - eD)).
  assert (e' <= -53) as He' by (unfold e'; lia).
  assert (e' <= eN - eD) as He'' by (unfold e'; lia).
  set (s := eN - eD - e'). assert (0 <= s) as Hs by (unfold s; lia).
  assert (match s with
          | 0 => Zpos mN
          | Zpos _ => Z.shiftl (Zpos mN) s
          | Zneg _ => 0
          end = Zpos mN * 2 ^ s) as ->.
  { destruct s as [|ps|ps] eqn:Es; try lia.
    rewrite Z.shiftl_mul_pow2 by lia. reflexivity. }
  assert (0 < 2 ^ s) as Ps by (apply Z.pow_pos_nonneg; lia).
  assert (0 < 2 ^ (- e')) as Pe by (apply Z.pow_pos_nonneg; lia).
  assert (0 < 2 ^ (eD + 1074)) as PD by (apply Z.pow_pos_nonneg; lia).
  assert (Zpos mN * 2 ^ s <= 2 ^ (- e') * Zpos mD) as A.
  { apply (Z.mul_le_mono_pos_r _ _ (2 ^ (eD + 1074)) PD).
    replace (Zpos mN * 2 ^ s * 2 ^ (eD + 1074))
      with (Zpos mN * 2 ^ (eN + 1074) * 2 ^ (- e')).
    - replace (2 ^ (- e') * Zpos mD * 2 ^ (eD + 1074))
        with (Zpos mD * 2 ^ (eD + 1074) * 2 ^ (- e')) by ring.
      apply Z.mul_le_mono_nonneg_r; lia.
    - rewrite <- !Z.mul_assoc, <- !Z.pow_add_r by lia. do 2 f_equal. unfold s. lia. }
  destruct (div_eucl_spec (Zpos mN * 2 ^ s) (Zpos mD) ltac:(lia))
    as (q & r & -> & Hqr & Hr & Hq).
  cbv iota beta.
  pose proof (new_location_ok (Zpos mD) r Hr) as Hloc.
  assert (0 <= q) as Hq0.
  { rewrite Hq. apply Z.div_pos; [|lia]. apply Z.mul_nonneg_nonneg; lia. }
  assert (q <= 2 ^ (- e')) as Hq1.
  { apply (Z.mul_le_mono_pos_r _ _ (Zpos mD)); [lia|].
    replace (q * Zpos mD) with (Zpos mD * q) by ring. lia. }
  assert (Zdigits2 q <= - e' + 1) as Dq.
  { destruct (Z.eq_dec q 0) as [->|Nq]; [cbn [Zdigits2]; lia|].
    apply Zdigits2_le; lia. }
  pose proof (Zdigits2_nonneg q) as Dq0.
  set (F := Z.max e' (Z.max (Zdigits2 q + e' - 53) (-1074))).
  assert (-1074 <= F <= -52) as HF by (unfold F; lia).
  assert (e' <= F) as HeF by (unfold F; lia).
  destruct (round_aux_value false q e' (new_location (Zpos mD) r) r (Zpos mD)
              Hq0 Hr Hloc ltac:(fold F; lia))
    as (M & Hn & HM).
  fold F in Hn, HM.
  assert (0 < 2 ^ (F - e')) as PF by (apply Z.pow_pos_nonneg; lia).
  assert (M <= 2 ^ (- F)) as HMle.
  { apply (nearest_le M (q * Zpos mD + r) (2 ^ (F - e') * Zpos mD) (2 ^ (- F))
             ltac:(apply Z.mul_pos_pos; lia) Hn).
rewrite Z.mul_assoc, <- Z.pow_add_r by lia.
    replace (- F + (F - e')) with (- e') by lia.
    replace (q * Zpos mD + r) with (Zpos mD * q + r) by ring. lia. }
  destruct HM as [[_ ->]|(Mp & m2 & e2 & -> & He2 & Em)]; [left; reflexivity|right].
  exists m2, e2. split; [reflexivity|]. split; [lia|].
  replace (e2 + 1074) with ((e2 - F) + (F + 1074)) by lia.
  rewrite Z.pow_add_r, Z.mul_assoc, Em by lia.
  replace 1074 with (- F + (F + 1074)) at 2 by lia.
  rewrite (Z.pow_add_r 2 (- F) (F + 1074)) by lia.
  apply Z.mul_le_mono_nonneg_r; [|exact HMle].
  apply Z.pow_nonneg. lia.
Qed.

(** ** Numbers of the unit interval *)

Lemma in_unit_SF x :
  in_unit x = true ->
  (exists s, Prim2SF x = S754_zero s) \/
  (exists m e, Prim2SF x = S754_finite false m e /\ e <= 0 /\
               Zpos m * 2 ^ (e + 1074) <= 2 ^ 1074).
Proof.
  unfold in_unit. intros H. apply andb_true_iff in H as [H0 H1].
  rewrite leb_spec in H0, H1. pose proof (Prim2SF_valid x) as V.
  change (Prim2SF 0) with (S754_zero false) in H0.
  change (Prim2SF 1) with (S754_finite false 4503599627370496 (-52)) in H1.
  destruct (Prim2SF x) as [s|[]| |[] m e]; try discriminate.
  - left. eauto.
  - right. exists m, e. split; [reflexivity|].
    assert (Zpos m * 2 ^ (e + 1074) <= 4503599627370496 * 2 ^ (-52 + 1074)) as B.
    { apply SFcompare_val_le; [exact V|reflexivity|].
      unfold SFleb in H1. intros C. rewrite C in H1. discriminate. }
    change (4503599627370496 * 2 ^ (-52 + 1074)) with (2 ^ 1074) in B.
    split; [|exact B].
    destruct (Z_le_gt_dec e 0) as [L|G]; [exact L|exfalso].
    pose proof (valid_finite _ _ _ V) as (He & _).
    assert (2 ^ 1074 < 2 ^ (e + 1074)) by (apply Z.pow_lt_mono_r; lia).
    assert (1 * 2 ^ (e + 1074) <= Zpos m * 2 ^ (e + 1074))
      by (apply Z.mul_le_mono_nonneg_r; lia).
    lia.
Qed.

Lemma SF_in_unit x :
  Prim2SF x = S754_zero false \/
  (exists m e, Prim2SF x = S754_finite false m e /\
               Zpos m * 2 ^ (e + 1074) <= 2 ^ 1074) ->
  in_unit x = true.
Proof.
  intros H. unfold in_unit. rewrite !leb_spec. pose proof (Prim2SF_valid x) as V.
  change (Prim2SF 0) with (S754_zero false).
  change (Prim2SF 1) with (S754_finite false 4503599627370496 (-52)).
  destruct H as [->|(m & e & E & B)]; [reflexivity|].
  rewrite E in *. apply andb_true_iff. split; [reflexivity|].
  unfold SFleb.
  destruct (SFval_le_compare m e 4503599627370496 (-52) V eq_refl) as [C|C].
  - change (4503599627370496 * 2 ^ (-52 + 1074)) with (2 ^ 1074). exact B.
  - rewrite C. reflexivity.
  - rewrite C. reflexivity.
Qed.

(** The interpolation factor of [get]: between two keys of the unit
    interval the rounded quotient of the rounded differences lies in the
    unit interval. *)
Lemma factor_in_unit low p high :
  in_unit low = true -> in_unit high = true ->
  (low <? p)%float = true -> (p <=? high)%float = true ->
  in_unit ((p - low) / (high - low)) = true.
Proof.
  intros Hl Hh Hlp Hph.
  assert (in_unit p = true) as Hp.
  { unfold in_unit in *. apply andb_true_iff in Hl as [Hl0 _].
    apply andb_true_iff in Hh as [_ Hh1]. apply andb_true_iff. split.
    - apply (F64Facts.leb_trans _ low); [exact Hl0|]. now apply F64Facts.ltb_leb.
    - now apply (F64Facts.leb_trans _ high). }
  pose proof (Prim2SF_valid low) as VL. pose proof (Prim2SF_valid p) as VP.
  pose proof (Prim2SF_valid high) as VH.
  pose proof (Prim2SF_valid (p - low)) as VN.
  pose proof (Prim2SF_valid (high - low)) as VD.
  rewrite ltb_spec in Hlp. rewrite leb_spec in Hph.
  apply SF_in_unit. rewrite div_spec, sub_spec, sub_spec.
  rewrite sub_spec in VN, VD.
  apply in_unit_SF in Hl, Hp, Hh.
  set (L := Prim2SF low) in *. set (P := Prim2SF p) in *. set (H := Prim2SF high) in *.
  (* the position and the upper key are positive *)
  destruct Hp as [[s EP]|(mP & eP & EP & HeP & BP)].
  { exfalso. rewrite EP in Hlp.
    destruct Hl as [[s' EL]|(mL & eL & EL & _)]; rewrite EL in Hlp; discriminate. }
  destruct Hh as [[s EH]|(mH & eH & EH & HeH & BH)].
  { exfalso. rewrite EP, EH in Hph. discriminate. }
  assert (SFval P <= SFval H) as LPH.
  { rewrite EP, EH. cbn [SFval]. rewrite EP in VP. rewrite EH in VH.
    apply SFcompare_val_le; [exact VP|exact VH|].
    intros C. rewrite EP, EH in Hph. unfold SFleb in Hph. rewrite C in Hph.
    discriminate. }
  assert (SFval L < SFval P) as LLP.
  { destruct Hl as [[s EL]|(mL & eL & EL & _)].
    - rewrite EL, EP. cbn [SFval].
      pose proof (valid_finite _ _ _ (eq_ind _ (fun x => valid_binary x = true) VP _ EP))
        as (He & _).
      apply Z.mul_pos_pos; [lia|]. apply Z.pow_pos_nonneg; lia.
    - rewrite EL, EP. cbn [SFval]. rewrite EL in VL. rewrite EP in VP.
      apply SFcompare_val_lt; [exact VL|exact VP|].
      rewrite EL, EP in Hlp. unfold SFltb in Hlp.
      destruct (SFcompare (S754_finite false mL eL) (S754_finite false mP eP))
        as [[]|]; try discriminate. reflexivity. }
  assert ((exists s, L = S754_zero s) \/
          (exists m e, L = S754_finite false m e /\ e <= 0)) as HL.
  { destruct Hl as [[s EL]|(mL & eL & EL & HeL & _)]; [left; eauto|right; eauto]. }
  destruct (SFsub_rounds P L VP VL (ex_intro _ mP (ex_intro _ eP (conj EP HeP))) HL LLP)
    as (mN & eN & EN & HeN & RN).
  assert (SFval L < SFval H) as LLH by lia.
  destruct (SFsub_rounds H L VH VL (ex_intro _ mH (ex_intro _ eH (conj EH HeH))) HL LLH)
    as (mD & eD & ED & HeD & RD).
  assert (0 < SFval P - SFval L <= SFval H - SFval L) as Hpos by lia.
  pose proof (rounds_mono _ _ _ _ Hpos RN RD) as Mono.
  change (SF64sub P L) with (SFsub prec emax P L) in *.
  change (SF64sub H L) with (SFsub prec emax H L) in *.
  rewrite EN, ED in *.
  destruct (SFdiv_le_one mN eN mD eD VN VD Mono) as [->|(m & e & -> & He & B)].
  - left. reflexivity.
  - right. eauto.
Qed.

(** ** Numbers of bounded magnitude *)

(** A zero, or a finite number of magnitude at most [2 ^ K]. *)
Definition SFsmall (K : Z) (x : spec_float) : Prop :=
  match x with
  | S754_zero _ => True
  | S754_finite _ m e => Zpos m * 2 ^ (e + 1074) <= 2 ^ (K + 1074)
  | _ => False
  end.

Lemma SFsmall_le K K' x : K <= K' -> -1074 <= K -> SFsmall K x -> SFsmall K' x.
Proof.
  intros HK H0. destruct x as [s|s| |s m e]; cbn [SFsmall]; auto.
  intros H. apply Z.le_trans with (2 ^ (K + 1074)); [exact H|].
  apply Z.pow_le_mono_r; lia.
Qed.

Lemma rounds_pow2 j : 0 <= j -> rounds (2 ^ j) (2 ^ j).
Proof.
  intros Hj. unfold rounds.
  assert (Zdigits2 (2 ^ j) = j + 1) as ->.
  { rewrite <- (Z.mul_1_l (2 ^ j)), Zdigits2_shift by lia.
    change (Zdigits2 1) with 1. lia. }
  set (k := Z.max (j + 1 - 53) 0).
  assert (2 ^ j = 2 ^ (j - k) * 2 ^ k) as E.
  { rewrite <- Z.pow_add_r by (unfold k; lia). f_equal. lia. }
  exists (2 ^ (j - k)). split; [|exact E].
  rewrite E at 1. apply nearest_exact. apply Z.pow_pos_nonneg; unfold k; lia.
Qed.

(** A rounded integer of magnitude at most [2 ^ K] stays so. *)
Lemma binary_round_small s x z K :
  -1074 <= z -> -1074 <= K <= 1022 ->
  Zpos x * 2 ^ (z + 1074) <= 2 ^ (K + 1074) ->
  SFsmall K (binary_round prec emax s x z).
Proof.
  intros Hz HK B.
  assert (0 < 2 ^ (z + 1074)) as P by (apply Z.pow_pos_nonneg; lia).
  assert (0 < Zpos x * 2 ^ (z + 1074)) as PV by (apply Z.mul_pos_pos; lia).
  pose proof (Zdigits2_mono _ _ (conj PV B)) as D.
  rewrite Zdigits2_shift in D by lia. cbn [Zdigits2] in D.
  rewrite <- (Z.mul_1_l (2 ^ (K + 1074))), Zdigits2_shift in D by lia.
  change (Zdigits2 1) with 1 in D.
  destruct (binary_round_rounds s x z Hz ltac:(lia)) as (m & e & -> & He & R).
  cbn [SFsmall].
  exact (rounds_mono _ _ _ _ (conj PV B) R (rounds_pow2 (K + 1074) ltac:(lia))).
Qed.

Lemma binary_normalize_small X z K :
  -1074 <= z -> -1074 <= K <= 1022 ->
  Z.abs X * 2 ^ (z + 1074) <= 2 ^ (K + 1074) ->
  SFsmall K (binary_normalize prec emax X z false).
Proof.
  intros Hz HK B. destruct X as [|p|p]; cbn [binary_normalize].
  - exact I.
  - now apply binary_round_small.
  - now apply binary_round_small.
Qed.

(** The aligned mantissas of a sum or a difference. *)
Lemma aligned_small K sx mx ex sy my ey (op : Z -> Z -> Z) :
  (forall a b, Z.abs (op a b) <= Z.abs a + Z.abs b) ->
  valid_binary (S754_finite sx mx ex) = true ->
  valid_binary (S754_finite sy my ey) = true ->
  -1074 <= K <= 1021 ->
  Zpos mx * 2 ^ (ex + 1074) <= 2 ^ (K + 1074) ->
  Zpos my * 2 ^ (ey + 1074) <= 2 ^ (K + 1074) ->
  SFsmall (K + 1)
    (binary_normalize prec emax
       (op (cond_Zopp sx (Zpos (fst (shl_align mx ex (Z.min ex ey)))))
           (cond_Zopp sy (Zpos (fst (shl_align my ey (Z.min ex ey))))))
       (Z.min ex ey) false).
Proof.
  intros Hop Vx Vy HK Bx By.
  apply valid_finite in Vx as (Hex & _). apply valid_finite in Vy as (Hey & _).
  set (ez := Z.min ex ey).
  rewrite !shl_align_fst by (unfold ez; lia).
  apply binary_normalize_small; [unfold ez; lia | lia |].
  assert (0 < 2 ^ (ez + 1074)) as P by (apply Z.pow_pos_nonneg; unfold ez; lia).
  set (A := Zpos mx * 2 ^ (ex - ez)). set (B := Zpos my * 2 ^ (ey - ez)).
  assert (0 < 2 ^ (ex - ez)) as Px by (apply Z.pow_pos_nonneg; unfold ez; lia).
  assert (0 < 2 ^ (ey - ez)) as Py by (apply Z.pow_pos_nonneg; unfold ez; lia).
  assert (0 < A) as PA by (apply Z.mul_pos_pos; lia).
  assert (0 < B) as PB by (apply Z.mul_pos_pos; lia).
  assert (A * 2 ^ (ez + 1074) = Zpos mx * 2 ^ (ex + 1074)) as EA.
  { unfold A. rewrite <- Z.mul_assoc, <- Z.pow_add_r by (unfold ez; lia).
    do 2 f_equal. lia. }
  assert (B * 2 ^ (ez + 1074) = Zpos my * 2 ^ (ey + 1074)) as EB.
  { unfold B. rewrite <- Z.mul_assoc, <- Z.pow_add_r by (unfold ez; lia).
    do 2 f_equal. lia. }
  assert (Z.abs (op (cond_Zopp sx A) (cond_Zopp sy B)) <= A + B) as Habs.
  { eapply Z.le_trans; [apply Hop|].
    destruct sx, sy; cbn [cond_Zopp]; lia. }
  apply Z.le_trans with ((A + B) * 2 ^ (ez + 1074)).
  - apply Z.mul_le_mono_nonneg_r; lia.
  - rewrite Z.mul_add_distr_r, EA, EB.
    replace (K + 1 + 1074) with (1 + (K + 1074)) by lia.
    rewrite (Z.pow_add_r 2 1 (K + 1074)) by lia. change (2 ^ 1) with 2. lia.
Qed.

Lemma SFadd_small K x y :
  valid_binary x = true -> valid_binary y = true -> -1074 <= K <= 1021 ->
  SFsmall K x -> SFsmall K y -> SFsmall (K + 1) (SFadd prec emax x y).
Proof.
  intros Vx Vy HK Sx Sy.
  destruct x as [sx|sx| |sx mx ex], y as [sy|sy| |sy my ey];
    cbn [SFsmall] in Sx, Sy; try contradiction.
  - destruct sx, sy; exact I.
  - cbn [SFadd SFsmall]. apply (SFsmall_le K (K + 1) (S754_finite sy my ey)); [lia|lia|exact Sy].
  - cbn [SFadd SFsmall]. apply (SFsmall_le K (K + 1) (S754_finite sx mx ex)); [lia|lia|exact Sx].
  - cbn [SFadd]. apply (aligned_small K sx mx ex sy my ey Z.add); try assumption.
    intros a b. lia.
Qed.

Lemma SFsub_small K x y :
  valid_binary x = true -> valid_binary y = true -> -1074 <= K <= 1021 ->
  SFsmall K x -> SFsmall K y -> SFsmall (K + 1) (SFsub prec emax x y).
Proof.
  intros Vx Vy HK Sx Sy.
  destruct x as [sx|sx| |sx mx ex], y as [sy|sy| |sy my ey];
    cbn [SFsmall] in Sx, Sy; try contradiction.
  - destruct sx, sy; exact I.
  - cbn [SFsub SFopp]. apply (SFsmall_le K (K + 1) (S754_finite (negb sy) my ey)); [lia|lia|exact Sy].
  - cbn [SFsub SFsmall]. apply (SFsmall_le K (K + 1) (S754_finite sx mx ex)); [lia|lia|exact Sx].
  - cbn [SFsub]. apply (aligned_small K sx mx ex sy my ey Z.sub); try assumption.
    intros a b. lia.
Qed.

(** The product with a number of magnitude at most 1. *)
Lemma SFmul_small K x t :
  valid_binary x = true -> valid_binary t = true -> -1074 <= K <= 970 ->
  SFsmall K x -> SFsmall 0 t -> SFsmall K (SFmul prec emax x t).
Proof.
  intros Vx Vt HK Sx St.
  destruct x as [sx|sx| |sx mx ex], t as [sy|sy| |sy my ey];
    cbn [SFsmall] in Sx, St; try contradiction; try exact I.
  cbn [SFmul].
  apply valid_finite in Vx as (Hex & _). apply valid_finite in Vt as (Hey & _).
  assert (0 < 2 ^ (ex + 1074)) as Px by (apply Z.pow_pos_nonneg; lia).
  assert (0 < 2 ^ (ey + 1074)) as Py by (apply Z.pow_pos_nonneg; lia).
  assert (ex <= K) as LeK.
  { destruct (Z_le_gt_dec ex K) as [L|G]; [exact L|exfalso].
    assert (2 ^ (K + 1074) < 2 ^ (ex + 1074)) by (apply Z.pow_lt_mono_r; lia).
    assert (1 * 2 ^ (ex + 1074) <= Zpos mx * 2 ^ (ex + 1074))
      by (apply Z.mul_le_mono_nonneg_r; lia).
    lia. }
  assert (ey <= 0) as Le0.
  { destruct (Z_le_gt_dec ey 0) as [L|G]; [exact L|exfalso].
    assert (2 ^ (0 + 1074) < 2 ^ (ey + 1074)) by (apply Z.pow_lt_mono_r; lia).
    assert (1 * 2 ^ (ey + 1074) <= Zpos my * 2 ^ (ey + 1074))
      by (apply Z.mul_le_mono_nonneg_r; lia).
    lia. }
  set (e := ex + ey). set (q := Zpos (mx * my)).
  assert (0 < q) as Pq by (unfold q; lia).
  assert (q <= 2 ^ (K - e)) as Bq.
  { assert (0 < 2 ^ (e + 2148)) as P by (apply Z.pow_pos_nonneg; unfold e; lia).
    apply (Z.mul_le_mono_pos_r _ _ (2 ^ (e + 2148)) P).
    rewrite <- (Z.pow_add_r 2 (K - e) (e + 2148)) by (unfold e; lia).
    replace (K - e + (e + 2148)) with ((K + 1074) + (0 + 1074)) by lia.
    rewrite (Z.pow_add_r 2 (K + 1074) (0 + 1074)) by lia.
    replace (q * 2 ^ (e + 2148))
      with ((Zpos mx * 2 ^ (ex + 1074)) * (Zpos my * 2 ^ (ey + 1074))).
    - apply Z.mul_le_mono_nonneg; try lia;
        apply Z.mul_nonneg_nonneg; lia.
    - unfold q, e. rewrite Pos2Z.inj_mul.
      replace (ex + ey + 2148) with ((ex + 1074) + (ey + 1074)) by lia.
      rewrite (Z.pow_add_r 2 (ex + 1074) (ey + 1074)) by lia. ring. }
  pose proof (Zdigits2_le q (K - e) Pq ltac:(unfold e; lia) Bq) as Dq.
  pose proof (Zdigits2_nonneg q) as Dq0.
  set (F := Z.max e (Z.max (Zdigits2 q + e - 53) (-1074))).
  assert (loc_ok loc_Exact 0 1) as LE by reflexivity.
  assert (F <= 970) as HF by (unfold F, e; lia).
  assert (-1074 <= F <= K) as HFK by (unfold F, e; lia).
  assert (e <= F) as HeF by (unfold F; lia).
  destruct (round_aux_value (xorb sx sy) q e loc_Exact 0 1
              ltac:(lia) ltac:(lia) LE HF) as (M & Hn & HM).
  fold F in Hn, HM. rewrite Z.mul_1_r, Z.add_0_r in Hn.
  assert (0 < 2 ^ (F - e)) as PF by (apply Z.pow_pos_nonneg; lia).
  assert (M <= 2 ^ (K - F)) as HMle.
  { apply (nearest_le M q (2 ^ (F - e) * 1) (2 ^ (K - F)) ltac:(lia) Hn).
    rewrite Z.mul_1_r, <- Z.pow_add_r by lia.
    replace (K - F + (F - e)) with (K - e) by lia. exact Bq. }
  change (Zpos mx * Zpos my) with (Zpos (mx * my)). fold q e.
  destruct HM as [[_ ->]|(Mp & m2 & e2 & -> & He2 & Em)]; [exact I|].
  cbn [SFsmall].
  replace (e2 + 1074) with ((e2 - F) + (F + 1074)) by lia.
  rewrite Z.pow_add_r, Z.mul_assoc, Em by lia.
  replace (K + 1074) with ((K - F) + (F + 1074)) by lia.
  rewrite (Z.pow_add_r 2 (K - F) (F + 1074)) by lia.
  apply Z.mul_le_mono_nonneg_r; [|exact HMle].
  apply Z.pow_nonneg. lia.
Qed.

Lemma SFcompare_neg m1 e1 m2 e2 :
  SFcompare (S754_finite true m1 e1) (S754_finite true m2 e2) =
  SFcompare (S754_finite false m2 e2) (S754_finite false m1 e1).
Proof.
  rewrite (F64Facts.SFcompare_sym (S754_finite false m1 e1) (S754_finite false m2 e2)).
  cbn [SFcompare option_map]. destruct (e1 ?= e2); reflexivity.
Qed.

End Round.

(* ================================================================== *)
(** * Lemmas on dicts                                                  *)
(* ================================================================== *)

Lemma bind_ok {A B} (r : result A) (k : A -> result B) b :
  bind r k = Ok b -> exists a, r = Ok a /\ k a = Ok b.
Proof. destruct r as [a|e]; simpl; [eauto | discriminate]. Qed.

Lemma in_unit_ordered k : in_unit k = true -> F64.ordered k = true.
Proof.
  unfold in_unit. intros H. apply andb_true_iff in H as [H _].
  exact (F64Facts.leb_ordered_r _ _ H).
Qed.

Lemma dict_mem_get d k : dict_mem d k = true <-> exists v, dict_get d k = Some v.
Proof.
  unfold dict_mem. destruct (dict_get d k) as [v|]; split; intros H.
  - exists v. reflexivity.
  - reflexivity.
  - discriminate.
  - destruct H as [v H]. discriminate.
Qed.

Lemma dict_mem_existsb d k : dict_mem d k = existsb (fun k' => k' =? k) (keys d).
Proof.
  unfold dict_mem. induction d as [|[k' v] d IH]; simpl; [reflexivity|].
  destruct (k' =? k); [reflexivity | exact IH].
Qed.

Lemma dict_mem_cons k' v d k :
  dict_mem ((k', v) :: d) k = (k' =? k) || dict_mem d k.
Proof. unfold dict_mem. simpl. destruct (k' =? k); reflexivity. Qed.

Lemma dict_get_set_same d k v :
  F64.ordered k = true -> dict_get (dict_set d k v) k = Some v.
Proof.
  intros Hk. induction d as [|[k' v'] d IH]; simpl.
  - unfold F64.ordered in Hk. rewrite Hk. reflexivity.
  - destruct (k' =? k) eqn:E; simpl; rewrite E; [reflexivity | exact IH].
Qed.

Lemma dict_get_set_other d k v k' :
  (k =? k') = false -> dict_get (dict_set d k v) k' = dict_get d k'.
Proof.
  intros Hk. induction d as [|[k0 v0] d IH]; simpl.
  - rewrite Hk. reflexivity.
  - destruct (k0 =? k) eqn:E; simpl.
    + destruct (k0 =? k') eqn:E'; [|reflexivity].
      rewrite F64Facts.eqb_sym in E.
      rewrite (F64Facts.eqb_trans _ _ _ E E') in Hk. discriminate.
    + destruct (k0 =? k'); [reflexivity | exact IH].
Qed.

Lemma dict_get_set_eq d k v k' :
  (k =? k') = true -> dict_get (dict_set d k v) k' = Some v.
Proof.
  intros Hk. induction d as [|[k0 v0] d IH]; simpl.
  - rewrite Hk. reflexivity.
  - destruct (k0 =? k) eqn:E; simpl.
    + rewrite (F64Facts.eqb_trans _ _ _ E Hk). reflexivity.
    + rewrite <- (F64Facts.eqb_eqb_r _ _ k0 Hk), E. exact IH.
Qed.

Lemma dict_mem_set d k v k' :
  dict_mem (dict_set d k v) k' = (k =? k') || dict_mem d k'.
Proof.
  unfold dict_mem. destruct (k =? k') eqn:E.
  - rewrite (dict_get_set_eq d k v k' E). reflexivity.
  - rewrite (dict_get_set_other d k v k' E). reflexivity.
Qed.

Lemma keys_dict_set d k v :
  keys (dict_set d k v) = if dict_mem d k then keys d else keys d ++ [k].
Proof.
  induction d as [|[k' v'] d IH]; simpl; [reflexivity|].
  rewrite dict_mem_cons. destruct (k' =? k); simpl; [reflexivity|].
  rewrite IH. destruct (dict_mem d k); reflexivity.
Qed.

(** A key equal to [k] is in the dict exactly when [k in d]. *)
Lemma dict_mem_In d k :
  dict_mem d k = true <-> exists k', In k' (keys d) /\ (k' =? k) = true.
Proof.
  rewrite dict_mem_existsb, existsb_exists. reflexivity.
Qed.

Lemma dict_mem_eqb d k k' : (k =? k') = true -> dict_mem d k = dict_mem d k'.
Proof.
  intros H. rewrite !dict_mem_existsb.
  induction (keys d) as [|a l IH]; simpl; [reflexivity|].
  rewrite (F64Facts.eqb_eqb_r _ _ a H), IH. reflexivity.
Qed.

Lemma dict_get_eqb d k k' : (k =? k') = true -> dict_get d k = dict_get d k'.
Proof.
  intros H. induction d as [|[a v] d IH]; simpl; [reflexivity|].
  rewrite (F64Facts.eqb_eqb_r _ _ a H), IH. reflexivity.
Qed.

Lemma In_keys_mem d k : In k (keys d) -> F64.ordered k = true -> dict_mem d k = true.
Proof.
  intros Hin Hk. apply dict_mem_In. exists k. split; [exact Hin | exact Hk].
Qed.

(* ================================================================== *)
(** * Lemmas on [sorted]                                               *)
(* ================================================================== *)

Section SortedPerm.
Context {A : Type} (lt : A -> A -> bool).

Lemma insert_perm x l : Permutation (insert lt x l) (x :: l).
Proof.
  induction l as [|y l IH]; simpl; [reflexivity|].
  destruct (lt y x); [|reflexivity].
  rewrite IH. apply perm_swap.
Qed.

Lemma sorted_perm l : Permutation (sorted lt l) l.
Proof.
  induction l as [|x l IH]; simpl; [reflexivity|].
  rewrite insert_perm, IH. reflexivity.
Qed.

Lemma In_sorted x l : In x (sorted lt l) <-> In x l.
Proof.
  split; apply Permutation_in; [|symmetry]; apply sorted_perm.
Qed.
End SortedPerm.

Lemma ordered_keys_In l k : ordered_keys l = true -> In k l -> F64.ordered k = true.
Proof. unfold ordered_keys. rewrite forallb_forall. auto. Qed.

Lemma distinct_keys_cons k l :
  distinct_keys (k :: l) = true ->
  (forall k', In k' l -> (k' =? k) = false) /\ distinct_keys l = true.
Proof.
  simpl. intros H. apply andb_true_iff in H as [H1 H2]. split; [|exact H2].
  intros k' Hin. destruct (k' =? k) eqn:E; [|reflexivity].
  apply negb_true_iff in H1.
  assert (existsb (fun k' => k' =? k) l = true) as X
    by (apply existsb_exists; eauto).
  congruence.
Qed.

Lemma insert_ascending x l :
  F64.ordered x = true -> ordered_keys l = true ->
  (forall y, In y l -> (y =? x) = false) ->
  ascending l -> ascending (insert PrimFloat.ltb x l).
Proof.
  intros Hx. induction l as [|y l IH]; simpl; intros Hl Hne Hs.
  - repeat constructor.
  - apply andb_true_iff in Hl as [Hy Hl].
    inversion Hs as [|? ? Hs' Hall]; subst.
    destruct (y <? x) eqn:E.
    + constructor.
      * apply IH; auto.
      * rewrite Forall_forall in *. intros z Hz.
        apply (Permutation_in _ (insert_perm PrimFloat.ltb x l)) in Hz.
        destruct Hz as [<-|Hz]; auto.
    + assert ((x <? y) = true) as Hxy.
      { apply F64Facts.leb_neq_ltb.
        - apply F64Facts.ltb_total; assumption.
        - rewrite F64Facts.eqb_sym. apply Hne. now left. }
      constructor; [exact Hs|].
      constructor; [exact Hxy|].
      rewrite Forall_forall in *. intros z Hz.
      exact (F64Facts.ltb_trans _ _ _ Hxy (Hall z Hz)).
Qed.

Lemma sorted_ascending l :
  ordered_keys l = true -> distinct_keys l = true ->
  ascending (sorted PrimFloat.ltb l).
Proof.
  induction l as [|x l IH]; simpl; intros Ho Hd.
  - constructor.
  - apply andb_true_iff in Ho as [Hx Ho].
    destruct (distinct_keys_cons _ _ Hd) as [Hne Hd'].
    apply insert_ascending; auto.
    + unfold ordered_keys. apply forallb_forall. intros k Hk.
      apply (ordered_keys_In l k Ho). apply (In_sorted PrimFloat.ltb). exact Hk.
    + intros y Hy. apply Hne. apply (In_sorted PrimFloat.ltb). exact Hy.
Qed.

Lemma ascending_head_lt a l k : ascending (a :: l) -> In k l -> (a <? k) = true.
Proof.
  intros Hs Hin. inversion Hs as [|? ? _ Hall]; subst.
  rewrite Forall_forall in Hall. auto.
Qed.

Lemma ascending_tail a l : ascending (a :: l) -> ascending l.
Proof. intros Hs. now inversion Hs. Qed.

Lemma ascending_head_le a l k :
  F64.ordered a = true -> ascending (a :: l) -> In k (a :: l) -> (a <=? k) = true.
Proof.
  intros Ha Hs [<-|Hin].
  - apply F64Facts.leb_refl, Ha.
  - apply F64Facts.ltb_leb. exact (ascending_head_lt _ _ _ Hs Hin).
Qed.

(* ================================================================== *)
(** * The scan of [get]                                                *)
(* ================================================================== *)

Lemma truediv_sub p low high :
  (low <? high) = true ->
  truediv (p - low) (high - low) = Ok ((p - low) / (high - low)).
Proof.
  intros H. unfold truediv. rewrite (Round.sub_lt_nonzero _ _ H). reflexivity.
Qed.

(** From a key below the parameter the loop walks to the first key that is
    not below it, and blends the two neighbours. *)
Lemma get_loop_finds g p prev rest :
  F64.ordered p = true ->
  ascending (prev :: rest) ->
  (prev <? p) = true ->
  (exists k, In k rest /\ (p <=? k) = true) ->
  exists low high,
    In low (prev :: rest) /\ In high (prev :: rest) /\
    (p <=? high) = true /\
    (forall k, In k (prev :: rest) -> (p <=? k) = true -> (high <=? k) = true) /\
    (low <? high) = true /\
    (forall k, In k (prev :: rest) -> (k <? high) = true -> (k <=? low) = true) /\
    get_loop g p prev rest =
      (vl <- dict_getitem g low;;
       vh <- dict_getitem g high;;
       lerp vl vh ((p - low) / (high - low))).
Proof.
  intros Hp. revert prev. induction rest as [|cur rest IH]; intros prev Hs Hprev [k [Hk Hpk]].
  - destruct Hk.
  - assert ((prev <? cur) = true) as Hpc
      by (apply (ascending_head_lt _ _ _ Hs); now left).
    assert (F64.ordered prev = true) as Oprev by exact (F64Facts.ltb_ordered_l _ _ Hpc).
    assert (F64.ordered cur = true) as Ocur by exact (F64Facts.ltb_ordered_r _ _ Hpc).
    assert (forall k, (p <=? k) = true -> k <> prev) as Nprev.
    { intros k0 H0 ->. rewrite (F64Facts.ltb_not_leb _ _ Hprev) in H0. discriminate. }
    destruct (p <=? cur) eqn:E.
    + exists prev, cur. repeat split.
      * now left.
      * right; now left.
      * exact E.
      * intros k0 [<-|[<-|Hin]] H0.
        -- now elim (Nprev prev H0).
        -- apply F64Facts.leb_refl, Ocur.
        -- apply F64Facts.ltb_leb. apply (ascending_head_lt cur rest); auto.
           exact (ascending_tail _ _ Hs).
      * exact Hpc.
      * intros k0 [<-|[<-|Hin]] H0.
        -- apply F64Facts.leb_refl, Oprev.
        -- rewrite F64Facts.ltb_irrefl in H0. discriminate.
        -- assert ((cur <? k0) = true) as X.
           { apply (ascending_head_lt cur rest); auto. exact (ascending_tail _ _ Hs). }
           rewrite (F64Facts.ltb_antisym _ _ X) in H0. discriminate.
      * simpl. unfold F64.geb. rewrite E.
        destruct (dict_getitem g prev) as [vl|]; simpl; [|reflexivity].
        destruct (dict_getitem g cur) as [vh|]; simpl; [|reflexivity].
        rewrite (truediv_sub p _ _ Hpc). reflexivity.
    + assert ((cur <? p) = true) as Hcp by (apply F64Facts.leb_total; assumption).
      destruct Hk as [<-|Hk]; [congruence|].
      destruct (IH cur (ascending_tail _ _ Hs) Hcp (ex_intro _ k (conj Hk Hpk)))
        as (low & high & Hlow & Hhigh & Hph & Hmin & Hlh & Hpred & Hget).
      exists low, high. repeat split; auto.
      * now right.
      * now right.
      * intros k0 [<-|Hin] H0; [now elim (Nprev prev H0) | auto].
      * intros k0 [<-|Hin] H0; [|auto].
        apply F64Facts.ltb_leb. apply (F64Facts.ltb_leb_trans _ cur); [exact Hpc|].
        apply (ascending_head_le cur rest); auto. exact (ascending_tail _ _ Hs).
      * simpl. unfold F64.geb. rewrite E. exact Hget.
Qed.

Lemma LineGraph_ok_parts g :
  LineGraph_ok g = true ->
  dict_mem g 0 = true /\ dict_mem g 1 = true /\
  ordered_keys (keys g) = true /\ distinct_keys (keys g) = true.
Proof.
  unfold LineGraph_ok. intros H.
  apply andb_true_iff in H as [H H4]. apply andb_true_iff in H as [H H3].
  apply andb_true_iff in H as [H1 H2]. auto.
Qed.

Lemma point_locations_ascending g :
  LineGraph_ok g = true -> ascending (point_locations g).
Proof.
  intros H. destruct (LineGraph_ok_parts g H) as (_ & _ & Ho & Hd).
  apply sorted_ascending; assumption.
Qed.

Lemma In_point_locations g k : In k (point_locations g) <-> In k (keys g).
Proof. apply In_sorted. Qed.

Lemma dict_get_In g k :
  In k (keys g) -> F64.ordered k = true -> exists v, dict_get g k = Some v.
Proof. intros H O. apply dict_mem_get. exact (In_keys_mem g k H O). Qed.

Lemma dict_mem_false_neq g p k :
  dict_mem g p = false -> In k (keys g) -> (k =? p) = false.
Proof.
  intros Hp Hin. destruct (k =? p) eqn:E; [|reflexivity].
  assert (dict_mem g p = true) by (apply dict_mem_In; eauto). congruence.
Qed.

(** What [get] returns between two keys. *)
Lemma get_between g p :
  LineGraph_ok g = true -> in_unit p = true -> dict_mem g p = false ->
  exists low high v_low v_high,
    In low (keys g) /\ In high (keys g) /\
    (p <=? high) = true /\
    (forall k, In k (keys g) -> (p <=? k) = true -> (high <=? k) = true) /\
    (low <? high) = true /\
    (forall k, In k (keys g) -> (k <? high) = true -> (k <=? low) = true) /\
    dict_get g low = Some v_low /\ dict_get g high = Some v_high /\
    get g (VFloat p) = lerp v_low v_high ((p - low) / (high - low)).
Proof.
  intros Hok Hu Hp.
  destruct (LineGraph_ok_parts g Hok) as (H0 & H1 & Ho & Hd).
  pose proof (point_locations_ascending g Hok) as Hs.
  unfold in_unit in Hu. apply andb_true_iff in Hu as [Hp0 Hp1].
  assert (F64.ordered p = true) as Op by exact (F64Facts.leb_ordered_r _ _ Hp0).
  apply dict_mem_In in H0 as (k0 & Hk0 & E0).
  apply dict_mem_In in H1 as (k1 & Hk1 & E1).
  unfold get. cbn [py_float bind].
  assert (dict_get g p = None) as Hnone.
  { unfold dict_mem in Hp. destruct (dict_get g p); [discriminate | reflexivity]. }
  rewrite Hnone.
  destruct (point_locations g) as [|p0 rest] eqn:Epl.
  { apply In_point_locations in Hk0. rewrite Epl in Hk0. destruct Hk0. }
  assert (forall k, In k (p0 :: rest) <-> In k (keys g)) as Hin
    by (intros k; rewrite <- Epl; apply In_point_locations).
  assert (F64.ordered p0 = true) as Op0
    by (apply (ordered_keys_In _ _ Ho), Hin; now left).
  assert ((p0 <? p) = true) as Hp0p.
  { apply F64Facts.leb_neq_ltb.
    - apply (F64Facts.leb_trans _ k0).
      + apply (ascending_head_le p0 rest); auto. apply Hin, Hk0.
      + rewrite (F64Facts.eqb_leb_l _ _ p E0). exact Hp0.
    - apply (dict_mem_false_neq g); auto. apply Hin. now left. }
  assert ((p <=? k1) = true) as Hpk1
    by (rewrite (F64Facts.eqb_leb_r _ _ p E1); exact Hp1).
  assert (In k1 rest) as Hk1r.
  { apply Hin in Hk1. destruct Hk1 as [<-|Hk1]; [|exact Hk1].
    rewrite (F64Facts.ltb_not_leb _ _ Hp0p) in Hpk1. discriminate. }
  destruct (get_loop_finds g p p0 rest Op Hs Hp0p (ex_intro _ k1 (conj Hk1r Hpk1)))
    as (low & high & Hlow & Hhigh & Hph & Hmin & Hlh & Hpred & Hget).
  apply Hin in Hlow. apply Hin in Hhigh.
  destruct (dict_get_In g low Hlow (F64Facts.ltb_ordered_l _ _ Hlh)) as [vl Hvl].
  destruct (dict_get_In g high Hhigh (F64Facts.ltb_ordered_r _ _ Hlh)) as [vh Hvh].
  exists low, high, vl, vh. repeat split; auto.
  - intros k Hk. apply Hmin, Hin, Hk.
  - intros k Hk. apply Hpred, Hin, Hk.
  - rewrite Hget. unfold dict_getitem. rewrite Hvl, Hvh. reflexivity.
Qed.

(* ================================================================== *)
(** * The invariant is established and kept                            *)
(* ================================================================== *)

Lemma distinct_keys_snoc l k :
  distinct_keys l = true -> existsb (fun k' => k' =? k) l = false ->
  distinct_keys (l ++ [k]) = true.
Proof.
  induction l as [|a l IH]; simpl; intros Hd Hk; [reflexivity|].
  apply andb_true_iff in Hd as [Ha Hd]. apply orb_false_iff in Hk as [Hak Hk].
  rewrite (IH Hd Hk), andb_true_r. rewrite existsb_app. simpl.
  apply negb_true_iff in Ha. rewrite Ha, F64Facts.eqb_sym, Hak. reflexivity.
Qed.

Lemma dict_set_distinct d k v :
  distinct_keys (keys d) = true -> distinct_keys (keys (dict_set d k v)) = true.
Proof.
  intros H. rewrite keys_dict_set. destruct (dict_mem d k) eqn:E; [exact H|].
  apply distinct_keys_snoc; [exact H|]. rewrite <- dict_mem_existsb. exact E.
Qed.

Lemma dict_set_ordered d k v :
  F64.ordered k = true -> ordered_keys (keys d) = true ->
  ordered_keys (keys (dict_set d k v)) = true.
Proof.
  intros Hk H. rewrite keys_dict_set. destruct (dict_mem d k); [exact H|].
  unfold ordered_keys. rewrite forallb_app. simpl.
  unfold ordered_keys in H. rewrite H, Hk. reflexivity.
Qed.

Lemma dict_set_unit d k v :
  in_unit k = true -> unit_keys d = true -> unit_keys (dict_set d k v) = true.
Proof.
  intros Hk H. unfold unit_keys. rewrite keys_dict_set.
  destruct (dict_mem d k); [exact H|].
  rewrite forallb_app. simpl. unfold unit_keys in H. rewrite H, Hk. reflexivity.
Qed.

Lemma unit_keys_ordered d : unit_keys d = true -> ordered_keys (keys d) = true.
Proof.
  unfold unit_keys, ordered_keys. rewrite !forallb_forall.
  intros H k Hk. apply in_unit_ordered, H, Hk.
Qed.

Lemma dict_set_mem_mono d k v e :
  dict_mem d e = true -> dict_mem (dict_set d k v) e = true.
Proof. intros H. rewrite dict_mem_set, H. apply orb_true_r. Qed.

Lemma float_keys_distinct items acc d :
  float_keys items acc = Ok d ->
  distinct_keys (keys acc) = true -> distinct_keys (keys d) = true.
Proof.
  revert acc. induction items as [|[key v] items IH]; simpl; intros acc H Hd.
  - inversion H; subst. exact Hd.
  - apply bind_ok in H as (k & _ & H). apply (IH _ H). now apply dict_set_distinct.
Qed.

Lemma LineGraph_init_eq points :
  LineGraph_init points =
    (d <- float_keys (match points with Some items => items | None => [] end) [];;
     Ok (with_default 1 (with_default 0 d))).
Proof. reflexivity. Qed.

Lemma with_default_mem k d : F64.ordered k = true -> dict_mem (with_default k d) k = true.
Proof.
  intros Hk. unfold with_default. destruct (dict_mem d k) eqn:E; [exact E|].
  rewrite dict_mem_set. unfold F64.ordered in Hk. rewrite Hk. reflexivity.
Qed.

Lemma with_default_mono k d e : dict_mem d e = true -> dict_mem (with_default k d) e = true.
Proof.
  intros H. unfold with_default. destruct (dict_mem d k); [exact H|].
  now apply dict_set_mem_mono.
Qed.

Lemma with_default_distinct k d :
  distinct_keys (keys d) = true -> distinct_keys (keys (with_default k d)) = true.
Proof.
  intros H. unfold with_default. destruct (dict_mem d k); [exact H|].
  now apply dict_set_distinct.
Qed.

Lemma with_default_ordered k d :
  F64.ordered k = true -> ordered_keys (keys d) = true ->
  ordered_keys (keys (with_default k d)) = true.
Proof.
  intros Hk H. unfold with_default. destruct (dict_mem d k); [exact H|].
  now apply dict_set_ordered.
Qed.

Lemma with_default_unit k d :
  in_unit k = true -> unit_keys d = true -> unit_keys (with_default k d) = true.
Proof.
  intros Hk H. unfold with_default. destruct (dict_mem d k); [exact H|].
  now apply dict_set_unit.
Qed.

(** The value the constructor leaves at [k]: the supplied one, or [0.0]. *)
Lemma with_default_get k d :
  F64.ordered k = true ->
  dict_get (with_default k d) k =
    Some (match dict_get d k with Some v => v | None => VFloat 0 end).
Proof.
  intros Hk. unfold with_default, dict_mem.
  destruct (dict_get d k) as [v|] eqn:E; [exact E|].
  now apply dict_get_set_same.
Qed.

Lemma with_default_get_other k d e :
  (k =? e) = false -> dict_get (with_default k d) e = dict_get d e.
Proof.
  intros H. unfold with_default. destruct (dict_mem d k); [reflexivity|].
  now apply dict_get_set_other.
Qed.

Lemma LineGraph_init_has01 points g :
  LineGraph_init points = Ok g ->
  dict_mem g 0 = true /\ dict_mem g 1 = true /\ distinct_keys (keys g) = true.
Proof.
  rewrite LineGraph_init_eq. intros H. apply bind_ok in H as (d & Hd & H).
  inversion H; subst; clear H. repeat split.
  - apply with_default_mono, with_default_mem. reflexivity.
  - apply with_default_mem. reflexivity.
  - apply with_default_distinct, with_default_distinct.
    exact (float_keys_distinct _ _ _ Hd eq_refl).
Qed.

Lemma set_inv g parameter v g' :
  set g parameter v = Ok g' ->
  exists k, py_float parameter = Ok k /\ in_unit k = true /\ g' = dict_set g k v.
Proof.
  unfold set. intros H. apply bind_ok in H as (k & Hk & H).
  exists k. fold (in_unit k) in H. destruct (in_unit k); [|discriminate].
  inversion H. auto.
Qed.

Lemma lerp_loop_inv (P : LineGraph -> Prop) self other t :
  (forall g k v, in_unit k = true -> P g -> P (dict_set g k v)) ->
  forall pts res r, lerp_loop self other t pts res = Ok r -> P res -> P r.
Proof.
  intros Hstep pts. induction pts as [|point pts IH]; simpl; intros res r H Hres.
  - inversion H; subst. exact Hres.
  - apply bind_ok in H as (a & _ & H). apply bind_ok in H as (b & _ & H).
    apply bind_ok in H as (v & _ & H). apply bind_ok in H as (res' & Hset & H).
    apply set_inv in Hset as (k & Hk & Hu & ->). apply (IH _ _ H).
    apply Hstep; assumption.
Qed.

Lemma LineGraph_lerp_inv (P : LineGraph -> Prop) self other t r :
  (forall g k v, in_unit k = true -> P g -> P (dict_set g k v)) ->
  (forall g, LineGraph_init None = Ok g -> P g) ->
  LineGraph_lerp self other t = Ok r -> P r.
Proof.
  intros Hstep Hinit H. unfold LineGraph_lerp in H.
  apply bind_ok in H as (res & Hres & H).
  exact (lerp_loop_inv P self other t Hstep _ _ _ H (Hinit _ Hres)).
Qed.

(** Every graph has the points 0 and 1, and distinct keys. *)
Lemma graph_has01 g :
  graph g ->
  dict_mem g 0 = true /\ dict_mem g 1 = true /\ distinct_keys (keys g) = true.
Proof.
  induction 1 as [points g H | g parameter v g' _ IH H | g1 g2 t g _ _ _ _ H].
  - exact (LineGraph_init_has01 _ _ H).
  - apply set_inv in H as (k & _ & _ & ->). destruct IH as (H0 & H1 & Hd).
    repeat split; auto using dict_set_mem_mono, dict_set_distinct.
  - revert H.
    apply (LineGraph_lerp_inv (fun g => dict_mem g 0 = true /\ dict_mem g 1 = true /\
                                        distinct_keys (keys g) = true)).
    + intros g' k v _ (H0 & H1 & Hd).
      repeat split; auto using dict_set_mem_mono, dict_set_distinct.
    + intros g'. apply LineGraph_init_has01.
Qed.

(** A graph without NaN keys satisfies the invariant. *)
Lemma graph_ok g : graph g -> ordered_keys (keys g) = true -> LineGraph_ok g = true.
Proof.
  intros H Ho. destruct (graph_has01 g H) as (H0 & H1 & Hd).
  unfold LineGraph_ok. rewrite H0, H1, Ho, Hd. reflexivity.
Qed.

(** The result of [lerp] has its keys in the unit interval. *)
Lemma LineGraph_lerp_unit self other t r :
  LineGraph_lerp self other t = Ok r -> unit_keys r = true.
Proof.
  apply (LineGraph_lerp_inv (fun g => unit_keys g = true)).
  - intros g k v Hk H. now apply dict_set_unit.
  - intros g H. inversion H. reflexivity.
Qed.

(* ================================================================== *)
(** * The loop of [LineGraph.lerp]                                     *)
(* ================================================================== *)

(** [get] does not tell equal parameters apart. *)
Lemma get_eqb g k k' :
  dict_mem g 0 = true -> (k' =? k) = true -> get g (VFloat k') = get g (VFloat k).
Proof.
  intros H0 E. destruct (F64Facts.eqb_eq_or_zero _ _ E) as [->|[Z' Z]]; [reflexivity|].
  unfold get. cbn [py_float bind].
  rewrite (dict_get_eqb g _ _ Z'), (dict_get_eqb g _ _ Z).
  apply dict_mem_get in H0 as [v Hv]. rewrite Hv. reflexivity.
Qed.

Lemma lerp_loop_get self other t pts :
  forall res r, lerp_loop self other t pts res = Ok r ->
  forall k,
    (existsb (fun k' => k' =? k) pts = false /\ dict_get r k = dict_get res k) \/
    (exists k' v, In k' pts /\ (k' =? k) = true /\
                  blended self other t k' v /\ dict_get r k = Some v).
Proof.
  induction pts as [|point pts IH]; simpl; intros res r H k.
  - inversion H; subst. left. auto.
  - apply bind_ok in H as (a & Ha & H). apply bind_ok in H as (b & Hb & H).
    apply bind_ok in H as (v & Hv & H). apply bind_ok in H as (res' & Hset & H).
    apply set_inv in Hset as (p & Hp & Hu & ->). cbn in Hp. inversion Hp; subst p.
    destruct (IH _ _ H k) as [[Hno Hget] | (k' & v' & Hin & E & Hb' & Hget)].
    + destruct (point =? k) eqn:E.
      * right. exists point, v. repeat split; auto.
        -- exists a, b. auto.
        -- rewrite Hget. now apply dict_get_set_eq.
      * left. split; [exact Hno|]. rewrite Hget. now apply dict_get_set_other.
    + right. exists k', v'. auto.
Qed.

Lemma lerp_loop_mem self other t pts :
  forall res r, lerp_loop self other t pts res = Ok r ->
  forall k, dict_mem r k = dict_mem res k || existsb (fun k' => k' =? k) pts.
Proof.
  induction pts as [|point pts IH]; simpl; intros res r H k.
  - inversion H; subst. now rewrite orb_false_r.
  - apply bind_ok in H as (a & Ha & H). apply bind_ok in H as (b & Hb & H).
    apply bind_ok in H as (v & Hv & H). apply bind_ok in H as (res' & Hset & H).
    apply set_inv in Hset as (p & Hp & Hu & ->). cbn in Hp. inversion Hp; subst p.
    rewrite (IH _ _ H k), dict_mem_set.
    destruct (point =? k), (dict_mem res k); reflexivity.
Qed.

Lemma lerp_loop_ok self other t pts :
  (forall k, In k pts -> in_unit k = true /\ exists v, blended self other t k v) ->
  forall res, exists r, lerp_loop self other t pts res = Ok r.
Proof.
  induction pts as [|point pts IH]; simpl; intros Hall res.
  - eauto.
  - destruct (Hall point (or_introl eq_refl)) as (Hu & v & a & b & Ha & Hb & Hv).
    rewrite Ha, Hb. cbn [bind]. rewrite Hv. cbn [bind].
    unfold set. cbn [py_float bind]. fold (in_unit point). rewrite Hu. cbn [bind].
    apply IH. intros k Hk. apply Hall. now right.
Qed.

Lemma existsb_point_locations g k :
  existsb (fun k' => k' =? k) (point_locations g) = dict_mem g k.
Proof.
  rewrite dict_mem_existsb. apply eq_true_iff_eq. rewrite !existsb_exists.
  split; intros (k' & Hin & E); exists k'; split; auto; now apply In_point_locations.
Qed.

Lemma init_None_mem g k :
  LineGraph_init None = Ok g -> dict_mem g k = (0 =? k) || (1 =? k).
Proof.
  intros H. inversion H; subst. unfold dict_mem. simpl.
  destruct (0 =? k); [reflexivity|]. destruct (1 =? k); reflexivity.
Qed.

(** The keys of the result are the keys of either graph. *)
Lemma LineGraph_lerp_mem g1 g2 t r :
  dict_mem g1 0 = true -> dict_mem g1 1 = true ->
  LineGraph_lerp g1 g2 t = Ok r ->
  forall k, dict_mem r k = dict_mem g1 k || dict_mem g2 k.
Proof.
  intros H0 H1 H k. unfold LineGraph_lerp in H.
  apply bind_ok in H as (res & Hres & H).
  rewrite (lerp_loop_mem _ _ _ _ _ _ H k), existsb_app, !existsb_point_locations.
  rewrite (init_None_mem _ k Hres).
  destruct (0 =? k) eqn:E0.
  - rewrite <- (dict_mem_eqb g1 _ _ E0), H0. reflexivity.
  - destruct (1 =? k) eqn:E1; [|reflexivity].
    rewrite <- (dict_mem_eqb g1 _ _ E1), H1. reflexivity.
Qed.

(** The value of the result at each of its keys is the blend of what the
    two graphs return there. *)
Lemma LineGraph_lerp_get g1 g2 t r :
  dict_mem g1 0 = true -> dict_mem g1 1 = true -> dict_mem g2 0 = true ->
  LineGraph_lerp g1 g2 t = Ok r ->
  forall k, dict_mem r k = true ->
  exists v, blended g1 g2 t k v /\ get r (VFloat k) = Ok v.
Proof.
  intros H0 H1 H0' H k Hk.
  pose proof (LineGraph_lerp_mem g1 g2 t r H0 H1 H k) as Hmem.
  unfold LineGraph_lerp in H. apply bind_ok in H as (res & Hres & H).
  destruct (lerp_loop_get _ _ _ _ _ _ H k)
    as [[Hno _] | (k' & v & _ & E & (a & b & Ha & Hb & Hv) & Hget)].
  - rewrite existsb_app, !existsb_point_locations in Hno. congruence.
  - exists v. split.
    + exists a, b. rewrite <- (get_eqb g1 k k' H0 E), <- (get_eqb g2 k k' H0' E). auto.
    + unfold get. cbn [py_float bind]. rewrite Hget. reflexivity.
Qed.

(* ================================================================== *)
(** * Graphs of floats                                                 *)
(* ================================================================== *)

Lemma dict_get_scalar g k v :
  scalar_graph g = true -> dict_get g k = Some v -> is_float v = true.
Proof.
  induction g as [|[k' v'] g IH]; simpl; intros Hs H; [discriminate|].
  apply andb_true_iff in Hs as [Hv Hs]. destruct (k' =? k).
  - inversion H; subst. exact Hv.
  - exact (IH Hs H).
Qed.

Lemma lerp_floats a b t :
  is_float a = true -> is_float b = true -> exists x, lerp a b t = Ok (VFloat x).
Proof. destruct a, b; simpl; try discriminate. eauto. Qed.

Lemma get_scalar g p :
  LineGraph_ok g = true -> scalar_graph g = true -> in_unit p = true ->
  exists x, get g (VFloat p) = Ok (VFloat x).
Proof.
  intros Hok Hs Hu. destruct (dict_mem g p) eqn:E.
  - apply dict_mem_get in E as [v Hv]. unfold get. cbn [py_float bind]. rewrite Hv.
    pose proof (dict_get_scalar g p v Hs Hv) as F. destruct v; try discriminate. eauto.
  - destruct (get_between g p Hok Hu E)
      as (low & high & vl & vh & _ & _ & _ & _ & _ & _ & Hl & Hh & ->).
    apply lerp_floats; eapply dict_get_scalar; eauto.
Qed.

(** On graphs of floats with keys in the unit interval [lerp] returns. *)
Lemma LineGraph_lerp_scalar g1 g2 t :
  LineGraph_ok g1 = true -> scalar_graph g1 = true -> unit_keys g1 = true ->
  LineGraph_ok g2 = true -> scalar_graph g2 = true -> unit_keys g2 = true ->
  exists r, LineGraph_lerp g1 g2 t = Ok r.
Proof.
  intros O1 S1 U1 O2 S2 U2. unfold LineGraph_lerp.
  change (LineGraph_init None) with (@Ok LineGraph [(0, VFloat 0); (1, VFloat 0)]).
  cbn [bind]. apply lerp_loop_ok. intros k Hk.
  assert (in_unit k = true) as Hu.
  { apply in_app_or in Hk as [Hk|Hk]; apply In_point_locations in Hk.
    - unfold unit_keys in U1. rewrite forallb_forall in U1. auto.
    - unfold unit_keys in U2. rewrite forallb_forall in U2. auto. }
  split; [exact Hu|].
  destruct (get_scalar g1 k O1 S1 Hu) as [x Hx].
  destruct (get_scalar g2 k O2 S2 Hu) as [y Hy].
  exists (VFloat ((y - x) * t + x)), (VFloat x), (VFloat y). auto.
Qed.

Lemma is_finite_sf x :
  is_finite x = true ->
  match Prim2SF x with S754_zero _ | S754_finite _ _ _ => True | _ => False end.
Proof.
  unfold is_finite, F64.ordered, is_inf. rewrite !eqb_spec.
  change (Prim2SF infinity) with (S754_infinity false).
  change (Prim2SF neg_infinity) with (S754_infinity true).
  destruct (Prim2SF x) as [[]|[]| |[] m e]; simpl; try discriminate; trivial.
Qed.

(** At [t = 0.0] the blend of two floats is the first one, as long as
    their difference does not overflow. *)
Lemma blend_zero x y :
  F64.ordered x = true -> is_finite (y - x) = true ->
  ((y - x) * 0 + x =? x) = true.
Proof.
  intros Ox Hf. apply is_finite_sf in Hf.
  unfold F64.ordered in Ox. rewrite eqb_spec in Ox.
  rewrite eqb_spec, add_spec, mul_spec.
  change (Prim2SF 0) with (S754_zero false).
  destruct (Prim2SF (y - x)) as [[]|[]| |[] m e]; try contradiction;
    destruct (Prim2SF x) as [[]|[]| |[] m' e']; try discriminate; try reflexivity;
    exact Ox.
Qed.

(** Above every key the scan finds nothing. *)
Lemma get_loop_none g p rest :
  (forall k, In k rest -> (p <=? k) = false) ->
  forall prev, get_loop g p prev rest = Raise KeyError.
Proof.
  induction rest as [|cur rest IH]; simpl; intros H prev; [reflexivity|].
  unfold F64.geb. rewrite (H cur (or_introl eq_refl)). apply IH. auto.
Qed.

Lemma get_above g p :
  (forall k, In k (keys g) -> (k <? p) = true) ->
  get g (VFloat p) = Raise KeyError.
Proof.
  intros H. unfold get. cbn [py_float bind].
  assert (dict_get g p = None) as ->.
  { destruct (dict_get g p) eqn:E; [|reflexivity].
    assert (dict_mem g p = true) as M by (apply dict_mem_get; eauto).
    apply dict_mem_In in M as (k & Hk & Ek).
    rewrite (F64Facts.ltb_neqb _ _ (H k Hk)) in Ek. discriminate. }
  destruct (point_locations g) as [|p0 rest] eqn:E; [reflexivity|].
  apply get_loop_none. intros k Hk. apply F64Facts.ltb_not_leb, H.
  apply In_point_locations. rewrite E. now right.
Qed.

(* ================================================================== *)
(** * The clamp of [BarbParameters]                                    *)
(* ================================================================== *)

(** The middle of the sorted triple, by the two comparisons the sort makes. *)
Lemma clamp01_cases x :
  clamp01 x =
    if number_ltb (Int 1) (Float x) then Int 1
    else if number_ltb (Float x) (Int 0) then Int 0
    else Float x.
Proof.
  unfold clamp01, sorted. cbn [fold_right insert].
  destruct (number_ltb (Int 1) (Float x)); cbn [insert].
  - reflexivity.
  - destruct (number_ltb (Float x) (Int 0)); reflexivity.
Qed.

Lemma ordered_not_nan x : F64.ordered x = true -> Prim2SF x <> S754_nan.
Proof.
  unfold F64.ordered. rewrite eqb_spec. intros H E. rewrite E in H. discriminate.
Qed.

Lemma Z_SFcompare_some n sf : sf <> S754_nan -> exists c, Z_SFcompare n sf = Some c.
Proof. destruct sf; simpl; eauto. congruence. Qed.

Lemma number_not_ltb_leb n x :
  F64.ordered x = true ->
  number_ltb (Float x) (Int n) = false -> number_leb (Int n) (Float x) = true.
Proof.
  intros Ox. unfold number_ltb, number_leb, number_compare.
  destruct (Z_SFcompare_some n _ (ordered_not_nan x Ox)) as [c ->].
  destruct c; simpl; congruence.
Qed.

Lemma number_not_gtb_leb n x :
  F64.ordered x = true ->
  number_ltb (Int n) (Float x) = false -> number_leb (Float x) (Int n) = true.
Proof.
  intros Ox. unfold number_ltb, number_leb, number_compare.
  destruct (Z_SFcompare_some n _ (ordered_not_nan x Ox)) as [c ->].
  destruct c; simpl; congruence.
Qed.

(** A float below the int 0 is below the int 1. *)
Lemma Z_SFcompare_0_1 sf : Z_SFcompare 0 sf = Some Gt -> Z_SFcompare 1 sf = Some Gt.
Proof.
  destruct sf as [s|s| |s m e]; unfold Z_SFcompare; try (cbn; congruence).
  intros H. injection H as H. f_equal.
  destruct e as [|p|p]; rewrite Z.compare_gt_iff.
  - apply (proj1 (Z.compare_gt_iff 0 (cond_Zopp s (Z.pos m) * 2 ^ 0))) in H. lia.
  - apply (proj1 (Z.compare_gt_iff 0 (cond_Zopp s (Z.pos m) * 2 ^ Z.pos p))) in H. lia.
  - apply (proj1 (Z.compare_gt_iff 0 (cond_Zopp s (Z.pos m)))) in H.
    assert (0 < 2 ^ Z.pos p)%Z as P by (now apply Z.pow_pos_nonneg). lia.
Qed.

(** A position that is a number is stored inside the unit interval. *)
Lemma clamp01_unit x :
  F64.ordered x = true ->
  number_leb (Int 0) (clamp01 x) = true /\ number_leb (clamp01 x) (Int 1) = true.
Proof.
  intros Ox. rewrite clamp01_cases.
  destruct (number_ltb (Int 1) (Float x)) eqn:E1; [split; reflexivity|].
  destruct (number_ltb (Float x) (Int 0)) eqn:E0; [split; reflexivity|].
  split; [now apply number_not_ltb_leb | now apply number_not_gtb_leb].
Qed.

Lemma BarbParameters_init_eq position length start_angle end_angle x l :
  py_float position = Ok x -> py_float length = Ok l ->
  BarbParameters_init position length start_angle end_angle =
    Ok (VBarb (value_of_number (clamp01 x)) (VFloat l) start_angle end_angle).
Proof. intros Hx Hl. unfold BarbParameters_init. rewrite Hx, Hl. reflexivity. Qed.

(** [lerp] on a [BarbParameters] is its method. *)
Lemma lerp_VBarb p l s e b t :
  lerp (VBarb p l s e) b t = BarbParameters_lerp (VBarb p l s e) b t.
Proof. reflexivity. Qed.

Lemma lerp_number_attr n b t :
  (exists y, n = Float y /\ exists z, b = VFloat z) \/
  lerp (value_of_number n) b t = Raise AttributeError.
Proof.
  destruct n as [z|y]; simpl; [now right|].
  destruct b; simpl; eauto.
Qed.

(* ================================================================== *)
(** * The order of insertion does not matter                           *)
(* ================================================================== *)

Lemma existsb_perm {A} (f : A -> bool) l l' :
  Permutation l l' -> existsb f l = existsb f l'.
Proof.
  induction 1; simpl; try congruence.
  destruct (f x), (f y); reflexivity.
Qed.

Lemma forallb_perm {A} (f : A -> bool) l l' :
  Permutation l l' -> forallb f l = forallb f l'.
Proof.
  induction 1; simpl; try congruence.
  destruct (f x), (f y); reflexivity.
Qed.

Lemma distinct_keys_perm l l' :
  Permutation l l' -> distinct_keys l = distinct_keys l'.
Proof.
  induction 1 as [|x l l' HP IH|x y l|l l' l'' _ IH1 _ IH2]; simpl.
  - reflexivity.
  - rewrite IH, (existsb_perm _ _ _ HP). reflexivity.
  - rewrite (F64Facts.eqb_sym x y).
    destruct (y =? x), (existsb (fun k' => k' =? x) l),
      (existsb (fun k' => k' =? y) l); reflexivity.
  - congruence.
Qed.

Lemma dict_get_perm g g' k :
  Permutation g g' -> distinct_keys (keys g) = true -> dict_get g k = dict_get g' k.
Proof.
  induction 1 as [|[a v] l l' HP IH|[a v] [b w] l|l l' l'' HP1 IH1 HP2 IH2];
    simpl; intros Hd.
  - reflexivity.
  - apply andb_true_iff in Hd as [_ Hd]. rewrite (IH Hd). reflexivity.
  - apply andb_true_iff in Hd as [Hd _]. apply negb_true_iff in Hd.
    apply orb_false_iff in Hd as [Hab _]. simpl in Hab.
    destruct (b =? k) eqn:Eb, (a =? k) eqn:Ea; try reflexivity.
    rewrite F64Facts.eqb_sym in Eb.
    rewrite (F64Facts.eqb_trans _ _ _ Ea Eb) in Hab. discriminate.
  - rewrite (IH1 Hd). apply IH2. unfold keys.
    rewrite <- (distinct_keys_perm _ _ (Permutation_map fst HP1)). exact Hd.
Qed.

Lemma LineGraph_ok_perm g g' :
  Permutation g g' -> LineGraph_ok g = true -> LineGraph_ok g' = true.
Proof.
  intros HP H. destruct (LineGraph_ok_parts g H) as (H0 & H1 & Ho & Hd).
  pose proof (Permutation_map fst HP) as HK. fold (keys g) (keys g') in HK.
  unfold LineGraph_ok, dict_mem.
  rewrite <- !(dict_get_perm g g' _ HP Hd).
  fold (dict_mem g 0) (dict_mem g 1). rewrite H0, H1.
  unfold ordered_keys in *.
  rewrite <- (forallb_perm _ _ _ HK), Ho, <- (distinct_keys_perm _ _ HK), Hd.
  reflexivity.
Qed.

(** A set of floats has one ascending enumeration. *)
Lemma ascending_perm_eq l1 :
  forall l2, ascending l1 -> ascending l2 -> Permutation l1 l2 -> l1 = l2.
Proof.
  induction l1 as [|a l1 IH]; intros l2 H1 H2 HP.
  - apply Permutation_nil in HP. now subst.
  - destruct l2 as [|b l2]; [apply Permutation_sym, Permutation_nil in HP; discriminate|].
    assert (a = b) as ->.
    { assert (In a (b :: l2)) as Ha by (apply (Permutation_in _ HP); now left).
      assert (In b (a :: l1)) as Hb
        by (apply (Permutation_in _ (Permutation_sym HP)); now left).
      destruct Ha as [->|Ha]; [reflexivity|]. destruct Hb as [->|Hb]; [reflexivity|].
      pose proof (ascending_head_lt _ _ _ H1 Hb) as X.
      pose proof (ascending_head_lt _ _ _ H2 Ha) as Y.
      rewrite (F64Facts.ltb_antisym _ _ X) in Y. discriminate. }
    f_equal. apply IH.
    + exact (ascending_tail _ _ H1).
    + exact (ascending_tail _ _ H2).
    + exact (Permutation_cons_inv HP).
Qed.

Lemma point_locations_perm g g' :
  Permutation g g' -> LineGraph_ok g = true -> point_locations g = point_locations g'.
Proof.
  intros HP H. apply ascending_perm_eq.
  - now apply point_locations_ascending.
  - apply point_locations_ascending. exact (LineGraph_ok_perm _ _ HP H).
  - unfold point_locations. rewrite !sorted_perm. exact (Permutation_map fst HP).
Qed.

Lemma get_loop_ext g g' p rest :
  (forall k, dict_get g k = dict_get g' k) ->
  forall prev, get_loop g p prev rest = get_loop g' p prev rest.
Proof.
  intros H. induction rest as [|cur rest IH]; simpl; intros prev; [reflexivity|].
  unfold dict_getitem. rewrite !H, IH. reflexivity.
Qed.

(** Two graphs with the same items answer every query alike. *)
Lemma get_perm g g' parameter :
  Permutation g g' -> LineGraph_ok g = true -> get g parameter = get g' parameter.
Proof.
  intros HP H. destruct (LineGraph_ok_parts g H) as (_ & _ & _ & Hd).
  unfold get. destruct (py_float parameter) as [p|]; [|reflexivity]. cbn [bind].
  rewrite <- (dict_get_perm g g' p HP Hd), <- (point_locations_perm g g' HP H).
  destruct (dict_get g p); [reflexivity|].
  destruct (point_locations g); [reflexivity|].
  apply get_loop_ext. intros k. now apply dict_get_perm.
Qed.

(* ================================================================== *)
(** * The positions of [make_barb_curves]                              *)
(* ================================================================== *)

Lemma finite_not_inf x s m e : Prim2SF x = S754_finite s m e -> is_inf x = false.
Proof.
  intros H. unfold is_inf. rewrite !eqb_spec, H.
  change (Prim2SF infinity) with (S754_infinity false).
  change (Prim2SF neg_infinity) with (S754_infinity true).
  destruct s; reflexivity.
Qed.

Lemma finite_not_zero x s m e : Prim2SF x = S754_finite s m e -> (x =? 0)%float = false.
Proof.
  intros H. rewrite eqb_spec, H. change (Prim2SF 0) with (S754_zero false).
  destruct s; reflexivity.
Qed.

Lemma float_of_int_exact n :
  (0 < n < 2 ^ 53)%Z ->
  exists m e,
    float_of_int n = Ok (float_of_Z n) /\
    Prim2SF (float_of_Z n) = S754_finite false m e /\
    (2 ^ 52 <= Zpos m < 2 ^ 53)%Z /\ (-52 <= e <= 0)%Z /\ Zpos m = (n * 2 ^ (- e))%Z.
Proof.
  intros Hn. destruct (Round.float_of_Z_exact n Hn) as (m & e & E & Hm & He & V).
  exists m, e. split; [|auto]. unfold float_of_int.
  rewrite (finite_not_inf _ _ _ _ E). reflexivity.
Qed.

(** The position of the first vertex is [0.0]. *)
Lemma parameter_position_first count :
  (1 <= count <= 2 ^ 53)%Z -> parameter_position count 0 = Ok 0%float.
Proof.
  intros Hc. unfold parameter_position.
  change (float_of_int 0) with (@Ok float 0%float). cbn [bind].
  destruct (float_of_int_exact (Z.max (count - 1) 1) ltac:(lia))
    as (m & e & -> & E & _). cbn [bind].
  unfold truediv. rewrite (finite_not_zero _ _ _ _ E). f_equal.
  apply Prim2SF_inj. rewrite div_spec, E. reflexivity.
Qed.

(** The position of the last of several vertices is [1.0]. *)
Lemma parameter_position_last count :
  (1 < count <= 2 ^ 53)%Z -> parameter_position count (count - 1) = Ok 1%float.
Proof.
  intros Hc. unfold parameter_position.
  replace (Z.max (count - 1) 1) with (count - 1)%Z by lia.
  destruct (float_of_int_exact (count - 1) ltac:(lia))
    as (m & e & -> & E & Hm & _). cbn [bind].
  unfold truediv. rewrite (finite_not_zero _ _ _ _ E). f_equal.
  apply Prim2SF_inj. rewrite div_spec, E. now apply Round.SFdiv_self.
Qed.

(** Every position is computed: no division by zero, no overflow. *)
Lemma parameter_position_ok count i :
  (1 <= count <= 2 ^ 53)%Z -> (0 <= i < count)%Z ->
  parameter_position count i =
    Ok (float_of_Z i / float_of_Z (Z.max (count - 1) 1))%float.
Proof.
  intros Hc Hi. unfold parameter_position.
  assert (float_of_int i = Ok (float_of_Z i)) as ->.
  { destruct (Z.eq_dec i 0) as [->|N]; [reflexivity|].
    destruct (float_of_int_exact i ltac:(lia)) as (m & e & -> & _). reflexivity. }
  destruct (float_of_int_exact (Z.max (count - 1) 1) ltac:(lia))
    as (m & e & -> & E & _). cbn [bind].
  unfold truediv. rewrite (finite_not_zero _ _ _ _ E). reflexivity.
Qed.

Lemma quotient_of_exact n M :
  (0 < n <= M)%Z -> (M < 2 ^ 53)%Z ->
  exists mn en mM eM mres eres,
    (2 ^ 52 <= Zpos mn < 2 ^ 53)%Z /\ (-52 <= en <= 0)%Z /\ Zpos mn = (n * 2 ^ (- en))%Z /\
    (2 ^ 52 <= Zpos mM < 2 ^ 53)%Z /\ (-52 <= eM <= 0)%Z /\ Zpos mM = (M * 2 ^ (- eM))%Z /\
    Prim2SF (float_of_Z M) = S754_finite false mM eM /\
    Prim2SF (float_of_Z n / float_of_Z M) = S754_finite false mres eres /\
    (en - eM - 53 <= eres)%Z /\
    (Zpos mn < Zpos mM ->
     - Zpos mM <=
       2 * (Zpos mres * 2 ^ (eres - (en - eM - 53)) * Zpos mM - Zpos mn * 2 ^ 53)
     <= Zpos mM)%Z /\
    (- (2 * Zpos mM) <=
       2 * (Zpos mres * 2 ^ (eres - (en - eM - 53)) * Zpos mM - Zpos mn * 2 ^ 53)
     <= 2 * Zpos mM)%Z /\
    (mn = mM -> Zpos mres * 2 ^ (eres - (en - eM - 53)) = 2 ^ 53)%Z.
Proof.
  intros Hn HM.
  destruct (Round.float_of_Z_exact n ltac:(lia)) as (mn & en & En & Hmn & Hen & Vn).
  destruct (Round.float_of_Z_exact M ltac:(lia)) as (mM & eM & EM & HmM & HeM & VM).
  destruct (Round.SFdiv_53 mn en mM eM Hmn HmM ltac:(lia))
    as (mres & eres & D & Ee & B1 & B2 & B3).
  exists mn, en, mM, eM, mres, eres.
  rewrite div_spec, En, EM. repeat split; auto; lia.
Qed.

(** The positions grow strictly with the index. *)
Lemma quotient_increasing i j M :
  (0 <= i < j)%Z -> (j <= M)%Z -> (M < 2 ^ 53)%Z ->
  (float_of_Z i / float_of_Z M <? float_of_Z j / float_of_Z M)%float = true.
Proof.
  intros Hij HjM HM.
  destruct (quotient_of_exact j M ltac:(lia) HM)
    as (mj & ej & mM & eM & mrj & erj & Hmj & Hej & Vj & HmM & HeM & VM & EM & Dj
        & Eej & J1 & J2 & J3).
  rewrite ltb_spec. unfold SFltb.
  destruct (Z.eq_dec i 0) as [->|Ni].
  - (* the first position is zero *)
    assert (Prim2SF (float_of_Z 0 / float_of_Z M) = S754_zero false) as ->.
    { rewrite div_spec, EM. reflexivity. }
    rewrite Dj. reflexivity.
  - destruct (quotient_of_exact i M ltac:(lia) HM)
      as (mi & ei & mM' & eM' & mri & eri & Hmi & Hei & Vi & _ & _ & _ & EM' & Di
          & Eei & I1 & I2 & I3).
    rewrite EM in EM'. injection EM' as <- <-.
    pose proof (Prim2SF_valid (float_of_Z i / float_of_Z M)) as Vali.
    pose proof (Prim2SF_valid (float_of_Z j / float_of_Z M)) as Valj.
    rewrite Di in *. rewrite Dj in *.
    rewrite (Round.SFcompare_pos_lt mri eri mrj erj (eM + 105) Vali Valj);
      [reflexivity | lia | lia |].
    assert (ei <= eM)%Z as Lei
      by (apply (Round.exact_exp_mono i M (Zpos mi) ei (Zpos mM) eM); lia).
    assert (ej <= eM)%Z as Lej
      by (apply (Round.exact_exp_mono j M (Zpos mj) ej (Zpos mM) eM); lia).
    replace (eri + (eM + 105))%Z with ((eri - (ei - eM - 53)) + (52 + ei))%Z by lia.
    replace (erj + (eM + 105))%Z with ((erj - (ej - eM - 53)) + (52 + ej))%Z by lia.
    rewrite (Z.pow_add_r 2 (eri - (ei - eM - 53)) (52 + ei)) by lia.
    rewrite (Z.pow_add_r 2 (erj - (ej - eM - 53)) (52 + ej)) by lia.
    rewrite !Z.mul_assoc.
    assert (forall e, (-52 <= e <= 0)%Z -> (2 ^ (52 + e) * 2 ^ (- e) = 2 ^ 52)%Z) as Pw.
    { intros e He. rewrite <- Z.pow_add_r by lia. f_equal. lia. }
    assert (forall e, (-52 <= e <= eM)%Z ->
              (2 ^ (52 + e) = 2 ^ (52 + eM) \/ 2 * 2 ^ (52 + e) <= 2 ^ (52 + eM))%Z) as Step.
    { intros e He. destruct (Z.eq_dec e eM) as [->|N]; [now left|right].
      replace (2 * 2 ^ (52 + e))%Z with (2 ^ (1 + (52 + e)))%Z
        by (rewrite Z.pow_add_r by lia; reflexivity).
      apply Z.pow_le_mono_r; lia. }
    apply (Round.quotients_apart (2 ^ 52) i j M
             (2 ^ (52 + ei)) (2 ^ (- ei)) (2 ^ (52 + ej)) (2 ^ (- ej))
             (2 ^ (52 + eM)) (2 ^ (- eM)) (Zpos mi) (Zpos mj) (Zpos mM));
      try (apply Z.pow_pos_nonneg; lia); try (apply Pw; lia); try (apply Step; lia);
      try lia; try assumption.
Qed.

(* ================================================================== *)
(** * Graphs as dicts, and [get] below the first key                   *)
(* ================================================================== *)

Lemma float_keys_to_dict g acc :
  float_keys (to_dict g) acc = Ok (fold_left (fun d kv => dict_set d (fst kv) (snd kv)) g acc).
Proof.
  revert acc. induction g as [|[k v] g IH]; intros acc; [reflexivity|].
  cbn [to_dict map float_keys py_float bind fst snd fold_left]. apply IH.
Qed.

Lemma dict_set_fresh d k v : dict_mem d k = false -> dict_set d k v = d ++ [(k, v)].
Proof.
  induction d as [|[k' v'] d IH]; simpl; intros H; [reflexivity|].
  rewrite dict_mem_cons in H. destruct (k' =? k); [discriminate|].
  simpl in H. now rewrite IH.
Qed.

Lemma distinct_keys_app_fresh l1 k l2 :
  distinct_keys (l1 ++ k :: l2) = true ->
  existsb (fun k' => k' =? k) l1 = false.
Proof.
  induction l1 as [|a l1 IH]; simpl; intros H; [reflexivity|].
  apply andb_true_iff in H as [Ha H]. rewrite (IH H), orb_false_r.
  apply negb_true_iff in Ha. rewrite existsb_app in Ha. simpl in Ha.
  apply orb_false_iff in Ha as [_ Ha]. apply orb_false_iff in Ha as [Ha _].
  rewrite F64Facts.eqb_sym. exact Ha.
Qed.

Lemma fold_set_distinct g acc :
  distinct_keys (keys acc ++ keys g) = true ->
  fold_left (fun d kv => dict_set d (fst kv) (snd kv)) g acc = acc ++ g.
Proof.
  revert acc. induction g as [|[k v] g IH]; intros acc H; simpl.
  - now rewrite app_nil_r.
  - rewrite dict_set_fresh.
    + rewrite IH.
      * rewrite <- app_assoc. reflexivity.
      * unfold keys in *. rewrite map_app, <- app_assoc. exact H.
    + rewrite dict_mem_existsb. exact (distinct_keys_app_fresh _ _ _ H).
Qed.

(** X: set leaves the other points alone *)
Lemma set_keeps_other_points g p v g' k :
  set g (VFloat p) v = Ok g' -> dict_mem g k = true -> (k =? p) = false ->
  dict_mem g' k = true /\ get g' (VFloat k) = get g (VFloat k).
Proof.
  intros H Hk Hne. apply set_inv in H as (p' & Hp & Hu & ->).
  cbn [py_float] in Hp. inversion Hp; subst p'. split.
  - now apply dict_set_mem_mono.
  - unfold get. cbn [py_float bind].
    rewrite dict_get_set_other by (rewrite F64Facts.eqb_sym; exact Hne).
    apply dict_mem_get in Hk as [w ->]. reflexivity.
Qed.

(** The keys 0.0 and 1.0 among the sorted keys. *)
Lemma point_locations_has g k :
  dict_mem g k = true -> exists k', In k' (point_locations g) /\ (k' =? k) = true.
Proof.
  intros H. apply dict_mem_In in H as (k' & Hin & E).
  exists k'. split; [|exact E]. now apply In_point_locations.
Qed.

(** Whatever the position, as long as it is not above 1.0, [get] returns a
    stored value or blends two stored values. *)
Lemma get_cases g p :
  LineGraph_ok g = true -> (p <=? 1) = true ->
  (exists v, dict_get g p = Some v /\ get g (VFloat p) = Ok v) \/
  (exists low high vl vh,
     (low <? high) = true /\ dict_get g low = Some vl /\ dict_get g high = Some vh /\
     get g (VFloat p) = lerp vl vh ((p - low) / (high - low))).
Proof.
  intros Hok Hp1.
  assert (F64.ordered p = true) as Op by exact (F64Facts.leb_ordered_l _ _ Hp1).
  destruct (LineGraph_ok_parts g Hok) as (H0 & H1 & Ho & Hd).
  pose proof (point_locations_ascending g Hok) as Hasc.
  assert (forall k, In k (point_locations g) -> F64.ordered k = true) as Oall.
  { intros k Hk. apply (ordered_keys_In (keys g)); [exact Ho|].
    now apply In_point_locations. }
  assert (forall k, In k (point_locations g) -> exists v, dict_get g k = Some v) as Hval.
  { intros k Hk. apply dict_get_In; [now apply In_point_locations | auto]. }
  unfold get. cbn [py_float bind].
  destruct (dict_get g p) as [v|] eqn:E; [left; eauto|]. right.
  destruct (point_locations_has g 0 H0) as (k0 & Hk0 & E0).
  destruct (point_locations_has g 1 H1) as (k1 & Hk1 & E1).
  destruct (point_locations g) as [|p0 rest] eqn:EP; [destruct Hk0|].
  assert ((p <=? k1) = true) as Hpk1.
  { rewrite (F64Facts.eqb_leb_r _ _ p E1). exact Hp1. }
  destruct (p0 <? p) eqn:L.
  - assert (exists k, In k rest /\ (p <=? k) = true) as Hex.
    { exists k1. split; [|exact Hpk1]. destruct Hk1 as [<-|Hk1]; [|exact Hk1].
      rewrite (F64Facts.ltb_not_leb _ _ L) in Hpk1. discriminate. }
    destruct (get_loop_finds g p p0 rest Op Hasc L Hex)
      as (low & high & Hlow & Hhigh & _ & _ & Hlh & _ & ->).
    destruct (Hval low Hlow) as [vl Hvl]. destruct (Hval high Hhigh) as [vh Hvh].
    exists low, high, vl, vh. unfold dict_getitem. rewrite Hvl, Hvh. auto.
  - assert ((p <=? p0) = true) as Hpp0.
    { apply F64Facts.ltb_total; auto. apply Oall. now left. }
    destruct rest as [|cur rest].
    + (* one key only: 0.0 and 1.0 would be the same key *)
      destruct Hk0 as [<-|[]]. destruct Hk1 as [<-|[]].
      rewrite F64Facts.eqb_sym in E1.
      pose proof (F64Facts.eqb_trans _ _ _ E1 E0) as X. discriminate X.
    + assert ((p0 <? cur) = true) as Hpc
        by (apply (ascending_head_lt _ _ _ Hasc); now left).
      destruct (Hval p0 (or_introl eq_refl)) as [vl Hvl].
      destruct (Hval cur (or_intror (or_introl eq_refl))) as [vh Hvh].
      exists p0, cur, vl, vh. repeat split; auto.
      cbn [get_loop]. unfold F64.geb.
      rewrite (F64Facts.ltb_leb _ _ (F64Facts.leb_ltb_trans _ _ _ Hpp0 Hpc)).
      unfold dict_getitem. rewrite Hvl, Hvh. cbn [bind].
      rewrite (truediv_sub p _ _ Hpc). reflexivity.
Qed.

Lemma dict_get_record g k v :
  record_graph g = true -> dict_get g k = Some v -> is_record v = true.
Proof.
  induction g as [|[k' v'] g IH]; simpl; intros Hs H; [discriminate|].
  apply andb_true_iff in Hs as [Hv Hs]. destruct (k' =? k).
  - inversion H; subst. exact Hv.
  - exact (IH Hs H).
Qed.

Lemma is_record_barb_info v : is_record v = true -> is_barb_info v = true.
Proof. destruct v as [| |[] [] [] []]; simpl; auto. Qed.

Lemma lerp_records a b t :
  is_record a = true -> is_record b = true ->
  exists r, lerp a b t = Ok r /\ is_barb_info r = true.
Proof.
  destruct a as [| |[] [] [] []]; try discriminate.
  destruct b as [| |[] [] [] []]; try discriminate. intros _ _.
  eexists. split; [reflexivity|].
  cbn [value_of_number is_barb_info]. destruct (clamp01 _); reflexivity.
Qed.

(** Every position of the sampling loop lies in the unit interval. *)
Lemma position_in_unit count i :
  (1 <= count <= 2 ^ 53)%Z -> (0 <= i < count)%Z ->
  in_unit (float_of_Z i / float_of_Z (Z.max (count - 1) 1)) = true.
Proof.
  intros Hc Hi. set (M := Z.max (count - 1) 1).
  assert (float_of_Z 0 / float_of_Z M = 0) as E0.
  { pose proof (parameter_position_first count Hc) as F.
    rewrite (parameter_position_ok count 0 Hc ltac:(lia)) in F. now inversion F. }
  assert ((1 < count)%Z -> float_of_Z (count - 1) / float_of_Z M = 1) as E1.
  { intros H1. pose proof (parameter_position_last count ltac:(lia)) as F.
    rewrite (parameter_position_ok count (count - 1) Hc ltac:(lia)) in F.
    now inversion F. }
  unfold in_unit. apply andb_true_iff. split.
  - destruct (Z.eq_dec i 0) as [->|N].
    + fold M. rewrite E0. reflexivity.
    + apply F64Facts.ltb_leb. rewrite <- E0.
      apply quotient_increasing; unfold M; lia.
  - destruct (Z.eq_dec i (count - 1)) as [->|N].
    + destruct (Z.eq_dec count 1) as [->|N1].
      * change (1 - 1)%Z with 0%Z. fold M. rewrite E0. reflexivity.
      * fold M. rewrite E1 by lia. reflexivity.
    + apply F64Facts.ltb_leb. rewrite <- E1 by lia.
      apply quotient_increasing; unfold M; lia.
Qed.

Lemma get_record g p :
  LineGraph_ok g = true -> record_graph g = true -> (p <=? 1) = true ->
  exists r, get g (VFloat p) = Ok r /\ is_barb_info r = true.
Proof.
  intros Hok Hr Hp.
  destruct (get_cases g p Hok Hp) as [(v & Hv & ->)|(low & high & vl & vh & _ & Hl & Hh & ->)].
  - exists v. split; [reflexivity|].
    apply is_record_barb_info. exact (dict_get_record g p v Hr Hv).
  - apply lerp_records; eapply dict_get_record; eauto.
Qed.

Lemma get_stored g k v : dict_get g k = Some v -> get g (VFloat k) = Ok v.
Proof. intros H. unfold get. cbn [py_float bind]. now rewrite H. Qed.

(** The graph of the window. *)
Lemma window_graph_eq l0 s0 e0 l1 s1 e1 l2 s2 e2 l3 s3 e3 :
  window_graph l0 s0 e0 l1 s1 e1 l2 s2 e2 l3 s3 e3 =
  Ok [(0, VBarb (VFloat 0) (VFloat l0) (VFloat (s0 + 5)) (VFloat e0));
      (0.1, VBarb (VFloat 0.1) (VFloat l1) (VFloat s1) (VFloat e1));
      (0.5, VBarb (VFloat 0.5) (VFloat l2) (VFloat s2) (VFloat e2));
      (0.95, VBarb (VFloat 0.95) (VFloat l3) (VFloat s3) (VFloat e3));
      (1, VBarb (VFloat 1) (VFloat 0) (VFloat s3) (VFloat e3))].
Proof. reflexivity. Qed.

Lemma ascending_le_last l d k :
  ascending l -> ordered_keys l = true -> In k l -> (k <=? last l d) = true.
Proof.
  revert k. induction l as [|a l IH]; intros k Hs Ho Hin; [destruct Hin|].
  cbn [ordered_keys forallb] in Ho. apply andb_true_iff in Ho as [Oa Ho].
  destruct l as [|b l].
  - destruct Hin as [<-|[]]. cbn. now apply F64Facts.leb_refl.
  - change (last (a :: b :: l) d) with (last (b :: l) d).
    destruct Hin as [<-|Hin].
    + apply F64Facts.ltb_leb.
      apply (F64Facts.ltb_leb_trans _ b).
      * apply (ascending_head_lt _ _ _ Hs). now left.
      * apply IH; [exact (ascending_tail _ _ Hs) | exact Ho | now left].
    + apply IH; [exact (ascending_tail _ _ Hs) | exact Ho | exact Hin].
Qed.

Lemma last_In {A} (l : list A) d : l <> [] -> In (last l d) l.
Proof.
  induction l as [|a l IH]; [congruence|]. intros _.
  destruct l as [|b l]; [now left|]. right. apply IH. discriminate.
Qed.

(* ================================================================== *)
(** * Zeros, and blends that change nothing                            *)
(* ================================================================== *)

Lemma sf_is_finite x :
  match Prim2SF x with S754_zero _ | S754_finite _ _ _ => True | _ => False end ->
  is_finite x = true.
Proof.
  intros H. unfold is_finite, F64.ordered, is_inf. rewrite !eqb_spec.
  change (Prim2SF infinity) with (S754_infinity false).
  change (Prim2SF neg_infinity) with (S754_infinity true).
  destruct (Prim2SF x) as [[]|[]| |[] m e] eqn:E; try contradiction; try reflexivity.
  - assert (SFeqb (S754_finite true m e) (S754_finite true m e) = true) as ->.
    { unfold SFeqb. rewrite F64Facts.SFcompare_refl; [reflexivity|]. simpl. congruence. }
    reflexivity.
  - assert (SFeqb (S754_finite false m e) (S754_finite false m e) = true) as ->.
    { unfold SFeqb. rewrite F64Facts.SFcompare_refl; [reflexivity|]. simpl. congruence. }
    reflexivity.
Qed.

Lemma SFfinite_class s x :
  Round.SFfinite s x -> match x with S754_zero _ | S754_finite _ _ _ => True | _ => False end.
Proof. destruct x; simpl; auto. Qed.

(** Degrees to radians: a finite angle stays finite. *)
Lemma radians_finite x : is_finite x = true -> is_finite (x * degToRad) = true.
Proof.
  intros H. apply is_finite_sf in H. apply sf_is_finite. rewrite mul_spec.
  assert (Prim2SF degToRad = S754_finite false 5030569068109113 (-58)) as -> by reflexivity.
  pose proof (Prim2SF_valid x) as V.
  destruct (Prim2SF x) as [s|s| |s m e]; try contradiction; [exact I|].
  apply (SFfinite_class (xorb s false)).
  apply Round.SFmul_finite; [exact V | vm_compute; discriminate | lia].
Qed.

Lemma eqb_zero_sf z : (z =? 0) = true -> exists s, Prim2SF z = S754_zero s.
Proof.
  rewrite eqb_spec. change (Prim2SF 0) with (S754_zero false).
  destruct (Prim2SF z) as [s|[]| |[] m e]; simpl; try discriminate. eauto.
Qed.

Lemma mul_zero_finite r : is_finite r = true -> (r * 0 =? 0) = true.
Proof.
  intros H. apply is_finite_sf in H. rewrite eqb_spec, mul_spec.
  change (Prim2SF 0) with (S754_zero false).
  destruct (Prim2SF r) as [[]|[]| |[] m e]; try contradiction; reflexivity.
Qed.

Lemma div_zero_two z : (z =? 0) = true -> (z / 2 =? 0) = true.
Proof.
  intros Hz. apply eqb_zero_sf in Hz as [s Hz]. rewrite eqb_spec, div_spec, Hz.
  destruct s; reflexivity.
Qed.

Lemma add_zero_l z x : (z =? 0) = true -> F64.ordered x = true -> (z + x =? x) = true.
Proof.
  intros Hz Ox. apply eqb_zero_sf in Hz as [s Hz].
  unfold F64.ordered in Ox. rewrite eqb_spec in Ox.
  rewrite eqb_spec, add_spec, Hz.
  destruct (Prim2SF x) as [[]|[]| |[] m e], s; try discriminate; try reflexivity; exact Ox.
Qed.

Lemma math_1_finite f a :
  is_finite a = true -> is_finite (f a) = true -> math_1 f a = Ok (f a).
Proof.
  intros Ha Hf. unfold math_1. unfold is_finite in Hf.
  apply andb_true_iff in Hf as [Of If]. rewrite Of. cbn [negb andb].
  apply negb_true_iff in If. rewrite If. reflexivity.
Qed.

Lemma number_eqb_zero k : (k =? 0) = true -> number_eqb (Float k) (Int 0) = true.
Proof.
  intros H. apply eqb_zero_sf in H as [s H].
  unfold number_eqb, number_compare. rewrite H. reflexivity.
Qed.

Lemma number_eqb_one k : (k =? 1) = true -> number_eqb (Float k) (Int 1) = true.
Proof.
  intros H. destruct (F64Facts.eqb_eq_or_zero _ _ H) as [->|[_ X]]; [reflexivity|].
  discriminate X.
Qed.

Lemma contains_ends_aux g :
  dict_mem g 0 = true -> dict_mem g 1 = true ->
  contains g (VFloat 0) = true /\ contains g (VFloat 1) = true /\
  contains g (VInt 0) = true /\ contains g (VInt 1) = true.
Proof.
  intros H0 H1. cbn [contains]. repeat split; auto.
  - apply dict_mem_In in H0 as (k & Hk & E). apply existsb_exists.
    exists k. split; [exact Hk|]. now apply number_eqb_zero.
  - apply dict_mem_In in H1 as (k & Hk & E). apply existsb_exists.
    exists k. split; [exact Hk|]. now apply number_eqb_one.
Qed.

Lemma contains_set_aux g p v g' :
  set g (VFloat p) v = Ok g' ->
  contains g' (VFloat p) = true /\
  forall q, contains g q = true -> contains g' q = true.
Proof.
  intros H. apply set_inv in H as (p' & Hp & Hu & ->). inversion Hp; subst p'. split.
  - cbn [contains]. rewrite dict_mem_set, F64Facts.eqb_refl by (now apply in_unit_ordered).
    reflexivity.
  - intros [n|x|a b c d] Hq; cbn [contains] in *.
    + rewrite keys_dict_set. destruct (dict_mem g p); [exact Hq|].
      rewrite existsb_app, Hq. reflexivity.
    + now apply dict_set_mem_mono.
    + discriminate.
Qed.

Lemma sub_self a : is_finite a = true -> (a - a =? 0) = true.
Proof.
  intros H. apply is_finite_sf in H. rewrite eqb_spec, sub_spec.
  change (Prim2SF 0) with (S754_zero false).
  destruct (Prim2SF a) as [[]|[]| |s m e]; try contradiction; try reflexivity.
  unfold SF64sub, SFsub. rewrite Z.sub_diag. reflexivity.
Qed.

Lemma mul_zero_l z t : (z =? 0) = true -> is_finite t = true -> (z * t =? 0) = true.
Proof.
  intros Hz H. apply is_finite_sf in H. apply eqb_zero_sf in Hz as [s Hz].
  rewrite eqb_spec, mul_spec, Hz.
  change (Prim2SF 0) with (S754_zero false).
  destruct (Prim2SF t) as [[]|[]| |[] m e], s; try contradiction; reflexivity.
Qed.

Lemma blend_same a t :
  is_finite a = true -> is_finite t = true -> ((a - a) * t + a =? a) = true.
Proof.
  intros Ha Ht. apply add_zero_l.
  - apply mul_zero_l; [now apply sub_self | exact Ht].
  - unfold is_finite in Ha. now apply andb_true_iff in Ha as [Ha _].
Qed.

Lemma finite_graph_scalar g : finite_graph g = true -> scalar_graph g = true.
Proof.
  unfold finite_graph, scalar_graph. rewrite !forallb_forall.
  intros H kv Hin. specialize (H kv Hin). destruct (snd kv); try discriminate. reflexivity.
Qed.

Lemma dict_get_finite g k v :
  finite_graph g = true -> dict_get g k = Some v ->
  exists x, v = VFloat x /\ is_finite x = true.
Proof.
  induction g as [|[k' v'] g IH]; simpl; intros Hs H; [discriminate|].
  apply andb_true_iff in Hs as [Hv Hs]. destruct (k' =? k).
  - inversion H; subst. destruct v; try discriminate. eauto.
  - exact (IH Hs H).
Qed.

Lemma Z_SFcompare_0 x :
  Z_SFcompare 0 (Prim2SF x) = SFcompare (S754_zero false) (Prim2SF x).
Proof.
  destruct (Prim2SF x) as [[]|[]| |[] m e]; try reflexivity;
    unfold Z_SFcompare; cbn [cond_Zopp SFcompare]; f_equal;
    destruct e as [|p|p]; try reflexivity.
  - assert (0 < 2 ^ Z.pos p)%Z by (apply Z.pow_pos_nonneg; lia).
    apply Z.compare_gt_iff. lia.
  - assert (0 < 2 ^ Z.pos p)%Z by (apply Z.pow_pos_nonneg; lia).
    apply Z.compare_lt_iff. lia.
Qed.

Lemma Z_SFcompare_1 x :
  Z_SFcompare 1 (Prim2SF x) = SFcompare (Prim2SF 1) (Prim2SF x).
Proof.
  pose proof (Prim2SF_valid x) as V.
  change (Prim2SF 1) with (S754_finite false 4503599627370496 (-52)).
  destruct (Prim2SF x) as [[]|[]| |s m e]; try reflexivity.
  apply Round.valid_finite in V as (He & Hd & Hn).
  pose proof (Round.digits2_bounds m) as [Hlo Hhi].
  assert (Z.pos m < 2 ^ 53)%Z as Hm.
  { eapply Z.lt_le_trans; [exact Hhi|]. apply Z.pow_le_mono_r; lia. }
  destruct s.
  - (* negative *)
    unfold Z_SFcompare. cbn [cond_Zopp SFcompare]. f_equal.
    destruct e as [|p|p].
    + apply Z.compare_gt_iff. lia.
    + assert (0 < 2 ^ Z.pos p)%Z by (apply Z.pow_pos_nonneg; lia).
      apply Z.compare_gt_iff. nia.
    + assert (0 < 2 ^ Z.pos p)%Z by (apply Z.pow_pos_nonneg; lia).
      apply Z.compare_gt_iff. lia.
  - unfold Z_SFcompare. cbn [cond_Zopp SFcompare]. f_equal.
    change (Pos.compare_cont Eq 4503599627370496 m) with (Pos.compare 4503599627370496 m).
    destruct (Z.compare_spec (-52) e) as [<-|L|G].
    + change (1 * 2 ^ Z.pos 52)%Z with (Z.pos 4503599627370496). reflexivity.
    + (* the number is at least 2 *)
      rewrite Hn in Hlo by lia. change (2 ^ (53 - 1))%Z with 4503599627370496%Z in Hlo.
      destruct e as [|p|p].
      * apply Z.compare_lt_iff. lia.
      * assert (0 < 2 ^ Z.pos p)%Z by (apply Z.pow_pos_nonneg; lia).
        apply Z.compare_lt_iff. nia.
      * assert (2 ^ Z.pos p <= 2 ^ 51)%Z by (apply Z.pow_le_mono_r; lia).
        change (2 ^ 51)%Z with 2251799813685248%Z in H.
        apply Z.compare_lt_iff. lia.
    + (* the number is below 1 *)
      destruct e as [|p|p]; try lia.
      assert (2 ^ 53 <= 2 ^ Z.pos p)%Z by (apply Z.pow_le_mono_r; lia).
      apply Z.compare_gt_iff. lia.
Qed.

Lemma clamp01_in_unit z : in_unit z = true -> clamp01 z = Float z.
Proof.
  unfold in_unit. intros H. apply andb_true_iff in H as [H0 H1].
  rewrite clamp01_cases. unfold number_ltb, number_compare.
  rewrite Z_SFcompare_0, Z_SFcompare_1.
  rewrite leb_spec in H0, H1. unfold SFleb in H0, H1.
  change (Prim2SF 0) with (S754_zero false) in H0.
  rewrite (F64Facts.SFcompare_sym (Prim2SF 1) (Prim2SF z)) in H1.
  destruct (SFcompare (Prim2SF 1) (Prim2SF z)) as [[]|]; try discriminate;
    destruct (SFcompare (S754_zero false) (Prim2SF z)) as [[]|]; try discriminate;
    reflexivity.
Qed.

Lemma eqb_in_unit z p : (z =? p) = true -> in_unit p = true -> in_unit z = true.
Proof.
  intros E. unfold in_unit.
  now rewrite (F64Facts.eqb_leb_r _ _ 0 E), (F64Facts.eqb_leb_l _ _ 1 E).
Qed.

(* ================================================================== *)
(** * The curves, the roots and the pieces                             *)
(* ================================================================== *)

(** A number is no record: [draw_barb] raises on it. *)
Lemma draw_barb_number sin cos position v :
  (forall p l s e, v <> VBarb p l s e) ->
  draw_barb sin cos position v = Raise AttributeError.
Proof.
  intros H. destruct position as [[x y] z].
  destruct v; [reflexivity | reflexivity | now elim (H v1 v2 v3 v4)].
Qed.

(** When the loop returns, every step of it has returned. *)
Lemma barbs_ok sin cos (V : Type) (pointPosition : V -> point) g count items curves :
  barbs sin cos pointPosition g count items = Ok curves ->
  forall i vertex, In (i, vertex) items ->
    exists p barb_info barb,
      parameter_position count i = Ok p /\ get g (VFloat p) = Ok barb_info /\
      draw_barb sin cos (pointPosition vertex) barb_info = Ok barb.
Proof.
  revert curves. induction items as [|[j w] items IH]; intros curves H i vertex Hin.
  - destruct Hin.
  - cbn [barbs] in H.
    destruct (parameter_position count j) as [p|] eqn:Ep; cbn [bind] in H; [|discriminate].
    destruct (get g (VFloat p)) as [info|] eqn:Eg; cbn [bind] in H; [|discriminate].
    destruct (draw_barb sin cos (pointPosition w) info) as [barb|] eqn:Ed;
      cbn [bind] in H; [|discriminate].
    destruct (barbs sin cos pointPosition g count items) as [rest|] eqn:Er;
      cbn [bind] in H; [|discriminate].
    destruct Hin as [Heq|Hin].
    + inversion Heq; subst. eauto 6.
    + exact (IH rest eq_refl i vertex Hin).
Qed.

Lemma combine_app_eq {A B} (l1 l2 : list A) (k1 k2 : list B) :
  List.length l1 = List.length k1 ->
  combine (l1 ++ l2) (k1 ++ k2) = combine l1 k1 ++ combine l2 k2.
Proof.
  revert k1. induction l1 as [|a l1 IH]; intros [|b k1] H; try discriminate.
  - reflexivity.
  - cbn. f_equal. apply IH. now inversion H.
Qed.

Lemma combine_range_last (V : Type) (selection : list V) :
  selection <> [] ->
  exists vertex,
    In (Z.of_nat (List.length selection) - 1, vertex)%Z
       (combine (range (List.length selection)) selection).
Proof.
  intros H. destruct (exists_last H) as (front & v & ->). exists v.
  rewrite length_app. cbn [List.length]. unfold range.
  rewrite Nat.add_1_r, seq_S, map_app, combine_app_eq.
  - apply in_or_app. right. cbn [map combine In]. left. f_equal. lia.
  - now rewrite length_map, length_seq.
Qed.






Lemma append_nil_r (s : string) : (s ++ "")%string = s.
Proof. induction s; simpl; congruence. Qed.

Lemma append_assoc (a b c : string) : ((a ++ b) ++ c)%string = (a ++ b ++ c)%string.
Proof. induction a; simpl; congruence. Qed.

Lemma plain_cases c :
  plain c = true -> Ascii.eqb c " " = false /\ Ascii.eqb c "," = false.
Proof.
  unfold plain. intros H. apply andb_true_iff in H as [H1 H2].
  now rewrite negb_true_iff in H1, H2.
Qed.

Lemma re_split_token t :
  all_chars plain t = true ->
  forall b tok s,
    t <> EmptyString ->
    re_split_from b tok (t ++ s) = re_split_from false (tok ++ t) s.
Proof.
  induction t as [|c t IH]; intros Ht b tok s Hne; [congruence|].
  cbn [all_chars] in Ht. apply andb_true_iff in Ht as [Hc Ht].
  destruct (plain_cases c Hc) as [E1 E2].
  cbn [append re_split_from]. rewrite E1, E2.
  destruct t as [|c' t'].
  - reflexivity.
  - rewrite (IH Ht false _ s) by discriminate. f_equal.
    rewrite append_assoc. reflexivity.
Qed.

Lemma re_split_spaces sp :
  all_chars (fun c => Ascii.eqb c " ") sp = true ->
  forall tok s, re_split_from true tok (sp ++ s) = re_split_from true tok s.
Proof.
  induction sp as [|c sp IH]; intros H tok s; [reflexivity|].
  cbn [all_chars] in H. apply andb_true_iff in H as [Hc H].
  cbn [append re_split_from]. rewrite Hc. now apply IH.
Qed.

Lemma re_split_separator sp tok s :
  is_separator sp = true ->
  re_split_from false tok (sp ++ s) = tok :: re_split_from true EmptyString s.
Proof.
  destruct sp as [|c sp]; [discriminate|]. cbn [is_separator]. intros H.
  apply andb_true_iff in H as [Hc Hs]. cbn [append re_split_from].
  destruct (Ascii.eqb c " ") eqn:E1.
  - f_equal. now apply re_split_spaces.
  - cbn [orb] in Hc. rewrite Hc. f_equal. now apply re_split_spaces.
Qed.

Lemma re_split_join rest :
  forall t b tok,
    is_token t = true ->
    forallb (fun st => is_separator (fst st) && is_token (snd st)) rest = true ->
    re_split_from b tok (join t rest) = (tok ++ t)%string :: map snd rest.
Proof.
  induction rest as [|[sp t'] rest IH]; intros t b tok Ht Hr.
  - cbn [join map]. destruct t as [|c t]; [discriminate|].
    rewrite <- (append_nil_r (String c t)) at 1.
    rewrite re_split_token by (auto; discriminate). reflexivity.
  - cbn [join map forallb fst snd] in *.
    apply andb_true_iff in Hr as [Hh Hr]. apply andb_true_iff in Hh as [Hsp Ht'].
    destruct t as [|c t]; [discriminate|].
    rewrite re_split_token by (auto; discriminate).
    rewrite re_split_separator by exact Hsp. f_equal.
    rewrite (IH t' true EmptyString Ht' Hr). reflexivity.
Qed.

Lemma re_split_from_plain s :
  forall b tok,
    all_chars plain tok = true ->
    forallb (all_chars plain) (re_split_from b tok s) = true.
Proof.
  induction s as [|c s IH]; intros b tok Ht; cbn [re_split_from].
  - cbn. now rewrite Ht.
  - destruct (Ascii.eqb c " ") eqn:E1.
    + destruct b; [now apply IH|]. cbn [forallb]. rewrite Ht. now apply IH.
    + destruct (Ascii.eqb c ",") eqn:E2.
      * cbn [forallb]. rewrite Ht. now apply IH.
      * apply IH. clear IH. induction tok as [|c' tok IHt]; cbn [append all_chars] in *.
        -- unfold plain. now rewrite E1, E2.
        -- apply andb_true_iff in Ht as [H1 H2]. rewrite H1. now apply IHt.
Qed.

Lemma concat_cons_nil (t : string) l :
  (String.concat "" (t :: l) = t ++ String.concat "" l)%string.
Proof. destruct l; cbn; [now rewrite append_nil_r | reflexivity]. Qed.

Lemma re_split_from_strip s :
  forall b tok,
    String.concat "" (re_split_from b tok s) = (tok ++ strip s)%string.
Proof.
  induction s as [|c s IH]; intros b tok; cbn [re_split_from strip].
  - cbn [String.concat]. now rewrite append_nil_r.
  - unfold plain. destruct (Ascii.eqb c " ") eqn:E1; cbn [negb andb].
    + destruct b; [apply IH|]. rewrite concat_cons_nil, IH. reflexivity.
    + destruct (Ascii.eqb c ",") eqn:E2; cbn [negb].
      * rewrite concat_cons_nil, IH. reflexivity.
      * rewrite IH, append_assoc. reflexivity.
Qed.

(* ================================================================== *)
(** * The interpolation factor                                         *)
(* ================================================================== *)

Lemma in_unit_finite t : in_unit t = true -> is_finite t = true.
Proof.
  intros H. apply sf_is_finite.
  destruct (Round.in_unit_SF t H) as [[s ->]|(m & e & -> & _)]; exact I.
Qed.

Lemma unit_keys_In g k : unit_keys g = true -> In k (keys g) -> in_unit k = true.
Proof. unfold unit_keys. rewrite forallb_forall. auto. Qed.

(** Between two keys of a graph on the unit interval, [get] blends the
    stored neighbours by a factor of the unit interval. *)
Lemma get_blend_unit g p :
  LineGraph_ok g = true -> unit_keys g = true ->
  in_unit p = true -> dict_mem g p = false ->
  exists low high v_low v_high,
    dict_get g low = Some v_low /\ dict_get g high = Some v_high /\
    (low <? p) = true /\ (p <? high) = true /\
    in_unit ((p - low) / (high - low)) = true /\
    get g (VFloat p) = lerp v_low v_high ((p - low) / (high - low)).
Proof.
  intros Hok Hu Hp Hm.
  destruct (get_between g p Hok Hp Hm)
    as (low & high & vl & vh & Hlow & Hhigh & Hph & Hmin & Hlh & _ & Hvl & Hvh & Hget).
  pose proof (in_unit_ordered p Hp) as Op.
  assert ((low <? p) = true) as Hlp.
  { destruct (p <=? low) eqn:E.
    - specialize (Hmin low Hlow E).
      rewrite (F64Facts.ltb_not_leb _ _ Hlh) in Hmin. discriminate.
    - apply F64Facts.leb_total; [exact Op| |exact E].
      exact (F64Facts.ltb_ordered_l _ _ Hlh). }
  assert ((p <? high) = true) as Hph'.
  { apply F64Facts.leb_neq_ltb; [exact Hph|].
    rewrite F64Facts.eqb_sym. exact (dict_mem_false_neq g p high Hm Hhigh). }
  exists low, high, vl, vh. repeat split; try assumption.
  apply Round.factor_in_unit; try assumption; eapply unit_keys_In; eassumption.
Qed.

(* ================================================================== *)
(** * Flat graphs                                                      *)
(* ================================================================== *)

Lemma sub_zeros x y : (x =? 0) = true -> (y =? 0) = true -> (y - x =? 0) = true.
Proof.
  intros Hx Hy. apply eqb_zero_sf in Hx as [s Hx]. apply eqb_zero_sf in Hy as [s' Hy].
  rewrite eqb_spec, sub_spec, Hx, Hy. destruct s, s'; reflexivity.
Qed.

Lemma blend_flat x y c t :
  (x =? c) = true -> (y =? c) = true -> is_finite c = true -> is_finite t = true ->
  ((y - x) * t + x =? c) = true.
Proof.
  intros Hx Hy Hc Ht.
  assert (F64.ordered x = true) as Ox.
  { unfold F64.ordered. apply (F64Facts.eqb_trans _ c); [exact Hx|].
    rewrite F64Facts.eqb_sym. exact Hx. }
  assert ((x =? 0) = true /\ (y =? 0) = true -> ((y - x) * t + x =? c) = true) as Z.
  { intros [Zx Zy]. apply (F64Facts.eqb_trans _ x); [|exact Hx].
    apply add_zero_l; [|exact Ox]. apply mul_zero_l; [|exact Ht]. now apply sub_zeros. }
  destruct (F64Facts.eqb_eq_or_zero _ _ Hx) as [Ex|[Zx Zc]];
    destruct (F64Facts.eqb_eq_or_zero _ _ Hy) as [Ey|[Zy Zc']].
  - subst x y. now apply blend_same.
  - apply Z. split; [|exact Zy]. subst x. exact Zc'.
  - apply Z. split; [exact Zx|]. subst y. exact Zc.
  - apply Z. now split.
Qed.

Lemma dict_get_flat g c k v :
  flat_graph c g = true -> dict_get g k = Some v ->
  exists x, v = VFloat x /\ (x =? c) = true.
Proof.
  induction g as [|[k' v'] g IH]; simpl; intros Hs H; [discriminate|].
  apply andb_true_iff in Hs as [Hv Hs]. destruct (k' =? k).
  - inversion H; subst. destruct v; try discriminate. eauto.
  - exact (IH Hs H).
Qed.

(* ================================================================== *)
(** * The loop of [make_barb_curves]                                   *)
(* ================================================================== *)

(** The loop queries the graph at the normalized positions, in order. *)
Lemma barbs_draw_each sin cos (V : Type) (pointPosition : V -> point) g N :
  (1 <= Z.of_nat N <= 2 ^ 53)%Z ->
  forall k a (selection : list V), (a + k <= N)%nat ->
    barbs sin cos pointPosition g (Z.of_nat N)
      (combine (map Z.of_nat (seq a k)) selection) =
    draw_each sin cos pointPosition g
      (combine selection (map (sample_position N) (seq a k))).
Proof.
  intros Hc. induction k as [|k IH]; intros a selection Hak.
  - cbn [seq map combine]. destruct selection; reflexivity.
  - cbn [seq map]. destruct selection as [|v selection]; [reflexivity|].
    cbn [combine barbs draw_each].
    rewrite (parameter_position_ok (Z.of_nat N) (Z.of_nat a) Hc ltac:(lia)).
    cbn [bind]. fold (sample_position N a).
    rewrite (IH (S a) selection ltac:(lia)). reflexivity.
Qed.

Lemma make_barb_curves_draw_each sin cos (V : Type) (pointPosition : V -> point)
    (selection : list V) g :
  (1 <= Z.of_nat (List.length selection) <= 2 ^ 53)%Z ->
  make_barb_curves sin cos pointPosition selection g =
    draw_each sin cos pointPosition g
      (combine selection
         (map (sample_position (List.length selection)) (seq 0 (List.length selection)))).
Proof.
  intros Hc. unfold make_barb_curves, range.
  apply (barbs_draw_each sin cos V pointPosition g (List.length selection) Hc). lia.
Qed.

Lemma sample_position_first N :
  (1 <= Z.of_nat N <= 2 ^ 53)%Z -> sample_position N 0 = 0.
Proof.
  intros Hc. pose proof (parameter_position_first _ Hc) as F.
  assert (0 <= 0 < Z.of_nat N)%Z as Hi by lia.
  rewrite (parameter_position_ok (Z.of_nat N) 0 Hc Hi) in F. now inversion F.
Qed.

Lemma sample_position_last N :
  (1 < Z.of_nat N <= 2 ^ 53)%Z -> sample_position N (N - 1) = 1.
Proof.
  intros Hc. pose proof (parameter_position_last (Z.of_nat N) Hc) as F.
  assert (1 <= Z.of_nat N <= 2 ^ 53)%Z as Hc' by lia.
  assert (0 <= Z.of_nat N - 1 < Z.of_nat N)%Z as Hi by lia.
  rewrite (parameter_position_ok (Z.of_nat N) (Z.of_nat N - 1) Hc' Hi) in F.
  unfold sample_position. replace (Z.of_nat (N - 1)) with (Z.of_nat N - 1)%Z by lia.
  now inversion F.
Qed.

Lemma sample_position_in_unit N i :
  (1 <= Z.of_nat N <= 2 ^ 53)%Z -> (i < N)%nat -> in_unit (sample_position N i) = true.
Proof. intros Hc Hi. apply position_in_unit; lia. Qed.

(** Whether [draw_barb] returns, and what it raises, does not depend on
    the position of the vertex. *)
Lemma draw_barb_position sin cos position position' barb_info :
  match draw_barb sin cos position barb_info, draw_barb sin cos position' barb_info with
  | Ok _, Ok _ => True
  | Raise e, Raise e' => e = e'
  | _, _ => False
  end.
Proof.
  destruct position as [[x y] z], position' as [[x' y'] z']. unfold draw_barb.
  repeat match goal with
         | |- context [bind ?r _] => destruct r; cbn [bind]; try reflexivity
         end;
    try exact I.
Qed.

(** The parameters the loop resolves do not depend on the vertices, and
    depend on the graph through [get] only. *)
Lemma barbs_resolved_ext sin cos (V W : Type) (pp1 : V -> point) (pp2 : W -> point)
    g1 g2 count :
  (forall p, get g1 p = get g2 p) ->
  forall idx (s1 : list V) (s2 : list W),
    List.length s1 = List.length s2 ->
    resolved (barbs sin cos pp1 g1 count (combine idx s1)) =
    resolved (barbs sin cos pp2 g2 count (combine idx s2)).
Proof.
  intros Hg. induction idx as [|i idx IH]; intros s1 s2 Hl; [reflexivity|].
  destruct s1 as [|v s1], s2 as [|w s2]; try discriminate; [reflexivity|].
  cbn [combine barbs].
  destruct (parameter_position count i) as [p|]; cbn [bind]; [|reflexivity].
  rewrite <- Hg. destruct (get g1 (VFloat p)) as [info|]; cbn [bind]; [|reflexivity].
  pose proof (draw_barb_position sin cos (pp1 v) (pp2 w) info) as D.
  destruct (draw_barb sin cos (pp1 v) info) as [b1|e1],
           (draw_barb sin cos (pp2 w) info) as [b2|e2]; try contradiction; cbn [bind].
  - specialize (IH s1 s2 ltac:(now inversion Hl)).
    destruct (barbs sin cos pp1 g1 count (combine idx s1)) as [r1|],
             (barbs sin cos pp2 g2 count (combine idx s2)) as [r2|];
      cbn [bind resolved map fst] in *; congruence.
  - subst. reflexivity.
Qed.

(** With the same positions of the vertices the curves are the same too. *)
Lemma barbs_ext sin cos (V W : Type) (pp1 : V -> point) (pp2 : W -> point)
    g1 g2 count :
  (forall p, get g1 p = get g2 p) ->
  forall idx (s1 : list V) (s2 : list W),
    map pp1 s1 = map pp2 s2 ->
    barbs sin cos pp1 g1 count (combine idx s1) =
    barbs sin cos pp2 g2 count (combine idx s2).
Proof.
  intros Hg. induction idx as [|i idx IH]; intros s1 s2 Hl; [reflexivity|].
  destruct s1 as [|v s1], s2 as [|w s2]; try discriminate; [reflexivity|].
  cbn [map] in Hl. injection Hl as Hv Hl.
  cbn [combine barbs]. rewrite Hv, (IH s1 s2 Hl).
  destruct (parameter_position count i) as [p|]; cbn [bind]; [|reflexivity].
  rewrite Hg. reflexivity.
Qed.

(* ================================================================== *)
(** * Angles of bounded magnitude                                      *)
(* ================================================================== *)

(** A zero, or a finite float of magnitude at most [2 ^ K]. *)
Definition small (K : Z) (x : float) : Prop := Round.SFsmall K (Prim2SF x).

Lemma small_le K K' x : (K <= K')%Z -> (-1074 <= K)%Z -> small K x -> small K' x.
Proof. apply Round.SFsmall_le. Qed.

Lemma small_finite K x : small K x -> is_finite x = true.
Proof.
  unfold small. intros H. apply sf_is_finite.
  destruct (Prim2SF x); cbn [Round.SFsmall] in H; try contradiction; exact I.
Qed.

Lemma small_add K x y :
  (-1074 <= K <= 1021)%Z -> small K x -> small K y -> small (K + 1) (x + y).
Proof.
  intros HK Hx Hy. unfold small. rewrite add_spec.
  apply Round.SFadd_small; auto using Prim2SF_valid.
Qed.

Lemma small_sub K x y :
  (-1074 <= K <= 1021)%Z -> small K x -> small K y -> small (K + 1) (x - y).
Proof.
  intros HK Hx Hy. unfold small. rewrite sub_spec.
  apply Round.SFsub_small; auto using Prim2SF_valid.
Qed.

Lemma in_unit_small t : in_unit t = true -> small 0 t.
Proof.
  intros H. unfold small.
  destruct (Round.in_unit_SF t H) as [[s ->]|(m & e & -> & _ & B)]; [exact I|exact B].
Qed.

Lemma small_mul_unit K x t :
  (-1074 <= K <= 970)%Z -> small K x -> in_unit t = true -> small K (x * t).
Proof.
  intros HK Hx Ht. unfold small. rewrite mul_spec.
  apply Round.SFmul_small; auto using Prim2SF_valid. now apply in_unit_small.
Qed.

(** The blend of two numbers of bounded magnitude. *)
Lemma small_blend K a b t :
  (-1074 <= K <= 968)%Z -> small K a -> small K b -> in_unit t = true ->
  small (K + 2) ((b - a) * t + a).
Proof.
  intros HK Ha Hb Ht.
  replace (K + 2)%Z with (K + 1 + 1)%Z by lia.
  apply small_add; [lia| |].
  - apply small_mul_unit; [lia| |exact Ht]. apply small_sub; [lia|exact Hb|exact Ha].
  - apply (small_le K); [lia|lia|exact Ha].
Qed.

(** A number between two numbers of bounded magnitude. *)
Lemma between_small K lo hi x :
  small K lo -> small K hi -> (lo <=? x) = true -> (x <=? hi) = true -> small K x.
Proof.
  unfold small. intros Hlo Hhi H1 H2. rewrite leb_spec in H1, H2.
  pose proof (Prim2SF_valid lo) as Vlo. pose proof (Prim2SF_valid hi) as Vhi.
  pose proof (Prim2SF_valid x) as Vx.
  unfold SFleb in H1, H2.
  destruct (Prim2SF x) as [s|s| |[] m e]; cbn [Round.SFsmall].
  - exact I.
  - destruct s.
    + destruct (Prim2SF lo) as [?|[]| |[] ? ?]; cbn in Hlo, H1; try contradiction;
        discriminate.
    + destruct (Prim2SF hi) as [?|[]| |[] ? ?]; cbn in Hhi, H2; try contradiction;
        discriminate.
  - destruct (Prim2SF lo) as [?|[]| |[] ? ?]; cbn in H1; discriminate.
  - (* a negative number: not below the lower bound *)
    destruct (Prim2SF lo) as [?|[]| |[] ml el]; cbn [Round.SFsmall] in Hlo;
      try contradiction; try (cbn in H1; discriminate).
    rewrite Round.SFcompare_neg in H1.
    apply Z.le_trans with (Zpos ml * 2 ^ (el + 1074))%Z; [|exact Hlo].
    apply Round.SFcompare_val_le; [exact Vx|exact Vlo|].
    intros C. rewrite C in H1. discriminate.
  - destruct (Prim2SF hi) as [?|[]| |[] mh eh]; cbn [Round.SFsmall] in Hhi;
      try contradiction; try (cbn in H2; discriminate).
    apply Z.le_trans with (Zpos mh * 2 ^ (eh + 1074))%Z; [|exact Hhi].
    apply Round.SFcompare_val_le; [exact Vx|exact Vhi|].
    intros C. rewrite C in H2. discriminate.
Qed.

Lemma small_literal K x :
  match Prim2SF x with
  | S754_zero _ => true
  | S754_finite _ m e => (Zpos m * 2 ^ (e + 1074) <=? 2 ^ (K + 1074))%Z
  | _ => false
  end = true -> small K x.
Proof.
  unfold small. destruct (Prim2SF x); cbn [Round.SFsmall]; try discriminate; auto.
  intros H. now apply Z.leb_le.
Qed.

Lemma within_small K b x : small K (- b) -> small K b -> within b x = true -> small K x.
Proof.
  intros Hlo Hhi H. unfold within in H. apply andb_true_iff in H as [H1 H2].
  exact (between_small K (- b) b x Hlo Hhi H1 H2).
Qed.

(** A record with float fields whose angles are of magnitude at most
    [2 ^ K]; and one whose position may be an int. *)
Definition tame (K : Z) (v : value) : Prop :=
  exists p l s e,
    v = VBarb (VFloat p) (VFloat l) (VFloat s) (VFloat e) /\ small K s /\ small K e.

Definition readable (K : Z) (v : value) : Prop :=
  exists p l s e,
    v = VBarb p (VFloat l) (VFloat s) (VFloat e) /\ is_barb_info v = true /\
    small K s /\ small K e.

Lemma tame_readable K K' v :
  (K <= K')%Z -> (-1074 <= K)%Z -> tame K v -> readable K' v.
Proof.
  intros HK H0 (p & l & s & e & -> & Hs & He).
  exists (VFloat p), l, s, e. repeat split; try reflexivity; now apply (small_le K).
Qed.

Lemma lerp_tame K a b t :
  (-1074 <= K <= 968)%Z -> tame K a -> tame K b -> in_unit t = true ->
  exists r, lerp a b t = Ok r /\ readable (K + 2) r.
Proof.
  intros HK (p & l & s & e & -> & Hs & He) (p' & l' & s' & e' & -> & Hs' & He') Ht.
  exists (VBarb (value_of_number (clamp01 ((p' - p) * t + p)))
            (VFloat ((l' - l) * t + l)) (VFloat ((s' - s) * t + s))
            (VFloat ((e' - e) * t + e))).
  split; [reflexivity|].
  eexists _, _, _, _. split; [reflexivity|]. split; [|split].
  - cbn [is_barb_info]. destruct (clamp01 _); reflexivity.
  - now apply small_blend.
  - now apply small_blend.
Qed.

Lemma dict_get_tame K g k v :
  Forall (fun kv => tame K (snd kv)) g -> dict_get g k = Some v -> tame K v.
Proof.
  induction g as [|[k' v'] g IH]; simpl; intros Hs H; [discriminate|].
  inversion Hs; subst. destruct (k' =? k).
  - inversion H; subst. assumption.
  - now apply IH.
Qed.

(** On a graph of such records [get] returns a readable record everywhere
    in the unit interval. *)
Lemma get_tame K g p :
  (-1074 <= K <= 968)%Z ->
  LineGraph_ok g = true -> unit_keys g = true ->
  Forall (fun kv => tame K (snd kv)) g -> in_unit p = true ->
  exists r, get g (VFloat p) = Ok r /\ readable (K + 2) r.
Proof.
  intros HK Hok Hu Ht Hp. destruct (dict_mem g p) eqn:Hm.
  - apply dict_mem_get in Hm as [v Hv]. exists v. split; [now apply get_stored|].
    apply (tame_readable K); [lia|lia|]. exact (dict_get_tame K g p v Ht Hv).
  - destruct (get_blend_unit g p Hok Hu Hp Hm)
      as (low & high & vl & vh & Hvl & Hvh & _ & _ & Hf & ->).
    apply lerp_tame; [exact HK| | |exact Hf]; eapply dict_get_tame; eassumption.
Qed.

Lemma nth_error_combine {A B} (l : list A) (k : list B) n :
  nth_error (combine l k) n =
    match nth_error l n, nth_error k n with
    | Some a, Some b => Some (a, b)
    | _, _ => None
    end.
Proof.
  revert k n. induction l as [|a l IH]; intros [|b k] [|n]; cbn; try reflexivity.
  - destruct (nth_error l n); reflexivity.
  - apply IH.
Qed.

Section Loop.

Variables sin cos : float -> float.
Hypothesis sin_finite : forall a, is_finite a = true -> is_finite (sin a) = true.
Hypothesis cos_finite : forall a, is_finite a = true -> is_finite (cos a) = true.

(** [draw_barb] draws four points from a readable record. *)
Lemma draw_barb_readable K position r :
  readable K r -> exists barb, draw_barb sin cos position r = Ok barb /\
                               List.length barb = 4%nat.
Proof.
  intros (p & l & s & e & -> & Hb & Hs & He). destruct position as [[x y] z].
  pose proof (radians_finite s (small_finite K s Hs)) as Rs.
  pose proof (radians_finite e (small_finite K e He)) as Re.
  assert (exists p', getattr_position (VBarb p (VFloat l) (VFloat s) (VFloat e)) = Ok p')
    as [p' Ep] by (eexists; reflexivity).
  unfold draw_barb.
  cbn [getattr_start_angle getattr_end_angle getattr_length radians py_float bind].
  rewrite Ep. cbn [bind].
  rewrite !(math_1_finite sin (s * degToRad)) by auto.
  rewrite !(math_1_finite cos (s * degToRad)) by auto.
  rewrite !(math_1_finite sin (e * degToRad)) by auto.
  cbn [bind]. eexists. split; reflexivity.
Qed.

Context {V : Type} (pointPosition : V -> point).

Lemma draw_each_tame K g (items : list (V * float)) :
  (-1074 <= K <= 968)%Z ->
  LineGraph_ok g = true -> unit_keys g = true ->
  Forall (fun kv => tame K (snd kv)) g ->
  (forall v p, In (v, p) items -> in_unit p = true) ->
  exists out,
    draw_each sin cos pointPosition g items = Ok out /\
    List.length out = List.length items /\
    forallb is_barb out = true /\
    forall n v p, nth_error items n = Some (v, p) ->
      exists b, nth_error out n = Some b /\ get g (VFloat p) = Ok (fst b).
Proof.
  intros HK Hok Hu Ht. induction items as [|[v p] items IH]; intros Hin.
  - exists []. repeat split; auto. intros [|n] ? ? H; discriminate.
  - destruct (get_tame K g p HK Hok Hu Ht (Hin v p (or_introl eq_refl))) as (r & Hg & Hr).
    destruct (draw_barb_readable (K + 2) (pointPosition v) r Hr) as (barb & Hd & Hl).
    destruct IH as (out & Ho & Hlen & Hall & Hnth);
      [intros w q Hq; apply (Hin w q); now right|].
    exists ((r, barb) :: out). cbn [draw_each]. rewrite Hg. cbn [bind].
    rewrite Hd. cbn [bind]. rewrite Ho. cbn [bind].
    split; [reflexivity|]. split; [cbn [List.length]; now rewrite Hlen|]. split.
    + cbn [forallb]. rewrite Hall, andb_true_r. unfold is_barb. cbn [fst snd].
      destruct Hr as (? & ? & ? & ? & _ & -> & _). rewrite Hl. reflexivity.
    + intros [|n] w q Hn.
      * inversion Hn; subst. exists (r, barb). auto.
      * exact (Hnth n w q Hn).
Qed.

(** On a graph of records with bounded angles the loop returns: one
    record and one curve of four points for each vertex. *)
Lemma make_barb_curves_tame K (selection : list V) g :
  (-1074 <= K <= 968)%Z ->
  LineGraph_ok g = true -> unit_keys g = true ->
  Forall (fun kv => tame K (snd kv)) g ->
  (Z.of_nat (List.length selection) <= 2 ^ 53)%Z ->
  exists out,
    make_barb_curves sin cos pointPosition selection g = Ok out /\
    List.length out = List.length selection /\
    forallb is_barb out = true /\
    (selection <> [] -> option_map fst (nth_error out 0) = dict_get g 0) /\
    ((2 <= List.length selection)%nat ->
     option_map fst (nth_error out (List.length selection - 1)) = dict_get g 1).
Proof.
  intros HK Hok Hu Ht Hn. destruct selection as [|v0 selection].
  - exists []. repeat split; auto; [congruence | cbn; lia].
  - set (sel := v0 :: selection) in *. set (N := List.length sel) in *.
    assert (1 <= Z.of_nat N <= 2 ^ 53)%Z as Hc
      by (unfold N, sel in *; cbn [List.length] in *; lia).
    rewrite (make_barb_curves_draw_each sin cos V pointPosition sel g Hc). fold N.
    set (items := combine sel (map (sample_position N) (seq 0 N))).
    assert (List.length items = N) as Hli.
    { unfold items. rewrite length_combine, length_map, length_seq. fold N. lia. }
    assert (forall n, (n < N)%nat ->
              exists v, nth_error sel n = Some v /\
                        nth_error items n = Some (v, sample_position N n)) as Hitem.
    { intros n Hlt. destruct (nth_error sel n) as [v|] eqn:E.
      - exists v. split; [reflexivity|]. unfold items.
        rewrite nth_error_combine, E, nth_error_map, nth_error_seq.
        destruct (Nat.ltb_spec n N); [reflexivity|lia].
      - apply nth_error_None in E. fold N in E. lia. }
    destruct (draw_each_tame K g items HK Hok Hu Ht) as (out & Ho & Hlen & Hall & Hnth).
    { intros v p Hin. apply In_nth_error in Hin as [n Hn'].
      assert (n < N)%nat as Hlt by (rewrite <- Hli; apply nth_error_Some; congruence).
      destruct (Hitem n Hlt) as (w & _ & E). rewrite E in Hn'. inversion Hn'; subst.
      now apply sample_position_in_unit. }
    destruct (LineGraph_ok_parts _ Hok) as (H0 & H1 & _).
    apply dict_mem_get in H0 as [r0 Hr0]. apply dict_mem_get in H1 as [r1 Hr1].
    exists out. split; [exact Ho|]. split; [now rewrite Hlen|]. split; [exact Hall|].
    split.
    + intros _. destruct (Hitem 0%nat ltac:(lia)) as (v & _ & E).
      destruct (Hnth 0%nat _ _ E) as (b & Eb & Hg).
      rewrite (sample_position_first N Hc), (get_stored _ _ _ Hr0) in Hg.
      inversion Hg. rewrite Eb, Hr0. cbn [option_map]. congruence.
    + intros H2. destruct (Hitem (N - 1)%nat ltac:(lia)) as (v & _ & E).
      destruct (Hnth (N - 1)%nat _ _ E) as (b & Eb & Hg).
      rewrite (sample_position_last N ltac:(lia)), (get_stored _ _ _ Hr1) in Hg.
      inversion Hg. rewrite Eb, Hr1. cbn [option_map]. congruence.
Qed.

End Loop.

Lemma angles_within_tame K b v :
  small K (- b) -> small K b -> angles_within b v = true -> tame K v.
Proof.
  intros Hlo Hhi H. destruct v as [| |[] [] [] []]; try discriminate.
  cbn [angles_within] in H. apply andb_true_iff in H as [H1 H2].
  eexists _, _, _, _. split; [reflexivity|].
  split; eapply within_small; eassumption.
Qed.

Lemma small_360 : small 9 360 /\ small 9 (- 360).
Proof. split; apply small_literal; reflexivity. Qed.

Lemma small_180 : small 8 180 /\ small 8 (- 180) /\ small 8 5.
Proof. repeat split; apply small_literal; reflexivity. Qed.

(* ================================================================== *)
(** * The answers of the host to [scale_feathers]                      *)
(* ================================================================== *)


(* ================================================================== *)
(** * The specification's claims                                       *)
(* ================================================================== *)

(** Decimal literals such as [0.1] denote the nearest binary64 value, as
    they do in Python. *)
Set Warnings "-inexact-float".

(** C1.  For a graph [g] and a position [p] in [0,1] that is not a key,
    [g.get(p)] returns [lerp(v_low, v_high, (p - low) / (high - low))],
    where [high] is the smallest key [>= p], [low] is the key immediately
    before [high], and [v_low], [v_high] are the values stored at them; the
    graph [{0.0: 0.0, 0.5: 10.0, 1.0: 0.0}] returns exactly [5.0] at [0.25]. *)
Theorem get_interpolates :
  (forall g p,
     LineGraph_ok g = true -> in_unit p = true -> dict_mem g p = false ->
     exists low high v_low v_high,
       In low (keys g) /\ In high (keys g) /\
       (p <=? high) = true /\
       (forall k, In k (keys g) -> (p <=? k) = true -> (high <=? k) = true) /\
       (low <? high) = true /\
       (forall k, In k (keys g) -> (k <? high) = true -> (k <=? low) = true) /\
       dict_get g low = Some v_low /\ dict_get g high = Some v_high /\
       get g (VFloat p) = lerp v_low v_high ((p - low) / (high - low)))
  /\ (g <- LineGraph_init (Some scenario_B);; get g (VFloat 0.25)) = Ok (VFloat 5).
Proof.
  split; [exact get_between | reflexivity].
Qed.

Lemma get_interpolates_witness :
  exists low high v_low v_high,
    In low [0; 0.5; 1] /\ In high [0; 0.5; 1] /\
    (0.25 <=? high) = true /\
    (forall k, In k [0; 0.5; 1] -> (0.25 <=? k) = true -> (high <=? k) = true) /\
    (low <? high) = true /\
    (forall k, In k [0; 0.5; 1] -> (k <? high) = true -> (k <=? low) = true) /\
    dict_get [(0, VFloat 0); (0.5, VFloat 10); (1, VFloat 0)] low = Some v_low /\
    dict_get [(0, VFloat 0); (0.5, VFloat 10); (1, VFloat 0)] high = Some v_high /\
    get [(0, VFloat 0); (0.5, VFloat 10); (1, VFloat 0)] (VFloat 0.25) =
      lerp v_low v_high ((0.25 - low) / (high - low)).
Proof.
  exact (proj1 get_interpolates
           [(0, VFloat 0); (0.5, VFloat 10); (1, VFloat 0)] 0.25
           eq_refl eq_refl eq_refl).
Defined.

(** C2.  Every graph has the keys [0.0] and [1.0]: the constructor gives
    them the value [0.0] where the supplied points lack them, [set] removes
    no key, and on every graph, however it was built, [get(0.0)] and
    [get(1.0)] return the stored values. *)
Theorem endpoints_always_defined :
  (forall points g,
     LineGraph_init points = Ok g ->
     exists d,
       float_keys (match points with Some items => items | None => [] end) [] = Ok d /\
       dict_get g 0 = Some (match dict_get d 0 with Some v => v | None => VFloat 0 end) /\
       dict_get g 1 = Some (match dict_get d 1 with Some v => v | None => VFloat 0 end))
  /\ (forall g parameter v g' k,
        set g parameter v = Ok g' -> dict_mem g k = true -> dict_mem g' k = true)
  /\ (forall g,
        graph g ->
        exists v0 v1,
          dict_get g 0 = Some v0 /\ dict_get g 1 = Some v1 /\
          get g (VFloat 0) = Ok v0 /\ get g (VFloat 1) = Ok v1).
Proof.
  split; [|split].
  - intros points g H. rewrite LineGraph_init_eq in H.
    apply bind_ok in H as (d & Hd & H). inversion H; subst; clear H.
    exists d. split; [exact Hd|]. split.
    + rewrite with_default_get_other by reflexivity.
      apply with_default_get. reflexivity.
    + rewrite with_default_get by reflexivity.
      rewrite with_default_get_other by reflexivity. reflexivity.
  - intros g parameter v g' k H Hk.
    apply set_inv in H as (p & _ & _ & ->). now apply dict_set_mem_mono.
  - intros g H. destruct (graph_has01 g H) as (H0 & H1 & _).
    apply dict_mem_get in H0 as [v0 Hv0]. apply dict_mem_get in H1 as [v1 Hv1].
    exists v0, v1. unfold get. cbn [py_float bind]. rewrite Hv0, Hv1. auto.
Qed.

Lemma endpoints_always_defined_witness :
  exists v0 v1,
    dict_get [(0, VFloat 0); (1, VFloat 0); (0.5, VFloat 3)] 0 = Some v0 /\
    dict_get [(0, VFloat 0); (1, VFloat 0); (0.5, VFloat 3)] 1 = Some v1 /\
    get [(0, VFloat 0); (1, VFloat 0); (0.5, VFloat 3)] (VFloat 0) = Ok v0 /\
    get [(0, VFloat 0); (1, VFloat 0); (0.5, VFloat 3)] (VFloat 1) = Ok v1.
Proof.
  exact (proj2 (proj2 endpoints_always_defined)
           [(0, VFloat 0); (1, VFloat 0); (0.5, VFloat 3)]
           (graph_set [(0, VFloat 0); (1, VFloat 0)] (VFloat 0.5) (VFloat 3) _
              (graph_init None _ eq_refl) eq_refl)).
Defined.

(** C6.  For every graph, every key [k] in [0,1] and every value [v],
    [set(k, v)] succeeds and the following [get(k)] returns [v] itself. *)
Theorem set_then_get g parameter k v :
  py_float parameter = Ok k -> in_unit k = true ->
  exists g', set g parameter v = Ok g' /\ get g' parameter = Ok v.
Proof.
  intros Hk Hu. exists (dict_set g k v). unfold set, get. rewrite Hk. cbn [bind].
  fold (in_unit k). rewrite Hu. split; [reflexivity|].
  rewrite dict_get_set_same by exact (in_unit_ordered k Hu). reflexivity.
Qed.

Lemma set_then_get_witness :
  exists g',
    set [(0, VFloat 0); (1, VFloat 0)] (VFloat 0.25) (VFloat 0.1) = Ok g' /\
    get g' (VFloat 0.25) = Ok (VFloat 0.1).
Proof.
  exact (set_then_get [(0, VFloat 0); (1, VFloat 0)] (VFloat 0.25) 0.25 (VFloat 0.1)
           eq_refl eq_refl).
Defined.

(** C3, as the code has it.  Whenever [g1.lerp(g2, t)] returns, the result
    is a graph whose keys are those of [g1] and of [g2], and whose value at
    each key [k] is [lerp(g1.get(k), g2.get(k), t)]; it returns on graphs
    of floats with keys in [0,1]; and the blend of two floats at [t = 0.0]
    equals the first one when their difference is finite.  (The inputs are
    values of the embedding: the loop only assigns to the new graph.) *)
Theorem LineGraph_lerp_blends g1 g2 t :
  graph g1 -> graph g2 ->
  (forall r,
     LineGraph_lerp g1 g2 t = Ok r ->
     graph r /\
     (forall k, dict_mem r k = dict_mem g1 k || dict_mem g2 k) /\
     (forall k, dict_mem r k = true ->
        exists a b v,
          get g1 (VFloat k) = Ok a /\ get g2 (VFloat k) = Ok b /\
          lerp a b t = Ok v /\ get r (VFloat k) = Ok v))
  /\ (scalar_graph g1 = true -> unit_keys g1 = true ->
      scalar_graph g2 = true -> unit_keys g2 = true ->
      exists r, LineGraph_lerp g1 g2 t = Ok r)
  /\ (forall x y,
        F64.ordered x = true -> is_finite (y - x) = true ->
        exists z, lerp (VFloat x) (VFloat y) 0 = Ok (VFloat z) /\ (z =? x) = true).
Proof.
  intros G1 G2.
  destruct (graph_has01 g1 G1) as (H0 & H1 & _).
  destruct (graph_has01 g2 G2) as (H0' & _ & _).
  split; [|split].
  - intros r H. split; [exact (graph_lerp g1 g2 t r G1 G2 H)|]. split.
    + exact (LineGraph_lerp_mem g1 g2 t r H0 H1 H).
    + intros k Hk.
      destruct (LineGraph_lerp_get g1 g2 t r H0 H1 H0' H k Hk)
        as (v & (a & b & Ha & Hb & Hv) & Hr).
      exists a, b, v. auto.
  - intros S1 U1 S2 U2.
    apply LineGraph_lerp_scalar; auto using graph_ok, unit_keys_ordered.
  - intros x y Ox Hf. exists ((y - x) * 0 + x). split; [reflexivity|].
    now apply blend_zero.
Qed.

Lemma LineGraph_lerp_blends_witness :
  (forall r,
     LineGraph_lerp [(0, VFloat 0.7); (1, VFloat 0)] [(0, VFloat 0.1); (1, VFloat 0)] 0.5
       = Ok r ->
     graph r /\
     (forall k, dict_mem r k =
                dict_mem [(0, VFloat 0.7); (1, VFloat 0)] k ||
                dict_mem [(0, VFloat 0.1); (1, VFloat 0)] k) /\
     (forall k, dict_mem r k = true ->
        exists a b v,
          get [(0, VFloat 0.7); (1, VFloat 0)] (VFloat k) = Ok a /\
          get [(0, VFloat 0.1); (1, VFloat 0)] (VFloat k) = Ok b /\
          lerp a b 0.5 = Ok v /\ get r (VFloat k) = Ok v))
  /\ (scalar_graph [(0, VFloat 0.7); (1, VFloat 0)] = true ->
      unit_keys [(0, VFloat 0.7); (1, VFloat 0)] = true ->
      scalar_graph [(0, VFloat 0.1); (1, VFloat 0)] = true ->
      unit_keys [(0, VFloat 0.1); (1, VFloat 0)] = true ->
      exists r,
        LineGraph_lerp [(0, VFloat 0.7); (1, VFloat 0)] [(0, VFloat 0.1); (1, VFloat 0)] 0.5
          = Ok r)
  /\ (forall x y,
        F64.ordered x = true -> is_finite (y - x) = true ->
        exists z, lerp (VFloat x) (VFloat y) 0 = Ok (VFloat z) /\ (z =? x) = true).
Proof.
  exact (LineGraph_lerp_blends
           [(0, VFloat 0.7); (1, VFloat 0)] [(0, VFloat 0.1); (1, VFloat 0)] 0.5
           (graph_init (Some [(VFloat 0, VFloat 0.7)]) _ eq_refl)
           (graph_init (Some [(VFloat 0, VFloat 0.1)]) _ eq_refl)).
Defined.

(** C3 as stated fails at [t = 1.0]: with [g1 = LineGraph({0.0: 0.7})] and
    [g2 = LineGraph({0.0: 0.1})], the graph [g1.lerp(g2, 1.0)] holds
    [(0.1 - 0.7) * 1.0 + 0.7 = 0.09999999999999998] at the key [0.0], which
    is not [g2.get(0.0) = 0.1]. *)
Lemma LineGraph_lerp_one_is_not_other :
  exists g1 g2 r a b,
    LineGraph_init (Some [(VFloat 0, VFloat 0.7)]) = Ok g1 /\
    LineGraph_init (Some [(VFloat 0, VFloat 0.1)]) = Ok g2 /\
    LineGraph_lerp g1 g2 1 = Ok r /\
    dict_mem g1 0 = true /\
    get r (VFloat 0) = Ok (VFloat a) /\
    get g2 (VFloat 0) = Ok (VFloat b) /\
    (a =? b) = false.
Proof.
  exists [(0, VFloat 0.7); (1, VFloat 0)], [(0, VFloat 0.1); (1, VFloat 0)].
  exists [(0, VFloat ((0.1 - 0.7) * 1 + 0.7)); (1, VFloat 0)].
  exists ((0.1 - 0.7) * 1 + 0.7), 0.1.
  repeat split; reflexivity.
Qed.

(** C5 fails below zero: on the default graph [get(-0.5)] does not raise,
    it extrapolates from the first two keys and returns [0.0]. *)
Lemma get_below_zero_returns :
  (g <- LineGraph_init None;; get g (VFloat (-0.5))) = Ok (VFloat 0).
Proof. reflexivity. Qed.

(** The part of C5 the code keeps: above the largest key [get] raises
    [KeyError]. *)
Lemma get_above_one_raises g p :
  unit_keys g = true -> (1 <? p) = true -> get g (VFloat p) = Raise KeyError.
Proof.
  intros U Hp. apply get_above. intros k Hk.
  unfold unit_keys in U. rewrite forallb_forall in U. specialize (U k Hk).
  unfold in_unit in U. apply andb_true_iff in U as [_ U].
  exact (F64Facts.leb_ltb_trans _ _ _ U Hp).
Qed.

(** On a graph that has no NaN among its keys, [get] raises [KeyError] at
    a NaN: it equals no key and no key is [>=] it.  (A key that is a NaN is
    left out: a dict finds it when asked for the very same object.) *)
Lemma get_nan_raises g :
  ordered_keys (keys g) = true -> get g (VFloat nan) = Raise KeyError.
Proof.
  intros _. unfold get. cbn [py_float bind].
  assert (forall k, (k =? nan) = false) as N.
  { intros k. destruct (k =? nan) eqn:E; [|reflexivity].
    pose proof (F64Facts.eqb_ordered_r _ _ E) as X. discriminate X. }
  assert (dict_get g nan = None) as ->.
  { induction g as [|[a v] g IH]; simpl; [reflexivity|]. now rewrite N. }
  destruct (point_locations g) as [|p0 rest]; [reflexivity|].
  apply get_loop_none. intros k _.
  destruct (nan <=? k) eqn:E; [|reflexivity].
  pose proof (F64Facts.leb_ordered_l _ _ E) as X. discriminate X.
Qed.

(** C7 fails at a NaN.  The constructor means to clamp the position to
    [0,1], but every comparison with a NaN is false and [sorted] leaves it in
    the middle: [BarbParameters(float('nan'), 1.0, 0.0, 10.0)] stores the
    NaN, which is not in [0,1]. *)
Lemma BarbParameters_init_keeps_nan :
  BarbParameters_init (VFloat nan) (VFloat 1) (VFloat 0) (VFloat 10) =
    Ok (VBarb (VFloat nan) (VFloat 1) (VFloat 0) (VFloat 10)) /\
  number_leb (Int 0) (Float nan) = false /\
  number_leb (Float nan) (Int 1) = false.
Proof. repeat split; reflexivity. Qed.

(** C8, as the code has it.  On two records whose four fields are floats,
    [BarbParameters.lerp] blends each field by [(b - a) * t + a] and hands
    the four results to the constructor, which returns a new record (and
    clamps the blended position); for [A = BarbParameters(0, 1, 0.0, 10.0)]
    and [B = BarbParameters(1, 3, 20.0, 30.0)], [A.lerp(B, 0.5)] is the
    record [(0.5, 2.0, 10.0, 20.0)]. *)
Theorem BarbParameters_lerp_fieldwise :
  (forall p l s e p' l' s' e' t,
     BarbParameters_lerp
       (VBarb (VFloat p) (VFloat l) (VFloat s) (VFloat e))
       (VBarb (VFloat p') (VFloat l') (VFloat s') (VFloat e')) t =
     Ok (VBarb (value_of_number (clamp01 ((p' - p) * t + p)))
               (VFloat ((l' - l) * t + l))
               (VFloat ((s' - s) * t + s))
               (VFloat ((e' - e) * t + e))))
  /\ (A <- BarbParameters_init (VInt 0) (VInt 1) (VFloat 0) (VFloat 10);;
      B <- BarbParameters_init (VInt 1) (VInt 3) (VFloat 20) (VFloat 30);;
      BarbParameters_lerp A B 0.5) =
     Ok (VBarb (VFloat 0.5) (VFloat 2) (VFloat 10) (VFloat 20)).
Proof. split; reflexivity. Qed.

(** C8 as stated fails on its own example when the arguments are the ints
    it writes: the angles [0], [10], [20], [30] are stored as ints, and
    [lerp] finds no method [lerp] on an int. *)
Lemma BarbParameters_lerp_int_scenario_raises :
  (A <- BarbParameters_init (VInt 0) (VInt 1) (VInt 0) (VInt 10);;
   B <- BarbParameters_init (VInt 1) (VInt 3) (VInt 20) (VInt 30);;
   BarbParameters_lerp A B 0.5) = Raise AttributeError.
Proof. reflexivity. Qed.

(** C10.  The constructor converts position and length with [float] and
    stores the two angles as they are given; [lerp] interpolates two floats
    and otherwise calls the method of its first argument, which an int does
    not have; so [lerp] on two records constructed with int angles raises
    [AttributeError]. *)
Theorem int_angles_raise :
  (forall position length start_angle end_angle x l,
     py_float position = Ok x -> py_float length = Ok l ->
     BarbParameters_init position length start_angle end_angle =
       Ok (VBarb (value_of_number (clamp01 x)) (VFloat l) start_angle end_angle))
  /\ (forall x y t, lerp (VFloat x) (VFloat y) t = Ok (VFloat ((y - x) * t + x)))
  /\ (forall n b t, lerp (VInt n) b t = Raise AttributeError)
  /\ (forall x n t, lerp (VFloat x) (VInt n) t = Raise AttributeError)
  /\ (forall p l s e b t,
        lerp (VBarb p l s e) b t = BarbParameters_lerp (VBarb p l s e) b t)
  /\ (forall position length position' length' (m n m' n' : Z) A B t,
        BarbParameters_init position length (VInt m) (VInt n) = Ok A ->
        BarbParameters_init position' length' (VInt m') (VInt n') = Ok B ->
        BarbParameters_lerp A B t = Raise AttributeError).
Proof.
  repeat split; auto.
  - intros. now apply BarbParameters_init_eq.
  - intros position length position' length' m n m' n' A B t HA HB.
    unfold BarbParameters_init in HA, HB.
    apply bind_ok in HA as (x & _ & HA). apply bind_ok in HA as (l & _ & HA).
    apply bind_ok in HB as (x' & _ & HB). apply bind_ok in HB as (l' & _ & HB).
    inversion HA; inversion HB; subst; clear HA HB.
    unfold BarbParameters_lerp. cbn [getattr_position getattr_length bind].
    destruct (lerp_number_attr (clamp01 x) (value_of_number (clamp01 x')) t)
      as [(y & Ey & z & Ez)|E]; [|rewrite E; reflexivity].
    rewrite Ey, Ez. reflexivity.
Qed.

Lemma int_angles_raise_witness :
  BarbParameters_lerp
    (VBarb (VFloat 0) (VFloat 1) (VInt 0) (VInt 10))
    (VBarb (VFloat 1) (VFloat 3) (VInt 20) (VInt 30)) 0.5 = Raise AttributeError.
Proof.
  exact (proj2 (proj2 (proj2 (proj2 (proj2 int_angles_raise))))
           (VInt 0) (VInt 1) (VInt 1) (VInt 3) 0%Z 10%Z 20%Z 30%Z _ _ 0.5
           eq_refl eq_refl).
Defined.

(** C9.  The parameters the loop of [make_barb_curves] resolves, and the
    exception that ends it if one does, depend on the number of selected
    vertices and on the items of the graph alone: two runs on selections
    of the same length, whatever the vertices and whatever positions the
    host gives for them, on two graphs that hold the same items (in any
    order of insertion), resolve the same sequence of records or raise
    the same exception.  When the host gives the same positions the curves
    are the same too. *)
Theorem make_barb_curves_deterministic sin cos :
  (forall (V W : Type) (pp1 : V -> point) (pp2 : W -> point)
          (s1 : list V) (s2 : list W) g1 g2,
     length s1 = length s2 -> LineGraph_ok g1 = true -> Permutation g1 g2 ->
     resolved (make_barb_curves sin cos pp1 s1 g1) =
     resolved (make_barb_curves sin cos pp2 s2 g2))
  /\ (forall (V W : Type) (pp1 : V -> point) (pp2 : W -> point)
             (s1 : list V) (s2 : list W) g1 g2,
        map pp1 s1 = map pp2 s2 -> LineGraph_ok g1 = true -> Permutation g1 g2 ->
        make_barb_curves sin cos pp1 s1 g1 = make_barb_curves sin cos pp2 s2 g2).
Proof.
  split.
  - intros V W pp1 pp2 s1 s2 g1 g2 H Hok HP. unfold make_barb_curves. rewrite H.
    apply barbs_resolved_ext; [|exact H]. intros p. now apply get_perm.
  - intros V W pp1 pp2 s1 s2 g1 g2 H Hok HP. unfold make_barb_curves.
    assert (length s1 = length s2) as ->
      by (rewrite <- (length_map pp1 s1), H; apply length_map).
    apply barbs_ext; [|exact H]. intros p. now apply get_perm.
Qed.

Lemma make_barb_curves_deterministic_witness :
  resolved
    (make_barb_curves (fun _ => 0) (fun _ => 1) (fun n : Z => (0, 0, float_of_Z n))
       [1%Z; 2%Z; 3%Z]
       [(0, VBarb (VFloat 0) (VFloat 1) (VFloat 5) (VFloat 10));
        (0.5, VBarb (VFloat 0.5) (VFloat 4) (VFloat 45) (VFloat 50));
        (1, VBarb (VFloat 1) (VFloat 0) (VFloat 20) (VFloat 30))]) =
  resolved
    (make_barb_curves (fun _ => 0) (fun _ => 1) (fun _ : bool => (1, 2, 3))
       [true; false; true]
       [(0.5, VBarb (VFloat 0.5) (VFloat 4) (VFloat 45) (VFloat 50));
        (1, VBarb (VFloat 1) (VFloat 0) (VFloat 20) (VFloat 30));
        (0, VBarb (VFloat 0) (VFloat 1) (VFloat 5) (VFloat 10))]).
Proof.
  apply (proj1 (make_barb_curves_deterministic (fun _ => 0) (fun _ => 1)) Z bool);
    [reflexivity | reflexivity |].
  change [(0, VBarb (VFloat 0) (VFloat 1) (VFloat 5) (VFloat 10));
          (0.5, VBarb (VFloat 0.5) (VFloat 4) (VFloat 45) (VFloat 50));
          (1, VBarb (VFloat 1) (VFloat 0) (VFloat 20) (VFloat 30))]
    with ([(0, VBarb (VFloat 0) (VFloat 1) (VFloat 5) (VFloat 10))] ++
          [(0.5, VBarb (VFloat 0.5) (VFloat 4) (VFloat 45) (VFloat 50));
           (1, VBarb (VFloat 1) (VFloat 0) (VFloat 20) (VFloat 30))]).
  apply Permutation_app_comm.
Defined.

(** C4.  For a selection of [N] vertices, [1 <= N <= 2^53] (beyond that
    [float(i)] is no longer exact, and no list is that long), the loop of
    [make_barb_curves] does for vertex number [i = 0, ..., N - 1], in
    order: query the graph at [float(i) / max(N - 1, 1)] and call
    [draw_barb] on the answer.  Every position is computed without a
    division by zero; the first is [0.0]; the last is [1.0] when [N > 1];
    the positions grow strictly with [i]; and for a single vertex the
    graph is queried once, at [0.0]. *)
Theorem positions_normalized sin cos (V : Type) (pointPosition : V -> point)
    (selection : list V) (parameters : LineGraph) :
  (1 <= Z.of_nat (length selection) <= 2 ^ 53)%Z ->
  make_barb_curves sin cos pointPosition selection parameters =
    draw_each sin cos pointPosition parameters
      (combine selection
         (map (fun i : nat =>
                 float_of_Z (Z.of_nat i) /
                 float_of_Z (Z.max (Z.of_nat (length selection) - 1) 1))
              (seq 0 (length selection))))
  /\ (forall i, (0 <= i < Z.of_nat (length selection))%Z ->
       parameter_position (Z.of_nat (length selection)) i =
         Ok (float_of_Z i / float_of_Z (Z.max (Z.of_nat (length selection) - 1) 1)))
  /\ parameter_position (Z.of_nat (length selection)) 0 = Ok 0
  /\ ((1 < Z.of_nat (length selection))%Z ->
      parameter_position (Z.of_nat (length selection))
        (Z.of_nat (length selection) - 1) = Ok 1)
  /\ (forall i j p q,
        (0 <= i < j)%Z -> (j < Z.of_nat (length selection))%Z ->
        parameter_position (Z.of_nat (length selection)) i = Ok p ->
        parameter_position (Z.of_nat (length selection)) j = Ok q ->
        (p <? q) = true)
  /\ (forall vertex, selection = [vertex] ->
      make_barb_curves sin cos pointPosition selection parameters =
        (barb_info <- get parameters (VFloat 0);;
         barb <- draw_barb sin cos (pointPosition vertex) barb_info;;
         Ok [(barb_info, barb)])).
Proof.
  intros Hc. set (count := Z.of_nat (length selection)) in *.
  split; [exact (make_barb_curves_draw_each sin cos V pointPosition selection parameters Hc)|].
  split; [|split; [|split; [|split]]].
  - intros i Hi. now apply parameter_position_ok.
  - now apply parameter_position_first.
  - intros H1. apply parameter_position_last. lia.
  - intros i j p q Hij Hj Hp Hq.
    rewrite parameter_position_ok in Hp, Hq by lia.
    injection Hp as <-. injection Hq as <-.
    apply quotient_increasing; lia.
  - intros vertex ->. unfold make_barb_curves, range.
    cbn [length seq map combine barbs].
    change (parameter_position (Z.of_nat 1) (Z.of_nat 0)) with (@Ok float 0).
    cbn [bind].
    destruct (get parameters (VFloat 0)) as [info|]; cbn [bind]; [|reflexivity].
    destruct (draw_barb sin cos (pointPosition vertex) info); reflexivity.
Qed.

Lemma positions_normalized_witness :
  make_barb_curves (fun _ => 0) (fun _ => 1) (fun _ : bool => (1, 2, 3))
    [true; false; true]
    [(0, VBarb (VFloat 0) (VFloat 1) (VFloat 5) (VFloat 10));
     (1, VBarb (VFloat 1) (VFloat 0) (VFloat 20) (VFloat 30))] =
    draw_each (fun _ => 0) (fun _ => 1) (fun _ : bool => (1, 2, 3))
      [(0, VBarb (VFloat 0) (VFloat 1) (VFloat 5) (VFloat 10));
       (1, VBarb (VFloat 1) (VFloat 0) (VFloat 20) (VFloat 30))]
      (combine [true; false; true]
         (map (fun i : nat =>
                 float_of_Z (Z.of_nat i) /
                 float_of_Z (Z.max (Z.of_nat (length [true; false; true]) - 1) 1))
              (seq 0 (length [true; false; true]))))
  /\ (forall i, (0 <= i < Z.of_nat (length [true; false; true]))%Z ->
       parameter_position (Z.of_nat (length [true; false; true])) i =
         Ok (float_of_Z i /
             float_of_Z (Z.max (Z.of_nat (length [true; false; true]) - 1) 1)))
  /\ parameter_position (Z.of_nat (length [true; false; true])) 0 = Ok 0
  /\ ((1 < Z.of_nat (length [true; false; true]))%Z ->
      parameter_position (Z.of_nat (length [true; false; true]))
        (Z.of_nat (length [true; false; true]) - 1) = Ok 1)
  /\ (forall i j p q,
        (0 <= i < j)%Z -> (j < Z.of_nat (length [true; false; true]))%Z ->
        parameter_position (Z.of_nat (length [true; false; true])) i = Ok p ->
        parameter_position (Z.of_nat (length [true; false; true])) j = Ok q ->
        (p <? q) = true)
  /\ (forall vertex, [true; false; true] = [vertex] ->
      make_barb_curves (fun _ => 0) (fun _ => 1) (fun _ : bool => (1, 2, 3))
        [true; false; true]
        [(0, VBarb (VFloat 0) (VFloat 1) (VFloat 5) (VFloat 10));
         (1, VBarb (VFloat 1) (VFloat 0) (VFloat 20) (VFloat 30))] =
        (barb_info <- get [(0, VBarb (VFloat 0) (VFloat 1) (VFloat 5) (VFloat 10));
                           (1, VBarb (VFloat 1) (VFloat 0) (VFloat 20) (VFloat 30))]
                        (VFloat 0);;
         barb <- draw_barb (fun _ => 0) (fun _ => 1) (1, 2, 3) barb_info;;
         Ok [(barb_info, barb)])).
Proof.
  apply (positions_normalized (fun _ => 0) (fun _ => 1) bool (fun _ => (1, 2, 3))
           [true; false; true]
           [(0, VBarb (VFloat 0) (VFloat 1) (VFloat 5) (VFloat 10));
            (1, VBarb (VFloat 1) (VFloat 0) (VFloat 20) (VFloat 30))]).
  simpl. lia.
Defined.

(* ================================================================== *)
(** * Further properties of the code                                   *)
(* ================================================================== *)

(** Scenario A: the graph with only the default points is flat. *)
Lemma default_graph_is_flat :
  (g <- LineGraph_init None;; get g (VFloat 0.5)) = Ok (VFloat 0).
Proof. reflexivity. Qed.

(** [set] refuses a position outside [0,1] with [ValueError]. *)
Lemma set_outside_raises g parameter v k :
  py_float parameter = Ok k -> in_unit k = false ->
  set g parameter v = Raise ValueError.
Proof.
  intros Hk Hu. unfold set. rewrite Hk. cbn [bind].
  fold (in_unit k). rewrite Hu. reflexivity.
Qed.

Lemma set_outside_raises_witness :
  set [(0, VFloat 0); (1, VFloat 0)] (VFloat 1.5) (VFloat 2) = Raise ValueError.
Proof.
  exact (set_outside_raises [(0, VFloat 0); (1, VFloat 0)] (VFloat 1.5) (VFloat 2) 1.5
           eq_refl eq_refl).
Defined.

Lemma get_nan_raises_witness :
  get [(0, VFloat 0); (0.5, VFloat 10); (1, VFloat 0)] (VFloat nan) = Raise KeyError.
Proof.
  exact (get_nan_raises [(0, VFloat 0); (0.5, VFloat 10); (1, VFloat 0)] eq_refl).
Defined.

Lemma get_above_one_raises_witness :
  get [(0, VFloat 0); (0.5, VFloat 10); (1, VFloat 0)] (VFloat 1.5) = Raise KeyError.
Proof.
  exact (get_above_one_raises [(0, VFloat 0); (0.5, VFloat 10); (1, VFloat 0)] 1.5
           eq_refl eq_refl).
Defined.

(** A record whose position was clamped holds the int [0] or [1] there,
    and [lerp] raises on it: an int has no method [lerp]. *)
Lemma clamped_record_lerp_raises position length start_angle end_angle x l other t :
  py_float position = Ok x -> py_float length = Ok l ->
  number_ltb (Float x) (Int 0) = true \/ number_ltb (Int 1) (Float x) = true ->
  (self <- BarbParameters_init position length start_angle end_angle;;
   BarbParameters_lerp self other t) = Raise AttributeError.
Proof.
  intros Hx Hl Hout.
  rewrite (BarbParameters_init_eq _ _ start_angle end_angle x l Hx Hl). cbn [bind].
  assert (exists n, clamp01 x = Int n) as [n ->].
  { rewrite clamp01_cases. destruct (number_ltb (Int 1) (Float x)); [eauto|].
    destruct Hout as [->|H]; [eauto | discriminate]. }
  unfold BarbParameters_lerp. cbn [getattr_position bind value_of_number].
  destruct other; reflexivity.
Qed.

Lemma clamped_record_lerp_raises_witness :
  (self <- BarbParameters_init (VFloat (-0.5)) (VFloat 1) (VFloat 0) (VFloat 10);;
   BarbParameters_lerp self (VBarb (VFloat 1) (VFloat 3) (VFloat 20) (VFloat 30)) 0.5)
  = Raise AttributeError.
Proof.
  exact (clamped_record_lerp_raises (VFloat (-0.5)) (VFloat 1) (VFloat 0) (VFloat 10)
           (-0.5) 1 (VBarb (VFloat 1) (VFloat 3) (VFloat 20) (VFloat 30)) 0.5
           eq_refl eq_refl (or_introl eq_refl)).
Defined.

(** The graph [lerp] returns keeps the invariant and has its keys in [0,1]. *)
Lemma LineGraph_lerp_ok g1 g2 t r :
  LineGraph_lerp g1 g2 t = Ok r -> LineGraph_ok r = true /\ unit_keys r = true.
Proof.
  intros H. pose proof (LineGraph_lerp_unit g1 g2 t r H) as U. split; [|exact U].
  revert H. apply (LineGraph_lerp_inv (fun g => LineGraph_ok g = true)).
  - intros g k v Hk Hg. destruct (LineGraph_ok_parts g Hg) as (H0 & H1 & Ho & Hd).
    unfold LineGraph_ok.
    rewrite !dict_set_mem_mono, dict_set_ordered, dict_set_distinct;
      auto using in_unit_ordered.
  - intros g H. inversion H. reflexivity.
Qed.

Lemma LineGraph_lerp_ok_witness :
  LineGraph_ok [(0, VFloat 0.375); (1, VFloat 0)] = true /\
  unit_keys [(0, VFloat 0.375); (1, VFloat 0)] = true.
Proof.
  exact (LineGraph_lerp_ok [(0, VFloat 0.5); (1, VFloat 0)] [(0, VFloat 0.25); (1, VFloat 0)]
           0.5 [(0, VFloat 0.375); (1, VFloat 0)] eq_refl).
Defined.

(** ** The clamp of [BarbParameters] *)

(** For every position that converts to a number that is not a NaN, the
    constructor stores the middle of
    [sorted([0, float(position), 1])]: the int [0] for a position below 0,
    the int [1] for one above 1, the float itself otherwise; the stored
    position lies in [0,1], and [-0.5] and [1.5] are stored as values equal
    to [0.0] and [1.0]. *)
Theorem BarbParameters_init_clamps :
  (forall position length start_angle end_angle x l,
     py_float position = Ok x -> py_float length = Ok l ->
     F64.ordered x = true ->
     exists stored,
       BarbParameters_init position length start_angle end_angle =
         Ok (VBarb (value_of_number stored) (VFloat l) start_angle end_angle) /\
       (number_ltb (Float x) (Int 0) = true -> stored = Int 0) /\
       (number_ltb (Int 1) (Float x) = true -> stored = Int 1) /\
       (number_leb (Int 0) (Float x) = true -> number_leb (Float x) (Int 1) = true ->
        stored = Float x) /\
       number_leb (Int 0) stored = true /\ number_leb stored (Int 1) = true)
  /\ (exists stored,
        getattr_position' (BarbParameters_init (VFloat (-0.5)) (VFloat 1) (VFloat 0) (VFloat 10))
          = Ok (value_of_number stored) /\
        number_eqb stored (Float 0) = true)
  /\ (exists stored,
        getattr_position' (BarbParameters_init (VFloat 1.5) (VFloat 1) (VFloat 0) (VFloat 10))
          = Ok (value_of_number stored) /\
        number_eqb stored (Float 1) = true).
Proof.
  split; [|split].
  - intros position length start_angle end_angle x l Hx Hl Ox.
    exists (clamp01 x). split; [now apply BarbParameters_init_eq|].
    pose proof (clamp01_unit x Ox) as [U0 U1].
    rewrite clamp01_cases in *.
    unfold number_leb, number_ltb in *. cbn [number_compare] in *.
    destruct (Z_SFcompare_some 0 _ (ordered_not_nan x Ox)) as [c0 E0].
    destruct (Z_SFcompare_some 1 _ (ordered_not_nan x Ox)) as [c1 E1].
    pose proof (Z_SFcompare_0_1 (Prim2SF x)) as M.
    rewrite E0, E1 in *. cbn [option_map] in *.
    destruct c0, c1; cbn in *; repeat split; try congruence;
      specialize (M eq_refl); discriminate M.
  - exists (Int 0). split; reflexivity.
  - exists (Int 1). split; reflexivity.
Qed.

Lemma BarbParameters_init_clamps_witness :
  exists stored,
    BarbParameters_init (VInt 2) (VInt 1) (VFloat 0) (VFloat 10) =
      Ok (VBarb (value_of_number stored) (VFloat 1) (VFloat 0) (VFloat 10)) /\
    (number_ltb (Float 2) (Int 0) = true -> stored = Int 0) /\
    (number_ltb (Int 1) (Float 2) = true -> stored = Int 1) /\
    (number_leb (Int 0) (Float 2) = true -> number_leb (Float 2) (Int 1) = true ->
     stored = Float 2) /\
    number_leb (Int 0) stored = true /\ number_leb stored (Int 1) = true.
Proof.
  exact (proj1 BarbParameters_init_clamps
           (VInt 2) (VInt 1) (VFloat 0) (VFloat 10) 2 1 eq_refl eq_refl eq_refl).
Defined.

(** ** The graph as a dict *)

(** [LineGraph(g.to_dict())] is [g] again: the same points in the same
    order. *)
Theorem to_dict_round_trip g : graph g -> LineGraph_init (Some (to_dict g)) = Ok g.
Proof.
  intros G. destruct (graph_has01 g G) as (H0 & H1 & Hd).
  rewrite LineGraph_init_eq, float_keys_to_dict. cbn [bind].
  rewrite (fold_set_distinct g []) by exact Hd. cbn [app].
  unfold with_default. rewrite H0, H1. reflexivity.
Qed.

Lemma to_dict_round_trip_witness :
  LineGraph_init (Some (to_dict [(0, VFloat 0); (1, VFloat 0); (0.5, VFloat 3)]))
  = Ok [(0, VFloat 0); (1, VFloat 0); (0.5, VFloat 3)].
Proof.
  exact (to_dict_round_trip [(0, VFloat 0); (1, VFloat 0); (0.5, VFloat 3)]
           (graph_set [(0, VFloat 0); (1, VFloat 0)] (VFloat 0.5) (VFloat 3) _
              (graph_init None _ eq_refl) eq_refl)).
Defined.

(** [set] changes one point: every other point keeps its value; the sorted
    keys stay as they are when the position was a key, and gain exactly
    the position when it was not. *)
Theorem set_changes_one_point g p v g' :
  set g (VFloat p) v = Ok g' ->
  (forall k, dict_mem g k = true -> (k =? p) = false ->
     dict_mem g' k = true /\ get g' (VFloat k) = get g (VFloat k)) /\
  (dict_mem g p = true -> point_locations g' = point_locations g) /\
  (dict_mem g p = false -> Permutation (point_locations g') (p :: point_locations g)).
Proof.
  intros H. split; [|split].
  - intros k Hk Hne. exact (set_keeps_other_points g p v g' k H Hk Hne).
  - intros Hm. apply set_inv in H as (p' & Hp & _ & ->). inversion Hp; subst p'.
    unfold point_locations. now rewrite keys_dict_set, Hm.
  - intros Hm. apply set_inv in H as (p' & Hp & _ & ->). inversion Hp; subst p'.
    unfold point_locations. rewrite keys_dict_set, Hm.
    eapply Permutation_trans; [apply sorted_perm|].
    eapply Permutation_trans; [apply Permutation_app_comm|]. cbn [app].
    constructor. symmetry. apply sorted_perm.
Qed.

Lemma set_changes_one_point_witness :
  (forall k, dict_mem [(0, VFloat 0); (1, VFloat 7)] k = true -> (k =? 0.5) = false ->
     dict_mem [(0, VFloat 0); (1, VFloat 7); (0.5, VFloat 3)] k = true /\
     get [(0, VFloat 0); (1, VFloat 7); (0.5, VFloat 3)] (VFloat k) =
     get [(0, VFloat 0); (1, VFloat 7)] (VFloat k)) /\
  (dict_mem [(0, VFloat 0); (1, VFloat 7)] 0.5 = true ->
   point_locations [(0, VFloat 0); (1, VFloat 7); (0.5, VFloat 3)] =
   point_locations [(0, VFloat 0); (1, VFloat 7)]) /\
  (dict_mem [(0, VFloat 0); (1, VFloat 7)] 0.5 = false ->
   Permutation (point_locations [(0, VFloat 0); (1, VFloat 7); (0.5, VFloat 3)])
     (0.5 :: point_locations [(0, VFloat 0); (1, VFloat 7)])).
Proof.
  exact (set_changes_one_point [(0, VFloat 0); (1, VFloat 7)] 0.5 (VFloat 3) _ eq_refl).
Defined.

(** [point_locations] lists every key once, in strictly ascending order;
    on a graph with its keys in the unit interval the list starts at 0.0
    and ends at 1.0. *)
Theorem point_locations_spans g :
  LineGraph_ok g = true -> unit_keys g = true ->
  ascending (point_locations g) /\
  Permutation (point_locations g) (keys g) /\
  (hd 1 (point_locations g) =? 0) = true /\
  (last (point_locations g) 0 =? 1) = true.
Proof.
  intros Hok Hu.
  destruct (LineGraph_ok_parts g Hok) as (H0 & H1 & Ho & Hd).
  pose proof (point_locations_ascending g Hok) as Hasc.
  assert (forall k, In k (point_locations g) -> in_unit k = true) as Hunit.
  { intros k Hk. apply In_point_locations in Hk.
    unfold unit_keys in Hu. rewrite forallb_forall in Hu. auto. }
  assert (ordered_keys (point_locations g) = true) as Ho'.
  { unfold ordered_keys. apply forallb_forall. intros k Hk.
    apply in_unit_ordered. auto. }
  destruct (point_locations_has g 0 H0) as (k0 & Hk0 & E0).
  destruct (point_locations_has g 1 H1) as (k1 & Hk1 & E1).
  split; [exact Hasc|]. split; [apply sorted_perm|].
  destruct (point_locations g) as [|a l] eqn:EP; [destruct Hk0|]. split.
  - cbn [hd]. apply F64Facts.leb_antisym.
    + rewrite <- (F64Facts.eqb_leb_r _ _ a E0).
      apply (ascending_head_le a l); auto. apply in_unit_ordered, Hunit. now left.
    + pose proof (Hunit a (or_introl eq_refl)) as U. unfold in_unit in U.
      now apply andb_true_iff in U as [U _].
  - apply F64Facts.leb_antisym.
    + assert (In (last (a :: l) 0) (a :: l)) as Hin by (apply last_In; discriminate).
      pose proof (Hunit _ Hin) as U. unfold in_unit in U.
      now apply andb_true_iff in U as [_ U].
    + rewrite <- (F64Facts.eqb_leb_l _ _ (last (a :: l) 0) E1).
      now apply ascending_le_last.
Qed.

Lemma point_locations_spans_witness :
  ascending (point_locations [(0, VFloat 0); (1, VFloat 0); (0.5, VFloat 3)]) /\
  Permutation (point_locations [(0, VFloat 0); (1, VFloat 0); (0.5, VFloat 3)])
    (keys [(0, VFloat 0); (1, VFloat 0); (0.5, VFloat 3)]) /\
  (hd 1 (point_locations [(0, VFloat 0); (1, VFloat 0); (0.5, VFloat 3)]) =? 0) = true /\
  (last (point_locations [(0, VFloat 0); (1, VFloat 0); (0.5, VFloat 3)]) 0 =? 1) = true.
Proof.
  exact (point_locations_spans [(0, VFloat 0); (1, VFloat 0); (0.5, VFloat 3)]
           eq_refl eq_refl).
Defined.

(** [in]: every graph holds 0.0 and 1.0, which the ints 0 and 1 find as
    well; after [set] the position is in the graph, and whatever was in
    it still is. *)
Theorem contains_ends_and_set g :
  graph g ->
  contains g (VFloat 0) = true /\ contains g (VFloat 1) = true /\
  contains g (VInt 0) = true /\ contains g (VInt 1) = true /\
  (forall p v g', set g (VFloat p) v = Ok g' ->
     contains g' (VFloat p) = true /\
     forall q, contains g q = true -> contains g' q = true).
Proof.
  intros G. destruct (graph_has01 g G) as (H0 & H1 & _).
  destruct (contains_ends_aux g H0 H1) as (A & B & C & D).
  split; [exact A|]. split; [exact B|]. split; [exact C|]. split; [exact D|].
  intros p v g' H. exact (contains_set_aux g p v g' H).
Qed.

Lemma contains_ends_and_set_witness :
  contains [(0, VFloat 0); (1, VFloat 0)] (VFloat 0) = true /\
  contains [(0, VFloat 0); (1, VFloat 0)] (VFloat 1) = true /\
  contains [(0, VFloat 0); (1, VFloat 0)] (VInt 0) = true /\
  contains [(0, VFloat 0); (1, VFloat 0)] (VInt 1) = true /\
  (forall p v g', set [(0, VFloat 0); (1, VFloat 0)] (VFloat p) v = Ok g' ->
     contains g' (VFloat p) = true /\
     forall q, contains [(0, VFloat 0); (1, VFloat 0)] q = true -> contains g' q = true).
Proof.
  exact (contains_ends_and_set [(0, VFloat 0); (1, VFloat 0)] (graph_init None _ eq_refl)).
Defined.

(** [get] returns for every position up to 1.0, below 0.0 as well: a
    float on a graph of floats, a record on a graph of records. *)
Theorem get_returns_up_to_one g p :
  LineGraph_ok g = true -> (p <=? 1) = true ->
  (scalar_graph g = true -> exists x, get g (VFloat p) = Ok (VFloat x)) /\
  (record_graph g = true ->
     exists r, get g (VFloat p) = Ok r /\ is_barb_info r = true).
Proof.
  intros Hok Hp. split.
  - intros Hs.
    destruct (get_cases g p Hok Hp)
      as [(v & Hv & ->)|(low & high & vl & vh & _ & Hl & Hh & ->)].
    + pose proof (dict_get_scalar g p v Hs Hv) as F. destruct v; try discriminate. eauto.
    + apply lerp_floats; eapply dict_get_scalar; eauto.
  - intros Hr. now apply get_record.
Qed.

Lemma get_returns_up_to_one_witness :
  (scalar_graph [(0, VFloat 1); (1, VFloat 3)] = true ->
   exists x, get [(0, VFloat 1); (1, VFloat 3)] (VFloat (-0.5)) = Ok (VFloat x)) /\
  (record_graph [(0, VFloat 1); (1, VFloat 3)] = true ->
   exists r, get [(0, VFloat 1); (1, VFloat 3)] (VFloat (-0.5)) = Ok r /\
             is_barb_info r = true).
Proof.
  exact (get_returns_up_to_one [(0, VFloat 1); (1, VFloat 3)] (-0.5) eq_refl eq_refl).
Defined.

(** Blending a graph of finite floats with itself, by any finite [t],
    gives a graph with the same keys and, at each key, a value equal to
    the one stored. *)
Theorem LineGraph_lerp_same g t :
  LineGraph_ok g = true -> unit_keys g = true -> finite_graph g = true ->
  is_finite t = true ->
  exists r,
    LineGraph_lerp g g t = Ok r /\
    (forall k, dict_mem r k = dict_mem g k) /\
    (forall k x, dict_get g k = Some (VFloat x) ->
       exists z, get r (VFloat k) = Ok (VFloat z) /\ (z =? x) = true).
Proof.
  intros Hok Hu Hf Ht. pose proof (finite_graph_scalar g Hf) as Hs.
  destruct (LineGraph_lerp_scalar g g t Hok Hs Hu Hok Hs Hu) as [r Hr].
  destruct (LineGraph_ok_parts g Hok) as (H0 & H1 & _).
  exists r. split; [exact Hr|]. split.
  - intros k. rewrite (LineGraph_lerp_mem g g t r H0 H1 Hr k). apply orb_diag.
  - intros k x Hk.
    assert (dict_mem r k = true) as Hm.
    { rewrite (LineGraph_lerp_mem g g t r H0 H1 Hr k), orb_diag.
      apply dict_mem_get. eauto. }
    destruct (LineGraph_lerp_get g g t r H0 H1 H0 Hr k Hm)
      as (v & (a & b & Ha & Hb & Hv) & Hg).
    rewrite (get_stored g k _ Hk) in Ha, Hb. inversion Ha; inversion Hb; subst a b.
    cbn [lerp] in Hv. inversion Hv; subst v.
    exists ((x - x) * t + x). split; [exact Hg|].
    destruct (dict_get_finite g k _ Hf Hk) as (x' & E & Fx). inversion E; subst x'.
    now apply blend_same.
Qed.

Lemma LineGraph_lerp_same_witness :
  exists r,
    LineGraph_lerp [(0, VFloat 0.7); (1, VFloat 0.1)] [(0, VFloat 0.7); (1, VFloat 0.1)] 0.3
      = Ok r /\
    (forall k, dict_mem r k = dict_mem [(0, VFloat 0.7); (1, VFloat 0.1)] k) /\
    (forall k x, dict_get [(0, VFloat 0.7); (1, VFloat 0.1)] k = Some (VFloat x) ->
       exists z, get r (VFloat k) = Ok (VFloat z) /\ (z =? x) = true).
Proof.
  exact (LineGraph_lerp_same [(0, VFloat 0.7); (1, VFloat 0.1)] 0.3
           eq_refl eq_refl eq_refl eq_refl).
Defined.

(** At [t = 0.0] the blend of two records of floats is a record whose
    four fields equal those of the first one, when its position lies in
    the unit interval and no difference of two fields overflows. *)
Theorem BarbParameters_lerp_zero p l s e p' l' s' e' :
  in_unit p = true -> F64.ordered l = true -> F64.ordered s = true ->
  F64.ordered e = true ->
  is_finite (p' - p) = true -> is_finite (l' - l) = true ->
  is_finite (s' - s) = true -> is_finite (e' - e) = true ->
  exists p0 l0 s0 e0,
    BarbParameters_lerp
      (VBarb (VFloat p) (VFloat l) (VFloat s) (VFloat e))
      (VBarb (VFloat p') (VFloat l') (VFloat s') (VFloat e')) 0 =
      Ok (VBarb (VFloat p0) (VFloat l0) (VFloat s0) (VFloat e0)) /\
    (p0 =? p) = true /\ (l0 =? l) = true /\ (s0 =? s) = true /\ (e0 =? e) = true.
Proof.
  intros Hp Ol Os Oe Fp Fl Fs Fe.
  pose proof (blend_zero p p' (in_unit_ordered p Hp) Fp) as Ep.
  exists ((p' - p) * 0 + p), ((l' - l) * 0 + l), ((s' - s) * 0 + s), ((e' - e) * 0 + e).
  split.
  - unfold BarbParameters_lerp.
    cbn [getattr_position getattr_length getattr_start_angle getattr_end_angle lerp bind].
    unfold BarbParameters_init. cbn [py_float bind].
    rewrite (clamp01_in_unit _ (eqb_in_unit _ _ Ep Hp)). reflexivity.
  - repeat split; auto using blend_zero.
Qed.

Lemma BarbParameters_lerp_zero_witness :
  exists p0 l0 s0 e0,
    BarbParameters_lerp
      (VBarb (VFloat 0.25) (VFloat 1) (VFloat 5) (VFloat 10))
      (VBarb (VFloat 0.75) (VFloat 3) (VFloat 20) (VFloat 30)) 0 =
      Ok (VBarb (VFloat p0) (VFloat l0) (VFloat s0) (VFloat e0)) /\
    (p0 =? 0.25) = true /\ (l0 =? 1) = true /\ (s0 =? 5) = true /\ (e0 =? 10) = true.
Proof.
  exact (BarbParameters_lerp_zero 0.25 1 5 10 0.75 3 20 30
           eq_refl eq_refl eq_refl eq_refl eq_refl eq_refl eq_refl eq_refl).
Defined.

(** ** The sampling loop and the curves *)

Section BarbFacts.

Variables sin cos : float -> float.
Hypothesis sin_finite : forall a, is_finite a = true -> is_finite (sin a) = true.
Hypothesis cos_finite : forall a, is_finite a = true -> is_finite (cos a) = true.

(** A record of length 0.0 draws a curve of four points that all equal
    the position of the vertex. *)
Theorem draw_barb_zero_length x y z pos s e :
  is_finite s = true -> is_finite e = true ->
  F64.ordered x = true -> F64.ordered y = true -> F64.ordered z = true ->
  exists p1 p2 p3,
    draw_barb sin cos (x, y, z) (VBarb pos (VFloat 0) (VFloat s) (VFloat e)) =
      Ok [(x, y, z); p1; p2; p3] /\
    coords_eqb p1 (x, y, z) = true /\ coords_eqb p2 (x, y, z) = true /\
    coords_eqb p3 (x, y, z) = true.
Proof.
  intros Hs He Ox Oy Oz.
  pose proof (radians_finite s Hs) as Rs. pose proof (radians_finite e He) as Re.
  unfold draw_barb.
  cbn [getattr_start_angle getattr_end_angle getattr_length getattr_position
       radians py_float bind].
  rewrite !(math_1_finite sin (s * degToRad)) by auto.
  rewrite !(math_1_finite cos (s * degToRad)) by auto.
  rewrite !(math_1_finite sin (e * degToRad)) by auto.
  cbn [bind fst snd]. change (0 / 2) with 0.
  set (ss := sin (s * degToRad)). set (cs := cos (s * degToRad)).
  set (se := sin (e * degToRad)).
  assert (is_finite ss = true) as Fss by (apply sin_finite, Rs).
  assert (is_finite cs = true) as Fcs by (apply cos_finite, Rs).
  assert (is_finite se = true) as Fse by (apply sin_finite, Re).
  do 3 eexists. split; [reflexivity|].
  assert ((0 + y =? y) = true) as Hy by (apply add_zero_l; auto).
  assert (forall r c, is_finite r = true -> F64.ordered c = true ->
                      (r * 0 / 2 + c =? c) = true) as H1.
  { intros r c Hr Hc. apply add_zero_l; [|exact Hc].
    apply div_zero_two, mul_zero_finite, Hr. }
  assert (forall r c, is_finite r = true -> F64.ordered c = true ->
                      (r * 0 + c =? c) = true) as H2.
  { intros r c Hr Hc. apply add_zero_l; [|exact Hc]. apply mul_zero_finite, Hr. }
  unfold coords_eqb. rewrite Hy, !H1, !H2 by assumption. cbn [andb].
  split; [reflexivity|]. split; [reflexivity|].
  rewrite andb_true_r. apply andb_true_iff. split.
  - apply (F64Facts.eqb_trans _ (ss * 0 + x)); [|apply H2; assumption].
    apply H2; [assumption|]. exact (F64Facts.eqb_ordered_l _ _ (H2 ss x Fss Ox)).
  - apply (F64Facts.eqb_trans _ (cs * 0 + z)); [|apply H2; assumption].
    apply H2; [assumption|]. exact (F64Facts.eqb_ordered_l _ _ (H2 cs z Fcs Oz)).
Qed.

End BarbFacts.

Lemma draw_barb_zero_length_witness :
  exists p1 p2 p3,
    draw_barb (fun _ => 0) (fun _ => 1) (1, 2, 3)
      (VBarb (VFloat 1) (VFloat 0) (VFloat 30) (VFloat 60)) =
      Ok [(1, 2, 3); p1; p2; p3] /\
    coords_eqb p1 (1, 2, 3) = true /\ coords_eqb p2 (1, 2, 3) = true /\
    coords_eqb p3 (1, 2, 3) = true.
Proof.
  exact (draw_barb_zero_length (fun _ => 0) (fun _ => 1)
           (fun _ _ => eq_refl) (fun _ _ => eq_refl)
           1 2 3 (VFloat 1) 30 60 eq_refl eq_refl eq_refl eq_refl eq_refl).
Defined.

(** The end angle only moves the [x] of the last control point. *)
Theorem end_angle_moves_tip_x sin cos position p l s e e' pts pts' :
  draw_barb sin cos position (VBarb p l s e) = Ok pts ->
  draw_barb sin cos position (VBarb p l s e') = Ok pts' ->
  firstn 3 pts = firstn 3 pts' /\
  map (fun q : point => (snd (fst q), snd q)) pts =
  map (fun q : point => (snd (fst q), snd q)) pts'.
Proof.
  destruct position as [[x y] z]. unfold draw_barb.
  cbn [getattr_start_angle getattr_end_angle getattr_length getattr_position bind].
  intros H H'.
  destruct (radians s) as [a|]; cbn [bind] in H, H'; [|discriminate].
  destruct (radians e) as [b|]; cbn [bind] in H; [|discriminate].
  destruct (radians e') as [b'|]; cbn [bind] in H'; [|discriminate].
  destruct (py_float l) as [len|]; cbn [bind] in H, H'; [|discriminate].
  destruct (math_1 sin a) as [sa|]; cbn [bind] in H, H'; [|discriminate].
  destruct (math_1 cos a) as [ca|]; cbn [bind] in H, H'; [|discriminate].
  destruct (math_1 sin b) as [sb|]; cbn [bind] in H; [|discriminate].
  destruct (math_1 sin b') as [sb'|]; cbn [bind] in H'; [|discriminate].
  inversion H; inversion H'; subst. split; reflexivity.
Qed.

Lemma end_angle_moves_tip_x_witness :
  exists pts pts',
    draw_barb (fun _ => 0.5) (fun _ => 0.25) (1, 2, 3)
      (VBarb (VFloat 1) (VFloat 4) (VFloat 30) (VFloat 60)) = Ok pts /\
    draw_barb (fun _ => 0.5) (fun _ => 0.25) (1, 2, 3)
      (VBarb (VFloat 1) (VFloat 4) (VFloat 30) (VFloat 90)) = Ok pts' /\
    firstn 3 pts = firstn 3 pts' /\
    map (fun q : point => (snd (fst q), snd q)) pts =
    map (fun q : point => (snd (fst q), snd q)) pts'.
Proof.
  eexists. eexists. split; [reflexivity|]. split; [reflexivity|].
  exact (end_angle_moves_tip_x (fun _ => 0.5) (fun _ => 0.25) (1, 2, 3)
           (VFloat 1) (VFloat 4) (VFloat 30) (VFloat 60) (VFloat 90) _ _ eq_refl eq_refl).
Defined.

(** [make_barb_curves] needs records at both ends of the graph. *)
Theorem endpoints_must_be_records sin cos (V : Type) (pointPosition : V -> point)
    (selection : list V) (parameters : LineGraph) :
  (1 <= Z.of_nat (List.length selection) <= 2 ^ 53)%Z ->
  (forall v, dict_get parameters 0 = Some v -> (forall p l s e, v <> VBarb p l s e) ->
     make_barb_curves sin cos pointPosition selection parameters =
       Raise AttributeError) /\
  (forall v, dict_get parameters 1 = Some v -> (forall p l s e, v <> VBarb p l s e) ->
     (2 <= Z.of_nat (List.length selection))%Z ->
     exists e, make_barb_curves sin cos pointPosition selection parameters = Raise e).
Proof.
  intros Hc. split.
  - intros v Hv Hn. unfold make_barb_curves.
    destruct selection as [|w selection]; [simpl in Hc; lia|].
    remember (Z.of_nat (List.length (w :: selection))) as count eqn:Ec.
    unfold range. cbn [List.length seq map combine barbs].
    change (Z.of_nat 0) with 0%Z.
    rewrite (parameter_position_first count Hc). cbn [bind].
    unfold get. cbn [py_float bind]. rewrite Hv. cbn [bind].
    rewrite (draw_barb_number _ _ _ v Hn). reflexivity.
  - intros v Hv Hn H2.
    destruct (make_barb_curves sin cos pointPosition selection parameters)
      as [curves|e] eqn:E; [exfalso|eauto].
    unfold make_barb_curves in E.
    destruct (combine_range_last V selection) as [vertex Hin].
    { intros ->. simpl in H2. lia. }
    destruct (barbs_ok _ _ _ _ _ _ _ _ E _ _ Hin) as (p & info & barb & Hp & Hg & Hd).
    rewrite parameter_position_last in Hp by lia. inversion Hp; subst p.
    unfold get in Hg. cbn [py_float bind] in Hg. rewrite Hv in Hg. inversion Hg; subst info.
    rewrite (draw_barb_number _ _ _ v Hn) in Hd. discriminate.
Qed.

Lemma endpoints_must_be_records_witness :
  (forall v, dict_get [(0, VFloat 0); (1, VFloat 0)] 0 = Some v ->
     (forall p l s e, v <> VBarb p l s e) ->
     make_barb_curves (fun _ => 0) (fun _ => 1) (fun _ : nat => (1, 2, 3))
       [1%nat; 2%nat] [(0, VFloat 0); (1, VFloat 0)] = Raise AttributeError) /\
  (forall v, dict_get [(0, VFloat 0); (1, VFloat 0)] 1 = Some v ->
     (forall p l s e, v <> VBarb p l s e) ->
     (2 <= Z.of_nat (List.length [1%nat; 2%nat]))%Z ->
     exists e,
       make_barb_curves (fun _ => 0) (fun _ => 1) (fun _ : nat => (1, 2, 3))
         [1%nat; 2%nat] [(0, VFloat 0); (1, VFloat 0)] = Raise e).
Proof.
  apply (endpoints_must_be_records (fun _ => 0) (fun _ => 1) nat (fun _ => (1, 2, 3))
           [1%nat; 2%nat] [(0, VFloat 0); (1, VFloat 0)]).
  simpl. lia.
Defined.

Section LoopFacts.

Variables sin cos : float -> float.
Hypothesis sin_finite : forall a, is_finite a = true -> is_finite (sin a) = true.
Hypothesis cos_finite : forall a, is_finite a = true -> is_finite (cos a) = true.

(** On a graph with keys in [0,1] whose values are records with float
    fields and angles within a full turn either way, [make_barb_curves]
    returns, for up to [2^53] vertices: for each vertex a record and a
    curve of four points; the first vertex gets the record stored at 0.0
    and, of several vertices, the last one the record stored at 1.0.  The
    sine and the cosine of the C library are finite on finite numbers. *)
Theorem make_barb_curves_on_records (V : Type) (pointPosition : V -> point)
    (selection : list V) (parameters : LineGraph) :
  LineGraph_ok parameters = true -> unit_keys parameters = true ->
  forallb (fun kv => angles_within 360 (snd kv)) parameters = true ->
  (Z.of_nat (List.length selection) <= 2 ^ 53)%Z ->
  exists out,
    make_barb_curves sin cos pointPosition selection parameters = Ok out /\
    List.length out = List.length selection /\
    forallb is_barb out = true /\
    (selection <> [] -> option_map fst (nth_error out 0) = dict_get parameters 0) /\
    ((2 <= List.length selection)%nat ->
     option_map fst (nth_error out (List.length selection - 1)) = dict_get parameters 1).
Proof.
  intros Hok Hu Ha Hn.
  apply (make_barb_curves_tame sin cos sin_finite cos_finite pointPosition 9);
    try assumption; [lia|].
  apply Forall_forall. intros kv Hin.
  rewrite forallb_forall in Ha.
  exact (angles_within_tame 9 360 _ (proj2 small_360) (proj1 small_360) (Ha kv Hin)).
Qed.

(** The graph the window builds, with the angles its sliders allow (from
    -180 to 180), makes [make_barb_curves] return for every selection of
    up to [2^53] vertices, whatever the lengths are: the first vertex gets
    the record of the base sliders (with 5 degrees added to its start
    angle), the last one the record of length 0.0. *)
Theorem window_graph_resolves (V : Type) (pointPosition : V -> point)
    (selection : list V) (l0 s0 e0 l1 s1 e1 l2 s2 e2 l3 s3 e3 : float) :
  (Z.of_nat (List.length selection) <= 2 ^ 53)%Z ->
  forallb (within 180) [s0; e0; s1; e1; s2; e2; s3; e3] = true ->
  exists g out,
    window_graph l0 s0 e0 l1 s1 e1 l2 s2 e2 l3 s3 e3 = Ok g /\
    point_locations g = [0; 0.1; 0.5; 0.95; 1] /\
    make_barb_curves sin cos pointPosition selection g = Ok out /\
    List.length out = List.length selection /\
    forallb is_barb out = true /\
    (selection <> [] ->
     option_map fst (nth_error out 0) =
       Some (VBarb (VFloat 0) (VFloat l0) (VFloat (s0 + 5)) (VFloat e0))) /\
    ((2 <= List.length selection)%nat ->
     option_map fst (nth_error out (List.length selection - 1)) =
       Some (VBarb (VFloat 1) (VFloat 0) (VFloat s3) (VFloat e3))).
Proof.
  intros Hn Hs. rewrite window_graph_eq. eexists.
  cbn [forallb] in Hs. rewrite !andb_true_iff in Hs.
  destruct Hs as (Hs0 & He0 & Hs1 & He1 & Hs2 & He2 & Hs3 & He3 & _).
  destruct small_180 as (P180 & N180 & P5).
  assert (forall x, within 180 x = true -> small 9 x) as W.
  { intros x Hx. apply (small_le 8); [lia|lia|].
    exact (within_small 8 180 x N180 P180 Hx). }
  assert (small 9 (s0 + 5)) as Hs05.
  { apply (small_add 8); [lia| |exact P5]. exact (within_small 8 180 s0 N180 P180 Hs0). }
  destruct (make_barb_curves_tame sin cos sin_finite cos_finite pointPosition 9 selection
              [(0, VBarb (VFloat 0) (VFloat l0) (VFloat (s0 + 5)) (VFloat e0));
               (0.1, VBarb (VFloat 0.1) (VFloat l1) (VFloat s1) (VFloat e1));
               (0.5, VBarb (VFloat 0.5) (VFloat l2) (VFloat s2) (VFloat e2));
               (0.95, VBarb (VFloat 0.95) (VFloat l3) (VFloat s3) (VFloat e3));
               (1, VBarb (VFloat 1) (VFloat 0) (VFloat s3) (VFloat e3))]
              ltac:(lia) eq_refl eq_refl) as (out & H1 & H2 & H3 & H4 & H5).
  { repeat constructor; cbn [snd]; eexists _, _, _, _;
      (split; [reflexivity|]); split; auto. }
  { exact Hn. }
  exists out. split; [reflexivity|]. split; [reflexivity|]. auto.
Qed.

End LoopFacts.

Lemma make_barb_curves_on_records_witness :
  exists out,
    make_barb_curves (fun _ => 0) (fun _ => 1) (fun _ : bool => (1, 2, 3))
      [true; false]
      [(0, VBarb (VFloat 0) (VFloat 1) (VFloat 5) (VFloat 10));
       (1, VBarb (VFloat 1) (VFloat 0) (VFloat 20) (VFloat 30))] = Ok out /\
    List.length out = 2%nat /\ forallb is_barb out = true /\
    ([true; false] <> [] ->
     option_map fst (nth_error out 0) =
       Some (VBarb (VFloat 0) (VFloat 1) (VFloat 5) (VFloat 10))) /\
    ((2 <= 2)%nat ->
     option_map fst (nth_error out (2 - 1)) =
       Some (VBarb (VFloat 1) (VFloat 0) (VFloat 20) (VFloat 30))).
Proof.
  apply (make_barb_curves_on_records (fun _ => 0) (fun _ => 1)
           (fun _ _ => eq_refl) (fun _ _ => eq_refl) bool (fun _ => (1, 2, 3))
           [true; false]); [reflexivity | reflexivity | reflexivity |].
  simpl. lia.
Defined.

Lemma window_graph_resolves_witness :
  exists g out,
    window_graph 1 10 20 2 30 40 3 50 60 4 70 80 = Ok g /\
    point_locations g = [0; 0.1; 0.5; 0.95; 1] /\
    make_barb_curves (fun _ => 0) (fun _ => 1) (fun _ : bool => (1, 2, 3))
      [true; false; true] g = Ok out /\
    List.length out = 3%nat /\
    forallb is_barb out = true /\
    ([true; false; true] <> [] ->
     option_map fst (nth_error out 0) =
       Some (VBarb (VFloat 0) (VFloat 1) (VFloat (10 + 5)) (VFloat 20))) /\
    ((2 <= 3)%nat ->
     option_map fst (nth_error out (3 - 1)) =
       Some (VBarb (VFloat 1) (VFloat 0) (VFloat 70) (VFloat 80))).
Proof.
  apply (window_graph_resolves (fun _ => 0) (fun _ => 1)
           (fun _ _ => eq_refl) (fun _ _ => eq_refl) bool (fun _ => (1, 2, 3))
           [true; false; true] 1 10 20 2 30 40 3 50 60 4 70 80); [|reflexivity].
  simpl. lia.
Defined.

(** ** [scale_feathers] *)

(** When the host answers the scale of the first feather the way the
    repository reads its answers for attributes of three components, as a
    list that holds one tuple, [scale_feathers] scales nothing: it raises
    before the first call of [cmd.scale], whatever the factor and the axes
    are.  [TypeError] for the primary axis ['x'] (a tuple times a float),
    [IndexError] for ['y'] and ['z'] (the list has one element), and
    [SyntaxError] for any other name. *)
Theorem scale_feathers_never_scales {F : Type} (getAttr_scale : F -> list attr_item)
    feather feathers s a b :
  one_triple (getAttr_scale feather) = true ->
  scale_feathers getAttr_scale (feather :: feathers) s a b =
    ([], Some (if (lower a =? "x")%string then Core TypeError
               else if is_axis (lower a) then IndexError
               else SyntaxError)).
Proof.
  intros H. cbn [scale_feathers].
  destruct (getAttr_scale feather) as [|[x|t] [|]]; try discriminate.
  unfold scale_axis, scale_item, is_axis.
  destruct (lower a =? "x")%string; [reflexivity|].
  destruct (lower a =? "y")%string; [reflexivity|].
  destruct (lower a =? "z")%string; reflexivity.
Qed.

Lemma scale_feathers_never_scales_witness :
  scale_feathers (fun _ : nat => [Triple (1, 1, 1)]) [1%nat; 2%nat] 2 "Z" "x" =
    ([], Some IndexError).
Proof.
  exact (scale_feathers_never_scales (fun _ : nat => [Triple (1, 1, 1)]) 1%nat [2%nat]
           2 "Z" "x" eq_refl).
Defined.



(** ** The edges of [make_feathers] *)

(** Tokens joined by separators are split into the tokens again. *)
Theorem re_split_round_trip t rest :
  is_token t = true ->
  forallb (fun st => is_separator (fst st) && is_token (snd st)) rest = true ->
  re_split (join t rest) = t :: map snd rest.
Proof. intros Ht Hr. unfold re_split. now rewrite re_split_join. Qed.

Lemma re_split_round_trip_witness :
  re_split (join "0" [(", ", "2"); ("  ", "13"); (",", "7")]%string) =
    ["0"; "2"; "13"; "7"]%string.
Proof.
  exact (re_split_round_trip "0" [(", ", "2"); ("  ", "13"); (",", "7")]%string
           eq_refl eq_refl).
Defined.

(** The pieces hold no space and no comma, and together they are the text
    without its spaces and commas. *)
Theorem re_split_strips edges :
  forallb (all_chars plain) (re_split edges) = true /\
  String.concat "" (re_split edges) = strip edges.
Proof.
  unfold re_split. split.
  - now apply re_split_from_plain.
  - now rewrite re_split_from_strip.
Qed.

(** ** The interpolation factor of [get] *)

(** Between two keys of a graph whose keys lie in [0,1], [get] blends
    the values stored at the neighbours below and above the position,
    and the factor it hands to [lerp], the rounded quotient of two
    rounded differences, lies in [0,1] as the docstring of [lerp] asks. *)
Theorem get_factor_in_unit g p :
  LineGraph_ok g = true -> unit_keys g = true ->
  in_unit p = true -> dict_mem g p = false ->
  exists low high v_low v_high,
    dict_get g low = Some v_low /\ dict_get g high = Some v_high /\
    (low <? p) = true /\ (p <? high) = true /\
    in_unit ((p - low) / (high - low)) = true /\
    get g (VFloat p) = lerp v_low v_high ((p - low) / (high - low)).
Proof. exact (get_blend_unit g p). Qed.

Lemma get_factor_in_unit_witness :
  exists low high v_low v_high,
    dict_get [(0, VFloat 1); (0.3, VFloat 2); (1, VFloat 3)] low = Some v_low /\
    dict_get [(0, VFloat 1); (0.3, VFloat 2); (1, VFloat 3)] high = Some v_high /\
    (low <? 0.7) = true /\ (0.7 <? high) = true /\
    in_unit ((0.7 - low) / (high - low)) = true /\
    get [(0, VFloat 1); (0.3, VFloat 2); (1, VFloat 3)] (VFloat 0.7) =
      lerp v_low v_high ((0.7 - low) / (high - low)).
Proof.
  exact (get_factor_in_unit [(0, VFloat 1); (0.3, VFloat 2); (1, VFloat 3)] 0.7
           eq_refl eq_refl eq_refl eq_refl).
Defined.

(** A graph on the unit interval whose stored values all equal one
    finite number returns a value equal to that number at every
    position of [0,1]: the blend of equal values never drifts. *)
Theorem flat_graph_is_flat g c p :
  LineGraph_ok g = true -> unit_keys g = true ->
  flat_graph c g = true -> is_finite c = true ->
  in_unit p = true ->
  exists x, get g (VFloat p) = Ok (VFloat x) /\ (x =? c) = true.
Proof.
  intros Hok Hu Hf Hc Hp. destruct (dict_mem g p) eqn:Hm.
  - apply dict_mem_get in Hm as [v Hv].
    destruct (dict_get_flat g c p v Hf Hv) as (x & -> & Hx).
    exists x. split; [|exact Hx]. now apply get_stored.
  - destruct (get_blend_unit g p Hok Hu Hp Hm)
      as (low & high & vl & vh & Hvl & Hvh & _ & _ & Ht & ->).
    destruct (dict_get_flat g c low vl Hf Hvl) as (x & -> & Hx).
    destruct (dict_get_flat g c high vh Hf Hvh) as (y & -> & Hy).
    cbn [lerp]. eexists. split; [reflexivity|].
    apply blend_flat; try assumption. now apply in_unit_finite.
Qed.

Lemma flat_graph_is_flat_witness :
  exists x,
    get [(0, VFloat 0.1); (0.3, VFloat 0.1); (1, VFloat 0.1)] (VFloat 0.7) = Ok (VFloat x) /\
    (x =? 0.1) = true.
Proof.
  exact (flat_graph_is_flat [(0, VFloat 0.1); (0.3, VFloat 0.1); (1, VFloat 0.1)] 0.1 0.7
           eq_refl eq_refl eq_refl eq_refl eq_refl).
Defined.
